(** * relock: a shallow embedding of relock.js

    The development follows the source file top to bottom:
    strings and JS objects, the canonical dependency tree, the tree builder
    ([generateDependencyTree]), the differ ([relockTree]), the hoister
    ([flattenTree]) and the assembler ([buildLockFile]). *)

From Stdlib Require Import List String Ascii Bool Arith Lia ZArith.
From Stdlib Require Import Sorted Permutation.
From Stdlib Require OrderedTypeEx.
Import ListNotations.
Open Scope string_scope.
Open Scope list_scope.

Set Implicit Arguments.

(** ** Outcomes of a JavaScript computation *)

(** What a piece of the program can do: return a value, throw, or (for the
    fuelled models of loops and recursion) not finish within the fuel. *)
Inductive error : Type :=
| TypeError
| SyntaxError
| UserError (msg : string).

Inductive result (A : Type) : Type :=
| Ok (a : A)
| Throw (e : error)
| Timeout.

Arguments Ok {A} a.
Arguments Throw {A} e.
Arguments Timeout {A}.

Definition bind {A B : Type} (m : result A) (k : A -> result B) : result B :=
  match m with
  | Ok a => k a
  | Throw e => Throw e
  | Timeout => Timeout
  end.

Notation "x <- m ;; k" := (bind m (fun x => k))
  (at level 61, m at next level, right associativity).

(** ** Strings *)

Module Str.

(** [String.prototype.split] with a one-character separator: the pieces
    between the separators, so always at least one piece. *)
Fixpoint split (sep : ascii) (s : string) : list string :=
  match s with
  | EmptyString => [EmptyString]
  | String c r =>
      if Ascii.eqb c sep then EmptyString :: split sep r
      else match split sep r with
           | [] => [String c EmptyString]
           | x :: xs => String c x :: xs
           end
  end.

(** [Array.prototype.join] with a one-character separator. *)
Fixpoint join (sep : ascii) (l : list string) : string :=
  match l with
  | [] => EmptyString
  | [x] => x
  | x :: r => x ++ String sep (join sep r)
  end.

(** [s.replace(c, '')] with a string pattern: only the first occurrence goes. *)
Fixpoint removeFirst (c : ascii) (s : string) : string :=
  match s with
  | EmptyString => EmptyString
  | String d r => if Ascii.eqb d c then r else String d (removeFirst c r)
  end.

Fixpoint mem (x : string) (l : list string) : bool :=
  match l with
  | [] => false
  | y :: r => String.eqb y x || mem x r
  end.

Fixpoint contains (c : ascii) (s : string) : bool :=
  match s with
  | EmptyString => false
  | String d r => Ascii.eqb d c || contains c r
  end.

(** [s.search(new RegExp(p)) !== -1] for a pattern [p] without regular
    expression metacharacters: [p] occurs in [s]. *)
Fixpoint includes (p s : string) : bool :=
  String.prefix p s
  || match s with
     | EmptyString => false
     | String _ r => includes p r
     end.

End Str.

Definition bar : ascii := "|"%char.

(** ** JS objects used as maps

    An object is kept as the list of its properties in insertion order.
    It is read only through [keys] ([Object.keys], every key once) and
    [get] (property lookup), so a list with a repeated key denotes the object
    in which the first binding wins.

    Two things JS does are not part of [get], [keys] and [set].  A lookup
    [o[k]] also finds the members of [Object.prototype] under their names
    ([Proto] below): the differ's lookup of line 335 is modelled with them,
    the builder and the hoister are modelled on the names that are no such
    member ([Plain.lock], [Plain.tree]).  And JS lists the property names
    that are array indices first, in numeric order: a list stands for the
    object whose keys come in the order of the list, and [set] gives the
    order of JS for the names that are [Plain.ordinary]. *)

Module Obj.

Definition t (V : Type) : Type := list (string * V).

Fixpoint get {V} (o : t V) (k : string) : option V :=
  match o with
  | [] => None
  | (k', v) :: r => if String.eqb k' k then Some v else get r k
  end.

Fixpoint keysFrom {V} (seen : list string) (o : t V) : list string :=
  match o with
  | [] => []
  | (k, _) :: r =>
      if Str.mem k seen then keysFrom seen r else k :: keysFrom (k :: seen) r
  end.

Definition keys {V} (o : t V) : list string := keysFrom [] o.

(** [o[k] = v]: an existing property keeps its place, a new one goes last. *)
Fixpoint set {V} (o : t V) (k : string) (v : V) : t V :=
  match o with
  | [] => [(k, v)]
  | (k', v') :: r =>
      if String.eqb k' k then (k', v) :: r else (k', v') :: set r k v
  end.

End Obj.

(** The members of [Object.prototype]: what [o[k]] finds on any object that
    has no property of its own under one of these names. *)
Module Proto.

Definition names : list string :=
  ["constructor"; "__proto__"; "hasOwnProperty"; "isPrototypeOf";
   "propertyIsEnumerable"; "toLocaleString"; "toString"; "valueOf";
   "__defineGetter__"; "__defineSetter__"; "__lookupGetter__";
   "__lookupSetter__"].

Definition member (k : string) : bool := Str.mem k names.

(** [o[k]] is an inherited member: a function, or for [__proto__] the
    prototype object itself; in both cases a truthy value that is no
    string. *)
Definition inherited {V} (o : Obj.t V) (k : string) : bool :=
  match Obj.get o k with
  | Some _ => false
  | None => member k
  end.

(** No part of the name, cut at the bars, is a member of
    [Object.prototype]. *)
Definition plain (s : string) : bool :=
  forallb (fun part => negb (member part)) (Str.split bar s).

End Proto.

(** Property names that JS may treat as array indices: the names made of
    digits only (a superset of the canonical numeric strings). *)
Module Index.

Definition digit (c : ascii) : bool :=
  let n := nat_of_ascii c in Nat.leb 48 n && Nat.leb n 57.

Fixpoint digits (s : string) : bool :=
  match s with
  | EmptyString => true
  | String c r => digit c && digits r
  end.

Definition like (s : string) : bool :=
  negb (String.eqb s "") && digits s.

End Index.

(** Patterns without regular expression metacharacters: letters, digits
    and the signs [-], [_], [@] and [/].  [new RegExp] compiles every one
    of them. *)
Module Pattern.

Definition plainChar (c : ascii) : bool :=
  let n := nat_of_ascii c in
  (Nat.leb 48 n && Nat.leb n 57)
  || (Nat.leb 65 n && Nat.leb n 90)
  || (Nat.leb 97 n && Nat.leb n 122)
  || Nat.eqb n 45 || Nat.eqb n 95 || Nat.eqb n 64 || Nat.eqb n 47.

Fixpoint literal (s : string) : bool :=
  match s with
  | EmptyString => true
  | String c r => plainChar c && literal r
  end.

End Pattern.

(** ** The canonical dependency tree (relock.js, lines 88-95 and 212-246)

    A node of the tree built by [generateDependencyTree].  The root carries
    no [semVer] and no [tag].  An element of [dependencies] is [None] where
    the JS array holds [undefined] (what [relockTree] pushes when a lookup by
    name finds nothing). *)
#[warnings="-register-all"]
Inductive node : Type :=
  Node {
    name : string;
    version : string;
    semVer : option string;
    tag : option string;
    requires : Obj.t string;
    signature : string;
    dependencies : list (option node)
  }.

Definition withDependencies (n : node) (ds : list (option node)) : node :=
  Node (name n) (version n) (semVer n) (tag n) (requires n) (signature n) ds.

(** The fields of a node other than its dependency list. *)
Definition sameMeta (a b : node) : Prop :=
  name a = name b /\ version a = version b /\ semVer a = semVer b /\
  tag a = tag b /\ requires a = requires b /\ signature a = signature b.

(** ** Configuration (relock.js, lines 9-52) *)

Section Config.

(** [config.projectFiles], and the regular-expression engine behind
    [moduleName.search(new RegExp(pattern)) !== -1].  The engine is taken
    on patterns that compile: [new RegExp] throws a SyntaxError on the
    others, which [Pattern.literal] patterns never are. *)
Variable projectFiles : list string.
Variable regexFound : string -> string -> bool.

Definition isProjectModule (moduleName : string) : bool :=
  if String.eqb moduleName "" then true
  else existsb (fun pattern => regexFound pattern moduleName) projectFiles.

End Config.


(** ** The digest behind [crypto.createHash('md5')]

    MD5 as RFC 1321 defines it, on 32-bit words kept in [N] with the
    wrap-around written out; the digest is rendered in lower-case hex. *)

Module MD5.

Local Open Scope N_scope.

Definition mask32 : N := 4294967295.

Definition add32 (a b : N) : N := N.land (a + b) mask32.

Definition not32 (a : N) : N := N.lxor a mask32.

Definition rotl32 (x : N) (c : N) : N :=
  N.land (N.lor (N.shiftl x c) (N.shiftr x (32 - c))) mask32.

(** Per-round shift amounts. *)
Definition shifts : list N :=
  [7; 12; 17; 22; 7; 12; 17; 22; 7; 12; 17; 22; 7; 12; 17; 22;
   5; 9; 14; 20; 5; 9; 14; 20; 5; 9; 14; 20; 5; 9; 14; 20;
   4; 11; 16; 23; 4; 11; 16; 23; 4; 11; 16; 23; 4; 11; 16; 23;
   6; 10; 15; 21; 6; 10; 15; 21; 6; 10; 15; 21; 6; 10; 15; 21].

(** [floor (2^32 * abs (sin (i + 1)))] for i = 0..63. *)
Definition sines : list N :=
  [3614090360; 3905402710; 606105819; 3250441966;
   4118548399; 1200080426; 2821735955; 4249261313;
   1770035416; 2336552879; 4294925233; 2304563134;
   1804603682; 4254626195; 2792965006; 1236535329;
   4129170786; 3225465664; 643717713; 3921069994;
   3593408605; 38016083; 3634488961; 3889429448;
   568446438; 3275163606; 4107603335; 1163531501;
   2850285829; 4243563512; 1735328473; 2368359562;
   4294588738; 2272392833; 1839030562; 4259657740;
   2763975236; 1272893353; 4139469664; 3200236656;
   681279174; 3936430074; 3572445317; 76029189;
   3654602809; 3873151461; 530742520; 3299628645;
   4096336452; 1126891415; 2878612391; 4237533241;
   1700485571; 2399980690; 4293915773; 2240044497;
   1873313359; 4264355552; 2734768916; 1309151649;
   4149444226; 3174756917; 718787259; 3951481745].

Definition bytesOf (s : string) : list N :=
  List.map N_of_ascii (list_ascii_of_string s).

(** The 64-bit bit length, least significant byte first. *)
Fixpoint leBytes (n : nat) (x : N) : list N :=
  match n with
  | O => []
  | S n' => N.land x 255 :: leBytes n' (N.shiftr x 8)
  end.

Definition pad (msg : list N) : list N :=
  let len := N.of_nat (List.length msg) in
  let zeros := N.to_nat ((119 - (len mod 64)) mod 64) in
  msg ++ [128] ++ List.repeat 0 zeros ++ leBytes 8 (8 * len).

Fixpoint words (n : nat) (bs : list N) : list N :=
  match n with
  | O => []
  | S n' =>
      match bs with
      | b0 :: b1 :: b2 :: b3 :: r =>
          (b0 + 256 * b1 + 65536 * b2 + 16777216 * b3) :: words n' r
      | _ => []
      end
  end.

Record state : Type := State { sa : N; sb : N; sc : N; sd : N }.

Definition init : state := State 1732584193 4023233417 2562383102 271733878.

Definition round (m : list N) (st : state) (i : nat) : state :=
  let '(State a b c d) := st in
  let '(f, g) :=
    if Nat.ltb i 16 then
      (N.lor (N.land b c) (N.land (not32 b) d), i)
    else if Nat.ltb i 32 then
      (N.lor (N.land d b) (N.land (not32 d) c), (5 * i + 1) mod 16)%nat
    else if Nat.ltb i 48 then
      (N.lxor b (N.lxor c d), (3 * i + 5) mod 16)%nat
    else
      (N.lxor c (N.lor b (not32 d)), (7 * i) mod 16)%nat in
  let f' := add32 (add32 (add32 f a) (List.nth i sines 0)) (List.nth g m 0) in
  State d (add32 b (rotl32 f' (List.nth i shifts 0))) b c.

Definition block (st : state) (m : list N) : state :=
  let st' := List.fold_left (round m) (List.seq 0 64) st in
  State (add32 (sa st) (sa st')) (add32 (sb st) (sb st'))
        (add32 (sc st) (sc st')) (add32 (sd st) (sd st')).

Fixpoint blocks (n : nat) (st : state) (bs : list N) : state :=
  match n with
  | O => st
  | S n' => blocks n' (block st (words 16 bs)) (List.skipn 64 bs)
  end.

Definition hexDigit (n : N) : ascii :=
  if n <? 10 then ascii_of_N (48 + n) else ascii_of_N (87 + n).

Definition hexByte (b : N) : string :=
  String (hexDigit (b / 16)) (String (hexDigit (b mod 16)) EmptyString).

Definition hexWord (w : N) : string :=
  String.concat "" (List.map hexByte (leBytes 4 w)).

Definition digest (s : string) : string :=
  let bs := pad (bytesOf s) in
  let st := blocks (List.length bs / 64) init bs in
  (hexWord (sa st) ++ hexWord (sb st) ++ hexWord (sc st) ++ hexWord (sd st))%string.

End MD5.

(** ** The differ: [relockTree] (relock.js, lines 256-361) *)

Module Relock.

(** [find(dependencies, name)] (lines 280-288), with the position of the
    match.  The callback reads [dependency.name], which throws on an
    [undefined] element met before the match. *)
Fixpoint findFrom (i : nat) (ds : list (option node)) (nm : string)
  : result (option (nat * node)) :=
  match ds with
  | [] => Ok None
  | None :: _ => Throw TypeError
  | Some d :: r =>
      if String.eqb (name d) nm then Ok (Some (i, d)) else findFrom (S i) r nm
  end.

Definition find (ds : list (option node)) (nm : string) : result (option node) :=
  r <- findFrom 0 ds nm ;; Ok (option_map snd r).

(** [d] is the first element of [ds] named [key], behind defined elements
    of other names only: the element at which the loop of [find] stops. *)
Definition firstNamed (ds : list (option node)) (key : string) (d : node)
  : Prop :=
  exists pre rest,
    ds = pre ++ Some d :: rest /\
    name d = key /\
    forall x, In x pre -> exists c, x = Some c /\ name c <> key.

(** [getNode(tree, path)] (lines 291-304), with the position of the node
    reached: the indices followed in the successive dependency arrays. *)
Fixpoint getNodeAt (tree : node) (path : list string)
  : result (option (list nat * node)) :=
  match path with
  | [] => Ok (Some ([], tree))
  | part :: rest =>
      r <- findFrom 0 (dependencies tree) part ;;
      match r with
      | None => Ok None
      | Some (i, n) =>
          r' <- getNodeAt n rest ;;
          Ok (option_map (fun p => (i :: fst p, snd p)) r')
      end
  end.

Definition getNode (tree : node) (path : list string) : result (option node) :=
  r <- getNodeAt tree path ;; Ok (option_map snd r).

(** The object stored at a position of a tree. *)
Fixpoint nodeAt (t : node) (loc : list nat) : option node :=
  match loc with
  | [] => Some t
  | i :: r =>
      match nth_error (dependencies t) i with
      | Some (Some c) => nodeAt c r
      | _ => None
      end
  end.

Fixpoint updNth {A} (i : nat) (f : A -> A) (l : list A) : list A :=
  match l, i with
  | [], _ => []
  | x :: r, O => f x :: r
  | x :: r, S j => x :: updNth j f r
  end.

(** [n.dependencies.push(x)] for the object [n] stored at position [loc]. *)
Fixpoint pushAt (loc : list nat) (x : option node) (t : node) : node :=
  match loc with
  | [] => withDependencies t (dependencies t ++ [x])
  | i :: r => withDependencies t (updNth i (option_map (pushAt r x)) (dependencies t))
  end.

(** [cleanSemVer] (lines 306-311). *)
Definition cleanSemVer (semVer : string) : string :=
  Str.removeFirst "^"%char (Str.removeFirst "~"%char semVer).

(** [notPatch] (lines 313-318).  An index past the end of the array reads
    [undefined]; [!=] on two strings compares them. *)
Definition optEqb (a b : option string) : bool :=
  match a, b with
  | Some x, Some y => String.eqb x y
  | None, None => true
  | _, _ => false
  end.

Definition notPatch (curSemVer prevSemVer : string) : bool :=
  let curVer := Str.split "."%char (cleanSemVer curSemVer) in
  let prevVer := Str.split "."%char (cleanSemVer prevSemVer) in
  negb (optEqb (nth_error curVer 0) (nth_error prevVer 0))
  || negb (optEqb (nth_error curVer 1) (nth_error prevVer 1)).

(** The test [!prevVer] of line 341: the property is absent or is the empty
    string. *)
Definition falsy (v : option string) : bool :=
  match v with
  | None => true
  | Some s => String.eqb s ""
  end.

Section Differ.

Variable projectFiles : list string.
Variable regexFound : string -> string -> bool.
Variables prevTree curTree : node.

(** [addNode] (lines 261-277).  The state is the variable [relockTree]
    ([None] while it is still [undefined]); the result also gives the
    position at which the new node now sits. *)
Definition addNode (nd : node) (path : list string) (st : option node)
  : result (option node * list nat) :=
  match path with
  | [] => Ok (Some nd, [])
  | _ =>
      match st with
      | None => Throw TypeError
      | Some t =>
          r <- getNodeAt t (removelast path) ;;
          match r with
          | None => Throw TypeError
          | Some (ploc, parent) =>
              Ok (Some (pushAt ploc (Some nd) t),
                  ploc ++ [List.length (dependencies parent)])
          end
      end
  end.

(** The [push] of lines 343, 346 and 353 on [relockNode], the object at
    [loc] of the tree under construction. *)
Definition pushDep (loc : list nat) (x : option node) (st : option node)
  : option node :=
  option_map (pushAt loc x) st.

(** One turn of the [for] loop of lines 332-355; [rec] is the recursive call
    [one(newPath)].  When the previous node does not require [key] and
    [key] names a member of [Object.prototype], [prevNode.requires[key]] is
    that member: it is truthy, so [notPatch] is called on it, and
    [cleanSemVer] throws a TypeError on its missing [replace]. *)
Definition oneKey (rec : list string -> option node -> result (option node))
    (path : list string) (curNode : node) (prevNode : option node)
    (loc : list nat) (key : string) (st : option node) : result (option node) :=
  let curVer := Obj.get (requires curNode) key in
  match prevNode with
  | None => Throw TypeError
  | Some prevNode =>
      let prevVer := Obj.get (requires prevNode) key in
      if Proto.inherited (requires prevNode) key then Throw TypeError
      else if falsy prevVer then
        dependencyNode <- find (dependencies curNode) key ;;
        Ok (pushDep loc dependencyNode st)
      else if notPatch (match curVer with Some v => v | None => "" end)
                       (match prevVer with Some v => v | None => "" end) then
        dependencyNode <- find (dependencies curNode) key ;;
        Ok (pushDep loc dependencyNode st)
      else if negb (optEqb prevVer curVer)
              || isProjectModule projectFiles regexFound key then
        rec (path ++ [key]) st
      else
        dependencyNode <- find (dependencies prevNode) key ;;
        Ok (pushDep loc dependencyNode st)
  end.

Fixpoint forKeys (step : string -> option node -> result (option node))
    (ks : list string) (st : option node) : result (option node) :=
  match ks with
  | [] => Ok st
  | key :: r => st' <- step key st ;; forKeys step r st'
  end.

(** [one] (lines 321-356).  [JSON.parse(JSON.stringify(curNode))] throws a
    SyntaxError when [curNode] is [undefined]; the copy then has its
    dependency list cleared. *)
Fixpoint one (fuel : nat) (path : list string) (st : option node)
  : result (option node) :=
  match fuel with
  | O => Timeout
  | S fuel' =>
      cur <- getNode curTree path ;;
      prevNode <- getNode prevTree path ;;
      match cur with
      | None => Throw SyntaxError
      | Some curNode =>
          let relockNode := withDependencies curNode [] in
          r <- addNode relockNode path st ;;
          let '(st1, loc) := r in
          forKeys (oneKey (one fuel') path curNode prevNode loc)
                  (Obj.keys (requires curNode)) st1
      end
  end.

(** The recursion of [one] goes one level down the current tree at each
    call, so the height of that tree bounds it. *)
Fixpoint height (t : node) : nat :=
  match t with
  | Node _ _ _ _ _ _ ds =>
      S ((fix hs (l : list (option node)) : nat :=
            match l with
            | [] => 0
            | None :: r => hs r
            | Some c :: r => Nat.max (height c) (hs r)
            end) ds)
  end.

Definition relockTree : result (option node) :=
  one (S (height curTree)) [] None.

(** *** The tree that [one] builds, node by node

    [one] fills the tree in place, through [addNode] and [push].  [mix] is
    the same traversal returning the finished node for [path]; the two are
    related by [one_mix] below. *)
Definition mixKey (rec : list string -> result node)
    (path : list string) (curNode : node) (prevNode : option node)
    (key : string) : result (option node) :=
  let curVer := Obj.get (requires curNode) key in
  match prevNode with
  | None => Throw TypeError
  | Some prevNode =>
      let prevVer := Obj.get (requires prevNode) key in
      if Proto.inherited (requires prevNode) key then Throw TypeError
      else if falsy prevVer then find (dependencies curNode) key
      else if notPatch (match curVer with Some v => v | None => "" end)
                       (match prevVer with Some v => v | None => "" end) then
        find (dependencies curNode) key
      else if negb (optEqb prevVer curVer)
              || isProjectModule projectFiles regexFound key then
        m <- rec (path ++ [key]) ;; Ok (Some m)
      else find (dependencies prevNode) key
  end.

Fixpoint mapKeys (step : string -> result (option node)) (ks : list string)
  : result (list (option node)) :=
  match ks with
  | [] => Ok []
  | key :: r => e <- step key ;; es <- mapKeys step r ;; Ok (e :: es)
  end.

Fixpoint mix (fuel : nat) (path : list string) : result node :=
  match fuel with
  | O => Timeout
  | S fuel' =>
      cur <- getNode curTree path ;;
      prevNode <- getNode prevTree path ;;
      match cur with
      | None => Throw SyntaxError
      | Some curNode =>
          ds <- mapKeys (mixKey (mix fuel') path curNode prevNode)
                        (Obj.keys (requires curNode)) ;;
          Ok (withDependencies curNode ds)
      end
  end.

(** The paths at which [one] is called, each with the position of its
    [relockNode] in the tree under construction: the root, and below a
    reached node every key that takes the branch of line 347. *)
Inductive Reached : list string -> list nat -> Prop :=
| ReachedRoot : Reached [] []
| ReachedKey path loc curNode prevNode key i curVer prevVer :
    Reached path loc ->
    getNode curTree path = Ok (Some curNode) ->
    getNode prevTree path = Ok (Some prevNode) ->
    nth_error (Obj.keys (requires curNode)) i = Some key ->
    Obj.get (requires curNode) key = Some curVer ->
    Obj.get (requires prevNode) key = Some prevVer ->
    prevVer <> "" ->
    notPatch curVer prevVer = false ->
    negb (String.eqb prevVer curVer)
      || isProjectModule projectFiles regexFound key = true ->
    Reached (path ++ [key]) (loc ++ [i]).

End Differ.

End Relock.

(** ** [JSON.stringify] on dependency arrays *)

Module Json.

Local Open Scope string_scope.

Definition dquote : ascii := ascii_of_nat 34.
Definition backslash : ascii := ascii_of_nat 92.

Definition str1 (c : ascii) : string := String c EmptyString.

(** The escapes of a JSON string: quote, backslash, the short forms of the
    control characters, and the four-digit form for the others below 32. *)
Definition escapeChar (c : ascii) : string :=
  let n := nat_of_ascii c in
  if Nat.eqb n 34 then String backslash (str1 dquote)
  else if Nat.eqb n 92 then String backslash (str1 backslash)
  else if Nat.eqb n 8 then String backslash "b"
  else if Nat.eqb n 9 then String backslash "t"
  else if Nat.eqb n 10 then String backslash "n"
  else if Nat.eqb n 12 then String backslash "f"
  else if Nat.eqb n 13 then String backslash "r"
  else if Nat.ltb n 32 then String backslash ("u00" ++ MD5.hexByte (N.of_nat n))
  else str1 c.

Fixpoint escape (s : string) : string :=
  match s with
  | EmptyString => EmptyString
  | String c r => escapeChar c ++ escape r
  end.

Definition quote (s : string) : string :=
  String dquote (escape s ++ str1 dquote).

Definition field (k v : string) : string := quote k ++ ":" ++ v.

Definition stringifyMap (o : Obj.t string) : string :=
  "{" ++ String.concat ","
           (List.map (fun k => field k (quote (match Obj.get o k with
                                               | Some v => v
                                               | None => ""
                                               end)))
                     (Obj.keys o)) ++ "}".

Definition optField (k : string) (v : option string) : list string :=
  match v with
  | Some s => [field k (quote s)]
  | None => []
  end.

(** The properties of a node in the order the object literal of lines
    212-222 creates them; an [undefined] array element prints as null. *)
Fixpoint stringifyNode (n : node) : string :=
  match n with
  | Node nm ver sv tg rq sg ds =>
      "{" ++ String.concat ","
               ([field "name" (quote nm); field "version" (quote ver)]
                ++ optField "semVer" sv ++ optField "tag" tg
                ++ [field "requires" (stringifyMap rq);
                    field "signature" (quote sg);
                    field "dependencies"
                      ("[" ++ String.concat ","
                                (List.map (fun o => match o with
                                                    | Some c => stringifyNode c
                                                    | None => "null"
                                                    end) ds) ++ "]")])
          ++ "}"
  end.

Definition stringify (ds : list (option node)) : string :=
  "[" ++ String.concat ","
           (List.map (fun o => match o with
                               | Some c => stringifyNode c
                               | None => "null"
                               end) ds) ++ "]".

End Json.

(** [getTreeSignature] (lines 80-86). *)
Definition getTreeSignature (tree : list (option node)) : string :=
  MD5.digest (Json.stringify tree).


Definition sameOpt (a b : option string) : bool :=
  match a, b with
  | Some x, Some y => String.eqb x y
  | None, None => true
  | _, _ => false
  end.





(** ** Lock files

    An entry of a package-lock document: the root or a nested dependency.
    [lname] is the top-level name (nested entries are named by their key);
    a missing [requires] or [dependencies] is the empty object, which is what
    lines 58 and 188 put in its place before the property is read.  (Line
    188 runs for every entry that [one] expands; an entry that is matched
    but never expanded, as one kept under the empty key can be, would keep
    a missing [requires] at line 217.) *)
#[warnings="-register-all"]
Inductive lockEntry : Type :=
  LockEntry {
    lname : string;
    lversion : string;
    lrequires : Obj.t string;
    ldependencies : list (string * lockEntry)
  }.

(** [delete nodeVersion.dependencies] on a copy (lines 202-203). *)
Definition withoutDependencies (e : lockEntry) : lockEntry :=
  LockEntry (lname e) (lversion e) (lrequires e) [].

(** The module-level indices of lines 7-8. *)
Record globals : Type :=
  Globals {
    dependencyTrees : Obj.t (list (option node));
    versions : Obj.t lockEntry
  }.

Definition noGlobals : globals := Globals [] [].

(** ** The tree builder: [generateDependencyTree] (lines 96-249)

    The lookups [node.dependencies[part]] (line 135) and
    [processed[lockOnePath]] (line 183) are lookups of own properties: the
    builder is modelled on the lock files whose dependency keys are free of
    the members of [Object.prototype] ([Plain.lock] below). *)

Module Builder.

(** [buildPaths] (lines 54-75): the root path, then every nested entry in
    depth-first order, each as its names joined by a bar.  A key that an
    earlier property of the same object already used is not a property. *)
Fixpoint pathsBelow (nd : lockEntry) (path : list string) : list string :=
  match nd with
  | LockEntry _ _ _ deps =>
      (fix each (seen : list string) (l : list (string * lockEntry))
         : list string :=
         match l with
         | [] => []
         | (key, depNode) :: r =>
             if Str.mem key seen then each seen r
             else Str.join bar (path ++ [key])
                    :: pathsBelow depNode (path ++ [key])
                    ++ each (key :: seen) r
         end) [] deps
  end.

Definition buildPaths (root : lockEntry) : list string :=
  "" :: pathsBelow root [].

(** The variables of one invocation (lines 97-99), next to the globals. *)
Record state : Type :=
  St {
    stack : list string;
    processed : Obj.t (list (option node));
    glob : globals
  }.

Definition pushStack (p : string) (st : state) : state :=
  St (stack st ++ [p]) (processed st) (glob st).

Definition popStack (st : state) : state :=
  St (removelast (stack st)) (processed st) (glob st).

Definition setProcessed (p : string) (ds : list (option node)) (st : state)
  : state :=
  St (stack st) (Obj.set (processed st) p ds) (glob st).

Definition setVersion (k : string) (e : lockEntry) (st : state) : state :=
  St (stack st) (processed st)
     (Globals (dependencyTrees (glob st)) (Obj.set (versions (glob st)) k e)).

Definition setDependencyTree (sg : string) (ds : list (option node))
    (st : state) : state :=
  St (stack st) (processed st)
     (Globals (Obj.set (dependencyTrees (glob st)) sg ds) (versions (glob st))).

Section Build.

Variable root : lockEntry.

(** [lockPaths] of line 98. *)
Definition lockPaths : list string := buildPaths root.

(** The do-while of lines 114-126.  [found] doubles as the loop flag, so a
    match on the empty string does not stop the loop. *)
Fixpoint searchLockPath (fuel : nat) (searchPath : list string)
    (name : string) : result string :=
  match fuel with
  | O => Timeout
  | S fuel' =>
      let check := Str.join bar (searchPath ++ [name]) in
      if Str.mem check lockPaths then
        if String.eqb check "" then searchLockPath fuel' searchPath name
        else Ok check
      else
        match searchPath with
        | [] => Ok ""
        | _ => searchLockPath fuel' (removelast searchPath) name
        end
  end.

(** [getLockPath] (lines 103-129). *)
Definition getLockPath (fuel : nat) (path : list string) (name : string)
  : result string :=
  match path with
  | [] => if String.eqb name "" then Ok "" else searchLockPath fuel path name
  | _ => searchLockPath fuel path name
  end.

(** [getNode] (lines 132-143): a part that is not a dependency of the
    current node is reported and skipped. *)
Definition getNode (path : list string) : lockEntry :=
  List.fold_left
    (fun nd part =>
       match Obj.get (ldependencies nd) part with
       | Some d => d
       | None => nd
       end) path root.

(** [find] (lines 146-154).  The value returned is always an object. *)
Definition find (fuel : nat) (name : string) (path : list string)
  : result (option lockEntry) :=
  match path with
  | [] =>
      if String.eqb name "" then Ok (Some root)
      else lockPath <- getLockPath fuel path name ;;
           Ok (Some (getNode (Str.split bar lockPath)))
  | _ =>
      lockPath <- getLockPath fuel path name ;;
      Ok (Some (getNode (Str.split bar lockPath)))
  end.

(** The callback of lines 189-228, for one key of [lockNode.requires]. *)
Definition oneRequire (loopFuel : nat)
    (rec : list string -> state -> result (list (option node) * state))
    (path : list string) (lockNode : lockEntry) (name : string)
    (acc : list (option node) * state)
  : result (list (option node) * state) :=
  let '(dependencies, st) := acc in
  let semVer := Obj.get (lrequires lockNode) name in
  realPath <- getLockPath loopFuel path name ;;
  found <- find loopFuel name path ;;
  match found with
  | None =>
      Throw (UserError ("required module " ++ name
                          ++ " not found in dependencies")%string)
  | Some matched =>
      let tag := (name ++ "@" ++ lversion matched)%string in
      let st := setVersion tag (withoutDependencies matched) st in
      let depPath := Str.split bar realPath in
      r <- rec depPath st ;;
      let '(nodeDependencies, st) := r in
      let signature := getTreeSignature nodeDependencies in
      let nd := Node name (lversion matched) semVer (Some tag)
                     (lrequires matched) signature nodeDependencies in
      Ok (dependencies ++ [Some nd],
          setDependencyTree signature nodeDependencies st)
  end.

Fixpoint forEach {A} (step : string -> A -> result A) (ks : list string)
    (acc : A) : result A :=
  match ks with
  | [] => Ok acc
  | k :: r => acc' <- step k acc ;; forEach step r acc'
  end.

(** [one] (lines 161-235). *)
Fixpoint one (loopFuel fuel : nat) (path : list string) (st : state)
  : result (list (option node) * state) :=
  match fuel with
  | O => Timeout
  | S fuel' =>
      let onePath := removelast path in
      let name := last path "" in
      lockOnePath <- getLockPath loopFuel onePath name ;;
      if Str.mem lockOnePath (stack st) then Ok ([], st)
      else
        let st := pushStack lockOnePath st in
        found <- find loopFuel name onePath ;;
        match found with
        | None => Throw TypeError
        | Some lockNode =>
            match Obj.get (processed st) lockOnePath with
            | Some ds => Ok (ds, popStack st)
            | None =>
                r <- forEach (oneRequire loopFuel (one loopFuel fuel') path lockNode)
                       (Obj.keys (lrequires lockNode)) ([], st) ;;
                let '(dependencies, st) := r in
                Ok (dependencies,
                    setProcessed lockOnePath dependencies (popStack st))
            end
        end
  end.

(** [generateDependencyTree] (lines 96-249): [stack] and [processed] start
    empty at every call, the globals are the ones the caller leaves. *)
Definition generateDependencyTree (loopFuel fuel : nat) (g : globals)
  : result (node * globals) :=
  r <- one loopFuel fuel [] (St [] [] g) ;;
  let '(res, st) := r in
  let signature := getTreeSignature res in
  let st := setDependencyTree signature res st in
  Ok (Node "" (lversion root) None None (lrequires root) signature res,
      glob st).

End Build.

(** Every name required anywhere in the lock file is a non-empty string. *)
Fixpoint namedRequires (e : lockEntry) : bool :=
  match e with
  | LockEntry _ _ rq deps =>
      forallb (fun kv : string * string => negb (String.eqb (fst kv) "")) rq
      && (fix all (l : list (string * lockEntry)) : bool :=
            match l with
            | [] => true
            | (_, d) :: r => namedRequires d && all r
            end) deps
  end.

(** Bounds for the two fuels: the longest lock-path, in names, and the
    number of lock-paths. *)
Definition loopBound (root : lockEntry) : nat :=
  S (list_max (List.map (fun p => List.length (Str.split bar p))
                        (buildPaths root))).

Definition depthBound (root : lockEntry) : nat :=
  S (List.length (buildPaths root)).

End Builder.
(** ** Names that JS objects take as ordinary property names

    The lock file, the table of processed lock-paths and the placement tree
    are objects indexed by package names.  The facts below that depend on
    what [o[k]] finds for a name that [o] does not own, or on the place a
    new property takes among the others, are stated for the names that are
    no member of [Object.prototype] and no array index. *)

Module Plain.

(** Every key of a [dependencies] object and every required name of the
    lock file, at any depth, is free of the members of
    [Object.prototype]. *)
Fixpoint lock (e : lockEntry) : bool :=
  match e with
  | LockEntry _ _ rq deps =>
      forallb (fun kv : string * string => Proto.plain (fst kv)) rq
      && (fix all (l : list (string * lockEntry)) : bool :=
            match l with
            | [] => true
            | (k, d) :: r => Proto.plain k && lock d && all r
            end) deps
  end.

(** The same for the names of the nodes of a dependency tree below its
    root. *)
Fixpoint tree (n : node) : bool :=
  match n with
  | Node _ _ _ _ _ _ ds =>
      (fix all (l : list (option node)) : bool :=
         match l with
         | [] => true
         | Some c :: r => Proto.plain (name c) && tree c && all r
         | None :: r => all r
         end) ds
  end.

Fixpoint allTree (ds : list (option node)) : bool :=
  match ds with
  | [] => true
  | Some c :: r => Proto.plain (name c) && tree c && allTree r
  | None :: r => allTree r
  end.

(** A property name that [Object.assign] and an assignment [o[k] = v] add
    behind the properties already there: no array index, and not the
    accessor [__proto__]. *)
Definition ordinary (k : string) : bool :=
  negb (Index.like k) && negb (String.eqb k "__proto__").

Definition ordinaryKeys {V} (o : option (Obj.t V)) : bool :=
  match o with
  | Some s => forallb (fun kv : string * V => ordinary (fst kv)) s
  | None => true
  end.

End Plain.

(** ** The hoister: [flattenTree] (lines 364-520)

    The lookups [node.dependencies[name]] and [node.dependencies[part]] of
    [add] (lines 417 and 438-442) are lookups of own properties: the
    hoister is modelled on the trees whose names are free of the members of
    [Object.prototype] ([Plain.tree]). *)

Module Hoist.

(** A module of lines 377-384: one per variant met in the tree. *)
Record module : Type :=
  Module_ {
    mname : string;
    mversion : string;
    msignature : string;
    variant : string;
    depth : nat;
    paths : list string
  }.

(** A node of the placement tree ([flatTree]).  The root is the copy of the
    mixed tree's root made by [Object.assign] and has no [variant]; a placed
    node takes its name and version from the pieces of its variant, the
    second of which is [undefined] for a variant without a bar. *)
#[warnings="-register-all"]
Inductive pnode : Type :=
  PNode {
    pname : string;
    pversion : option string;
    pvariant : option string;
    pdependencies : list (string * pnode)
  }.

Definition variantOf (d : node) : string :=
  (name d ++ "|" ++ version d ++ "|" ++ signature d)%string.

(** The body of the callback of lines 370-394 up to the recursive call:
    [modules] and [moduleIndex] hold the same objects, kept here as one list
    keyed by variant, in the order of [modules]. *)
Definition indexOne (dependency : node) (path : list string)
    (modules : Obj.t module) : Obj.t module :=
  let newPath := path ++ [name dependency] in
  let nm := variantOf dependency in
  let m :=
    match Obj.get modules nm with
    | None => Module_ (name dependency) (version dependency)
                      (signature dependency) nm (List.length path) []
    | Some m => m
    end in
  Obj.set modules nm
    (Module_ (mname m) (mversion m) (msignature m) (variant m)
             (Nat.min (depth m) (List.length path))
             (paths m ++ [Str.join bar newPath])).

(** [buildIndexes] (lines 369-395); reading [dependency.name] throws on an
    [undefined] element. *)
Fixpoint buildIndexes (nd : node) (path : list string)
    (modules : Obj.t module) : result (Obj.t module) :=
  match nd with
  | Node _ _ _ _ _ _ ds =>
      (fix each (l : list (option node)) (modules : Obj.t module)
         : result (Obj.t module) :=
         match l with
         | [] => Ok modules
         | None :: _ => Throw TypeError
         | Some dependency :: r =>
             modules' <- buildIndexes dependency (path ++ [name dependency])
                           (indexOne dependency path modules) ;;
             each r modules'
         end) ds modules
  end.

(** [insert] (lines 398-406). *)
Definition insert (nd : pnode) (nm : string) (ver : option string)
    (var : string) : pnode :=
  PNode (pname nd) (pversion nd) (pvariant nd)
        (Obj.set (pdependencies nd) nm (PNode nm ver (Some var) [])).

(** [searchPath.shift()]; the value [undefined] of an exhausted path, used
    as a property key, is the string of that name. *)
Definition shiftKey (searchPath : list string) : string :=
  match searchPath with
  | [] => "undefined"
  | part :: _ => part
  end.

(** [found.variant === variant] (line 429). *)
Definition optEqbVariant (a : option string) (b : string) : bool :=
  match a with
  | Some x => String.eqb x b
  | None => false
  end.

(** The loop of [add] (lines 415-448) from the placement node [nd]: the
    node as the loop leaves it, and the value returned. *)
Fixpoint addAt (nm : string) (ver : option string) (var : string)
    (nd : pnode) (searchPath : list string) {struct nd} : pnode * bool :=
  match nd with
  | PNode n v vr deps =>
      match Obj.get deps nm with
      | Some found =>
          if optEqbVariant (pvariant found) var then (nd, false)
          else
            let part := shiftKey searchPath in
            match
              (fix descend (l : list (string * pnode))
                 : option (list (string * pnode) * bool) :=
                 match l with
                 | [] => None
                 | (k, c) :: r =>
                     if String.eqb k part then
                       let '(c', b) := addAt nm ver var c (List.tl searchPath) in
                       Some ((k, c') :: r, b)
                     else
                       match descend r with
                       | Some (r', b) => Some ((k, c) :: r', b)
                       | None => None
                       end
                 end) deps
            with
            | Some (deps', b) => (PNode n v vr deps', b)
            | None => (insert nd nm ver var, true)
            end
      | None => (insert nd nm ver var, true)
      end
  end.

(** The placement node reached from [t] by the keys of [path]. *)
Fixpoint pnodeAt (t : pnode) (path : list string) : option pnode :=
  match path with
  | [] => Some t
  | k :: r =>
      match Obj.get (pdependencies t) k with
      | Some c => pnodeAt c r
      | None => None
      end
  end.

(** The variants placed anywhere below a placement node. *)
Fixpoint placedVariants (t : pnode) : list (option string) :=
  match t with
  | PNode _ _ _ deps =>
      (fix each (l : list (string * pnode)) : list (option string) :=
         match l with
         | [] => []
         | (_, c) :: r => pvariant c :: placedVariants c ++ each r
         end) deps
  end.

(** [add] (lines 397-449) on the placement tree [flatTree]. *)
Definition add (path : string) (var : string) (flatTree : pnode) : pnode :=
  let searchPath := Str.split bar path in
  let spec := Str.split bar var in
  fst (addAt (List.nth 0 spec "") (List.nth_error spec 1) var flatTree searchPath).

(** [hoistOne] (lines 451-455). *)
Definition hoistOne (m : module) (flatTree : pnode) : pnode :=
  List.fold_left (fun t path => add path (variant m) t) (paths m) flatTree.

(** [compare] (lines 458-497): depth, then number of paths (more first),
    then the first path with the name appended. *)
Definition sortKey (m : module) : string :=
  Str.join bar (Str.split bar (List.nth 0 (paths m) "") ++ [mname m]).

Definition compare (a b : module) : comparison :=
  match Nat.compare (depth a) (depth b) with
  | Eq =>
      match Nat.compare (List.length (paths b)) (List.length (paths a)) with
      | Eq => String.compare (sortKey a) (sortKey b)
      | c => c
      end
  | c => c
  end.

(** [modules.sort(compare)] (line 499): a stable sort. *)
Fixpoint insertSorted (m : module) (l : list module) : list module :=
  match l with
  | [] => [m]
  | x :: r =>
      match compare m x with
      | Lt => m :: x :: r
      | _ => x :: insertSorted m r
      end
  end.

Definition sortModules (l : list module) : list module :=
  List.fold_left (fun acc m => insertSorted m acc) l [].

(** [hoist] (lines 502-512) and [flattenTree] (lines 364-520). *)
Definition hoist (tree : node) (modules : list module) : pnode :=
  List.fold_left (fun t m => hoistOne m t) (sortModules modules)
                 (PNode (name tree) (Some (version tree)) None []).

Definition modulesOf (index : Obj.t module) : list module :=
  List.map snd index.

Definition flattenTree (tree : node) : result pnode :=
  index <- buildIndexes tree [] [] ;;
  Ok (hoist tree (modulesOf index)).

End Hoist.

(** ** The assembler: [buildLockFile] (lines 523-551) and [relock]

    The object built at line 542 is kept in the order in which its
    properties are added, which is the order JS lists them in for the names
    that are [Plain.ordinary]. *)

Module Assemble.
Import Hoist.

(** [keys.sort()] (line 534): the default order on strings. *)
Fixpoint insertKey {A} (k : string) (a : A) (l : list (string * A))
  : list (string * A) :=
  match l with
  | [] => [(k, a)]
  | (k', a') :: r =>
      match String.compare k k' with
      | Lt => (k, a) :: (k', a') :: r
      | _ => (k', a') :: insertKey k a r
      end
  end.

Definition sortByKey {A} (l : list (string * A)) : list (string * A) :=
  List.fold_left (fun acc p => insertKey (fst p) (snd p) acc) l [].

(** The string that [name + '@' + version] builds. *)
Definition tagOf (nm : string) (ver : option string) : string :=
  (nm ++ "@" ++ match ver with Some v => v | None => "undefined" end)%string.

Section Assembler.

Variable versions : Obj.t lockEntry.

(** The callback of lines 535-544 for one dependency, its own dependencies
    already assembled: [JSON.parse(JSON.stringify(content))] throws a
    SyntaxError when the store has no record under the key. *)
Definition assembleOne (dependency : pnode)
    (below : result (Obj.t lockEntry))
    (dependencies : Obj.t lockEntry) : result (Obj.t lockEntry) :=
  match Obj.get versions (tagOf (pname dependency) (pversion dependency)) with
  | None => Throw SyntaxError
  | Some content =>
      sub <- below ;;
      Ok (Obj.set dependencies (pname dependency)
            (LockEntry (lname content) (lversion content) (lrequires content)
                       sub))
  end.

Fixpoint sequence (l : list (string * (Obj.t lockEntry -> result (Obj.t lockEntry))))
    (acc : Obj.t lockEntry) : result (Obj.t lockEntry) :=
  match l with
  | [] => Ok acc
  | (_, step) :: r => acc' <- step acc ;; sequence r acc'
  end.

(** [one] (lines 531-547): the properties of [flatNode.dependencies] are
    visited in sorted key order. *)
Fixpoint one (flatNode : pnode) : result (Obj.t lockEntry) :=
  match flatNode with
  | PNode _ _ _ deps =>
      sequence
        (sortByKey
           ((fix each (seen : list string) (l : list (string * pnode))
               : list (string * (Obj.t lockEntry -> result (Obj.t lockEntry))) :=
               match l with
               | [] => []
               | (key, dependency) :: r =>
                   if Str.mem key seen then each seen r
                   else (key, assembleOne dependency (one dependency))
                          :: each (key :: seen) r
               end) [] deps))
        []
  end.

(** [buildLockFile] (lines 523-551); [lockfileVersion] and the flag
    [requires: true] are constants of the output and are not kept. *)
Definition buildLockFile (tree : pnode) (rootName rootVersion : string)
  : result lockEntry :=
  dependencies <- one tree ;;
  Ok (LockEntry rootName rootVersion [] dependencies).

End Assembler.

(** [relock] (lines 555-565). *)
Definition relock (projectFiles : list string)
    (regexFound : string -> string -> bool)
    (loopFuel fuel : nat) (previous current : lockEntry) (g : globals)
  : result (lockEntry * globals) :=
  r1 <- Builder.generateDependencyTree previous loopFuel fuel g ;;
  let '(prevTree, g1) := r1 in
  r2 <- Builder.generateDependencyTree current loopFuel fuel g1 ;;
  let '(curTree, g2) := r2 in
  mixed <- Relock.relockTree projectFiles regexFound prevTree curTree ;;
  match mixed with
  | None => Throw TypeError
  | Some relockedTree =>
      finalTree <- flattenTree relockedTree ;;
      out <- buildLockFile (versions g2) finalTree (lname current)
               (lversion current) ;;
      Ok (out, g2)
  end.

End Assemble.

(** ** Names, versions and the records of the store *)

Module Records.
Import Hoist Assemble.

Definition noBar (s : string) : bool := negb (Str.contains bar s).

(** No version and no required name of the lock file holds a bar, the
    character that separates the parts of lock-paths and of variants. *)
Fixpoint barFree (e : lockEntry) : bool :=
  match e with
  | LockEntry _ v rq deps =>
      noBar v
      && forallb (fun kv : string * string => noBar (fst kv)) rq
      && (fix all (l : list (string * lockEntry)) : bool :=
            match l with
            | [] => true
            | (_, d) :: r => barFree d && all r
            end) deps
  end.

Definition isSome {A} (o : option A) : bool :=
  match o with
  | Some _ => true
  | None => false
  end.

(** A node of a dependency tree whose name and version hold no bar and have
    a record in the store, and the same for every node below it. *)
Fixpoint recorded (store : Obj.t lockEntry) (n : node) : bool :=
  match n with
  | Node nm v _ _ _ _ ds =>
      isSome (Obj.get store (nm ++ "@" ++ v)%string)
      && noBar nm && noBar v
      && (fix all (l : list (option node)) : bool :=
            match l with
            | [] => true
            | Some c :: r => recorded store c && all r
            | None :: r => all r
            end) ds
  end.

Fixpoint allRecorded (store : Obj.t lockEntry) (ds : list (option node))
  : bool :=
  match ds with
  | [] => true
  | Some c :: r => recorded store c && allRecorded store r
  | None :: r => allRecorded store r
  end.

(** Every dependency entry of a placement tree has its record in the
    store, under the key that [buildLockFile] computes for it. *)
Fixpoint placedRecorded (store : Obj.t lockEntry) (t : pnode) : bool :=
  match t with
  | PNode _ _ _ deps =>
      (fix each (l : list (string * pnode)) : bool :=
         match l with
         | [] => true
         | (_, c) :: r =>
             isSome (Obj.get store (tagOf (pname c) (pversion c)))
             && placedRecorded store c && each r
         end) deps
  end.

End Records.

(** ** Lock files used to exercise the model *)

Module Examples.

Definition entry (v : string) (rq : Obj.t string)
    (ds : list (string * lockEntry)) : lockEntry :=
  LockEntry "" v rq ds.

(** Fuel enough for every lock file of this section. *)
Definition fuel : nat := 16.

Definition build (root : lockEntry) (g : globals) : result (node * globals) :=
  Builder.generateDependencyTree root fuel fuel g.

Definition treeOr (dflt : node) (r : result (node * globals)) : node :=
  match r with
  | Ok (t, _) => t
  | _ => dflt
  end.

Definition noTree : node := Node "" "" None None [] "" [].

Definition tree (root : lockEntry) : node := treeOr noTree (build root noGlobals).

Definition noRegex (pattern s : string) : bool := false.

(** The end-to-end example: [a] keeps its range, [b] is new. *)
Definition prevLock : lockEntry :=
  LockEntry "app" "1.0.0" [("a", "^1.0.0")]
    [("a", entry "1.0.3" [("c", "^2.0.0")] []);
     ("c", entry "2.0.1" [] [])].

Definition curLock : lockEntry :=
  LockEntry "app" "1.0.0" [("a", "^1.0.0"); ("b", "^1.0.0")]
    [("a", entry "1.0.4" [("c", "^2.0.0")] []);
     ("b", entry "1.0.0" [] []);
     ("c", entry "2.0.2" [] [])].

Definition prevTree : node := Eval vm_compute in tree prevLock.
Definition curTree : node := Eval vm_compute in tree curLock.

Definition mixedOr (r : result (option node)) : node :=
  match r with
  | Ok (Some t) => t
  | _ => noTree
  end.

Definition mixedTree : node :=
  Eval vm_compute in mixedOr (Relock.relockTree [] noRegex prevTree curTree).

(** The same empty range on both sides. *)
Definition prevEmptyRange : node :=
  Eval vm_compute in
    tree (LockEntry "app" "1.0.0" [("x", "")] [("x", entry "1.0.0" [] [])]).

Definition curEmptyRange : node :=
  Eval vm_compute in
    tree (LockEntry "app" "1.0.0" [("x", "")] [("x", entry "1.0.1" [] [])]).

(** A patch-level change of the range of [x]. *)
Definition prevPatch : node :=
  Eval vm_compute in
    tree (LockEntry "app" "1.0.0" [("x", "^1.2.0")]
            [("x", entry "1.2.3" [("y", "^1.0.0")] []);
             ("y", entry "1.0.0" [] [])]).

Definition curPatch : node :=
  Eval vm_compute in
    tree (LockEntry "app" "1.0.0" [("x", "^1.2.5")]
            [("x", entry "1.2.5" [("y", "^1.0.0")] []);
             ("y", entry "1.0.1" [] [])]).

Definition mixedPatch : node :=
  Eval vm_compute in mixedOr (Relock.relockTree [] noRegex prevPatch curPatch).

(** A minor change of the range of [x]. *)
Definition curMinor : node :=
  Eval vm_compute in
    tree (LockEntry "app" "1.0.0" [("x", "^1.3.0")]
            [("x", entry "1.3.1" [("y", "^1.0.0")] []);
             ("y", entry "1.0.1" [] [])]).

Definition mixedMinor : node :=
  Eval vm_compute in mixedOr (Relock.relockTree [] noRegex prevPatch curMinor).

(** A project module, [lib-core], matched by the pattern [lib-]. *)
Definition projectFiles : list string := ["lib-"].

Definition prevProject : node :=
  Eval vm_compute in
    tree (LockEntry "app" "1.0.0" [("lib-core", "^1.0.0")]
            [("lib-core", entry "1.0.0" [("c", "^2.0.0")] []);
             ("c", entry "2.0.1" [] [])]).

(** ... its range unchanged, *)
Definition curProjectSame : node :=
  Eval vm_compute in
    tree (LockEntry "app" "1.0.0" [("lib-core", "^1.0.0")]
            [("lib-core", entry "1.0.1" [("c", "^2.0.0")] []);
             ("c", entry "2.0.2" [] [])]).

Definition mixedProjectSame : node :=
  Eval vm_compute in
    mixedOr (Relock.relockTree projectFiles Str.includes
               prevProject curProjectSame).

(** ... and its range moved to the next major version. *)
Definition curProjectMajor : node :=
  Eval vm_compute in
    tree (LockEntry "app" "1.0.0" [("lib-core", "^2.0.0")]
            [("lib-core", entry "2.0.0" [("c", "^2.0.0")] []);
             ("c", entry "2.0.2" [] [])]).

Definition mixedProjectMajor : node :=
  Eval vm_compute in
    mixedOr (Relock.relockTree projectFiles Str.includes
               prevProject curProjectMajor).

(** A requirement with no entry in the lock file. *)
Definition missingLock : lockEntry :=
  LockEntry "app" "1.0.0" [("x", "^1.0.0")] [].

(** Two packages that require each other. *)
Definition cyclicLock : lockEntry :=
  LockEntry "app" "1.0.0" [("a", "^1.0.0")]
    [("a", entry "1.0.0" [("b", "^1.0.0")] []);
     ("b", entry "1.0.0" [("a", "^1.0.0")] [])].

(** A nested package that requires the empty name. *)
Definition emptyNameLock : lockEntry :=
  LockEntry "app" "1.0.0" [("a", "^1.0.0")]
    [("a", entry "1.0.0" [("", "^1.0.0")] [])].

(** Three versions of [m]: at the root, under [a], and under [b], which
    [a] requires. *)
Definition threeVersionsLock : lockEntry :=
  LockEntry "app" "1.0.0" [("a", "^1.0.0"); ("m", "^1.0.0")]
    [("a", entry "1.0.0" [("b", "^1.0.0"); ("m", "^2.0.0")]
             [("m", entry "2.0.0" [] [])]);
     ("b", entry "1.0.0" [("m", "^3.0.0")] [("m", entry "3.0.0" [] [])]);
     ("m", entry "1.0.0" [] [])].

Definition threeVersionsTree : node := Eval vm_compute in tree threeVersionsLock.

(** The signature of a leaf: the digest of the empty array. *)
Definition leafSignature : string := "d751713988987e9331980363e24189ce".

Definition variantM (v : string) : string :=
  ("m|" ++ v ++ "|" ++ leafSignature)%string.

Definition threeVersionsModules : list Hoist.module :=
  Eval vm_compute in
    match Hoist.buildIndexes threeVersionsTree [] [] with
    | Ok index => Hoist.sortModules (Hoist.modulesOf index)
    | _ => []
    end.

(** The placement tree once [a], [m] 1.0.0, [b] and [m] 2.0.0 are placed. *)
Definition placedBefore : Hoist.pnode :=
  Eval vm_compute in
    List.fold_left (fun t m => Hoist.hoistOne m t)
      (List.firstn 4 threeVersionsModules)
      (Hoist.PNode "" (Some "1.0.0") None []).

(** Two roots of the same version that resolve [x] alike from two ranges. *)
Definition rangeOneTree : node :=
  Eval vm_compute in
    tree (LockEntry "app" "1.0.0" [("x", "^1.2.0")]
            [("x", entry "1.2.3" [] [])]).


(** A package whose name holds the separator of lock-paths. *)
Definition barNameLock : lockEntry :=
  LockEntry "app" "1.0.0" [("a|b", "^1.0.0")]
    [("a|b", entry "1.0.0" [] [])].

Definition globalsAfter (r : result (node * globals)) : globals :=
  match r with
  | Ok (_, g) => g
  | _ => noGlobals
  end.

(** The globals that the build of the previous lock file leaves, and those
    that the build of the current one adds to them. *)
Definition afterPrev : globals :=
  Eval vm_compute in globalsAfter (build prevLock noGlobals).

Definition afterBoth : globals :=
  Eval vm_compute in globalsAfter (build curLock afterPrev).

Definition placementOr (r : result Hoist.pnode) : Hoist.pnode :=
  match r with
  | Ok t => t
  | _ => Hoist.PNode "" None None []
  end.

Definition finalTree : Hoist.pnode :=
  Eval vm_compute in placementOr (Hoist.flattenTree mixedTree).

(** The previous resolution of [a], the only dependency of [prevTree]. *)
Definition prevA : node :=
  Eval vm_compute in
    match dependencies prevTree with
    | Some d :: _ => d
    | _ => noTree
    end.

(** The current resolution of [x], the only dependency of [curMinor]. *)
Definition curMinorX : node :=
  Eval vm_compute in
    match dependencies curMinor with
    | Some d :: _ => d
    | _ => noTree
    end.

(** A package named after a member of [Object.prototype]: the range of [a]
    moved by a patch, and the current [a] requires [constructor], which the
    previous [a] did not; its entry is nested under [a]. *)
Definition prevInheritedLock : lockEntry :=
  LockEntry "app" "1.0.0" [("a", "^1.0.0")]
    [("a", entry "1.0.0" [("b", "^1.0.0")] []);
     ("b", entry "1.0.0" [] [])].

Definition curInheritedLock : lockEntry :=
  LockEntry "app" "1.0.0" [("a", "^1.0.1")]
    [("a", entry "1.0.1" [("b", "^1.0.0"); ("constructor", "^1.0.0")]
             [("constructor", entry "1.0.0" [] [])]);
     ("b", entry "1.0.0" [] [])].

Definition prevInherited : node := Eval vm_compute in tree prevInheritedLock.
Definition curInherited : node := Eval vm_compute in tree curInheritedLock.


(** A package that requires itself: the inner [x] is cut as a circular
    reference and has no dependency, as the leaf [x] of [leafTree]. *)
Definition selfRequiringTree : node :=
  Eval vm_compute in
    tree (LockEntry "app" "1.0.0" [("x", "^1.0.0")]
            [("x", entry "1.0.0" [("x", "^1.0.0")] [])]).

Definition leafTree : node :=
  Eval vm_compute in
    tree (LockEntry "app" "1.0.0" [("x", "^1.0.0")]
            [("x", entry "1.0.0" [] [])]).

Definition belowFirst (t : node) : list (option node) :=
  match dependencies t with
  | Some d :: _ => dependencies d
  | _ => []
  end.

End Examples.

(** ** Entries of a lock file by their keys *)

Module Lookup.

(** The entry reached from [e] through the dependencies named by [ks], when
    every one of them is there. *)
Fixpoint entryAt (e : lockEntry) (ks : list string) : option lockEntry :=
  match ks with
  | [] => Some e
  | k :: r =>
      match Obj.get (ldependencies e) k with
      | Some d => entryAt d r
      | None => None
      end
  end.

(** [r] is the lock-path of [name] under the longest prefix of [path] that
    has one, or the empty string when no prefix has one. *)
Definition nearest (root : lockEntry) (path : list string) (name r : string)
  : Prop :=
  (exists n, n <= List.length path /\
             r = Str.join bar (firstn n path ++ [name]) /\
             In r (Builder.lockPaths root) /\
             forall m, n < m -> m <= List.length path ->
                       ~ In (Str.join bar (firstn m path ++ [name]))
                            (Builder.lockPaths root))
  \/ (r = "" /\
      forall m, m <= List.length path ->
                ~ In (Str.join bar (firstn m path ++ [name]))
                     (Builder.lockPaths root)).

End Lookup.

(** ** More inputs used to exercise the model *)

Module MoreExamples.
Import Examples.

(** The expansion of [a] in the cyclic lock file, started below the root. *)
Definition cyclicStart : Builder.state := Builder.St [""] [] noGlobals.

Definition cyclicRun : list (option node) * Builder.state :=
  Eval vm_compute in
    match Builder.one cyclicLock 2 3 ["a"] cyclicStart with
    | Ok x => x
    | _ => ([], cyclicStart)
    end.

(** The lock file written for the end-to-end example, and the package
    placed under [a]. *)
Definition finalLock : lockEntry :=
  Eval vm_compute in
    match Assemble.buildLockFile (versions afterBoth) finalTree
            (lname curLock) (lversion curLock) with
    | Ok out => out
    | _ => LockEntry "" "" [] []
    end.

Definition placedA : Hoist.pnode :=
  Eval vm_compute in
    match Hoist.pnodeAt finalTree ["a"] with
    | Some c => c
    | None => Hoist.PNode "" None None []
    end.

End MoreExamples.

(** ** The shape of the nodes of a dependency tree (lines 88-95) *)

Module Shape.

Fixpoint namesAre (ds : list (option node)) (ks : list string) : bool :=
  match ds, ks with
  | [], [] => true
  | Some d :: r, k :: ks' => String.eqb (name d) k && namesAre r ks'
  | _, _ => false
  end.

(** A dependency array that goes with a requires object: one node per key,
    in the order of the keys and named by them, or no node at all (what a
    circular reference leaves). *)
Definition fits (rq : Obj.t string) (ds : list (option node)) : bool :=
  match ds with
  | [] => true
  | _ => namesAre ds (Obj.keys rq)
  end.

(** Every node below [n], and [n] itself, has dependencies that fit its
    requires. *)
Fixpoint shaped (n : node) : bool :=
  match n with
  | Node _ _ _ _ rq _ ds =>
      fits rq ds
      && (fix all (l : list (option node)) : bool :=
            match l with
            | [] => true
            | Some c :: r => shaped c && all r
            | None :: r => false
            end) ds
  end.

Fixpoint allShaped (ds : list (option node)) : bool :=
  match ds with
  | [] => true
  | Some c :: r => shaped c && allShaped r
  | None :: r => false
  end.

(** A node built by the callback of lines 189-228: its signature is the one
    of its dependencies, its tag is its name and version, it has a range,
    and the same holds below it. *)
Fixpoint signed (n : node) : bool :=
  match n with
  | Node nm v sv tg _ sg ds =>
      String.eqb sg (getTreeSignature ds)
      && sameOpt tg (Some (nm ++ "@" ++ v)%string)
      && match sv with Some _ => true | None => false end
      && (fix all (l : list (option node)) : bool :=
            match l with
            | [] => true
            | Some c :: r => signed c && all r
            | None :: r => false
            end) ds
  end.

Fixpoint allSigned (ds : list (option node)) : bool :=
  match ds with
  | [] => true
  | Some c :: r => signed c && allSigned r
  | None :: r => false
  end.

(** Every element of a dependency array is a node that carries, as its
    range, what the requires object [rq] holds under its name. *)
Definition rangedBy (rq : Obj.t string) (ds : list (option node)) : bool :=
  forallb (fun e : option node =>
             match e with
             | Some c =>
                 match semVer c with
                 | Some _ => sameOpt (semVer c) (Obj.get rq (name c))
                 | None => false
                 end
             | None => false
             end) ds.

(** Every node below [n] carries the range that the node above it requires
    it with. *)
Fixpoint ranged (n : node) : bool :=
  match n with
  | Node _ _ _ _ rq _ ds =>
      rangedBy rq ds
      && (fix all (l : list (option node)) : bool :=
            match l with
            | [] => true
            | Some c :: r => ranged c && all r
            | None :: r => false
            end) ds
  end.

Fixpoint allRanged (ds : list (option node)) : bool :=
  match ds with
  | [] => true
  | Some c :: r => ranged c && allRanged r
  | None :: r => false
  end.

(** No element of a dependency array of the tree is [undefined]. *)
Fixpoint defined (n : node) : bool :=
  match n with
  | Node _ _ _ _ _ _ ds =>
      (fix all (l : list (option node)) : bool :=
         match l with
         | [] => true
         | Some c :: r => defined c && all r
         | None :: r => false
         end) ds
  end.

Fixpoint allDefined (ds : list (option node)) : bool :=
  match ds with
  | [] => true
  | Some c :: r => defined c && allDefined r
  | None :: r => false
  end.

(** One element per key, each a node named by its key or [undefined]. *)
Fixpoint namedOrUndefined (ds : list (option node)) (ks : list string)
  : bool :=
  match ds, ks with
  | [], [] => true
  | Some d :: r, k :: ks' => String.eqb (name d) k && namedOrUndefined r ks'
  | None :: r, _ :: ks' => namedOrUndefined r ks'
  | _, _ => false
  end.

(** A tree that [relockTree] can walk against itself: wherever the walk
    goes down (the root, and below a walked node every project module), the
    dependencies are the nodes of the required names, in their order. *)
Fixpoint walkable (projectFiles : list string)
    (regexFound : string -> string -> bool) (n : node) : bool :=
  match n with
  | Node _ _ _ _ rq _ ds =>
      namesAre ds (Obj.keys rq)
      && (fix all (l : list (option node)) : bool :=
            match l with
            | [] => true
            | Some c :: r =>
                (if isProjectModule projectFiles regexFound (name c)
                 then walkable projectFiles regexFound c else true)
                && all r
            | None :: r => false
            end) ds
  end.

End Shape.

(** ** Ranges written as a qualifier and dotted components *)

Module Versions.

(** No qualifier, a tilde or a caret. *)
Definition qualifier (q : string) : bool :=
  String.eqb q "" || String.eqb q "~" || String.eqb q "^".

(** A component of a version: no dot, no tilde, no caret in it. *)
Definition component (p : string) : bool :=
  negb (Str.contains "."%char p) && negb (Str.contains "~"%char p)
  && negb (Str.contains "^"%char p).

(** The range [q] followed by the components joined by dots. *)
Definition range (q : string) (parts : list string) : string :=
  (q ++ Str.join "."%char parts)%string.

End Versions.

(** ** The order in which modules are hoisted (lines 457-500) *)

Module HoistOrder.

(** [a] is hoisted no later than [b] as far as depth and use decide: it is
    shallower, or as deep and on at least as many paths. *)
Definition before (a b : Hoist.module) : Prop :=
  Hoist.depth a < Hoist.depth b
  \/ (Hoist.depth a = Hoist.depth b
      /\ List.length (Hoist.paths b) <= List.length (Hoist.paths a)).

End HoistOrder.

(** ** Occurrences of modules in a dependency tree *)

Module Occurs.

(** The node at the position [loc] below [nd], with the names on the way to
    it, its own last, after the names of [path]. *)
Fixpoint occursAt (nd : node) (path : list string) (loc : list nat)
  : option (list string * node) :=
  match loc with
  | [] => None
  | i :: r =>
      match nth_error (dependencies nd) i with
      | Some (Some c) =>
          match r with
          | [] => Some (path ++ [name c], c)
          | _ => occursAt c (path ++ [name c]) r
          end
      | _ => None
      end
  end.

(** The index has the variant of [d], with the path of names [names] among
    its paths and a depth no larger than the depth of that occurrence. *)
Definition indexed (index : Obj.t Hoist.module) (names : list string)
    (d : node) : Prop :=
  exists m, Obj.get index (Hoist.variantOf d) = Some m /\
            In (Str.join bar names) (Hoist.paths m) /\
            S (Hoist.depth m) <= List.length names.

End Occurs.

(** ** The form of a signature *)

Module SignatureFormat.

Definition isHexDigit (c : ascii) : bool :=
  Str.contains c "0123456789abcdef".

Fixpoint allHex (s : string) : bool :=
  match s with
  | EmptyString => true
  | String c r => isHexDigit c && allHex r
  end.

End SignatureFormat.

(** ** Placement trees as [buildLockFile] reads them *)

Module Placed.
Import Hoist Assemble.

(** Every dependency of the placement tree sits under its own name. *)
Fixpoint ownNames (t : pnode) : bool :=
  match t with
  | PNode _ _ _ deps =>
      (fix each (l : list (string * pnode)) : bool :=
         match l with
         | [] => true
         | (k, c) :: r => String.eqb (pname c) k && ownNames c && each r
         end) deps
  end.

(** Every dependency that [Object.keys] lists, at any depth, has its record
    in the store under the key that [buildLockFile] computes for it. *)
Fixpoint listedRecorded (store : Obj.t lockEntry) (t : pnode) : bool :=
  match t with
  | PNode _ _ _ deps =>
      (fix each (seen : list string) (l : list (string * pnode)) : bool :=
         match l with
         | [] => true
         | (k, c) :: r =>
             if Str.mem k seen then each seen r
             else
               match Obj.get store (tagOf (pname c) (pversion c)) with
               | Some _ => true
               | None => false
               end
               && listedRecorded store c && each (k :: seen) r
         end) [] deps
  end.

End Placed.

(** ** The configuration and the manifest (lines 9-21, 576, 608, 613) *)

Module Config.

(** [Object.assign(target, source)]: the own properties of the source, in
    their order, are set on the target.  A new property goes behind the
    others, as JS has it for the names that are [Plain.ordinary]. *)
Definition assign {V} (target source : Obj.t V) : Obj.t V :=
  List.fold_left
    (fun t k => match Obj.get source k with
                | Some v => Obj.set t k v
                | None => t
                end)
    (Obj.keys source) target.

(** A source that may be [undefined]: [Object.assign] skips it. *)
Definition assignOpt {V} (target : Obj.t V) (source : option (Obj.t V))
  : Obj.t V :=
  match source with
  | Some s => assign target s
  | None => target
  end.

Definition getOpt {V} (o : option (Obj.t V)) (k : string) : option V :=
  match o with
  | Some s => Obj.get s k
  | None => None
  end.

Definition keysOpt {V} (o : option (Obj.t V)) : list string :=
  match o with
  | Some s => Obj.keys s
  | None => []
  end.

(** The values of the settings: strings, lists of patterns, flags, and any
    other value a configuration file may hold, kept as its text. *)
Inductive value : Type :=
| VString (s : string)
| VStrings (l : list string)
| VBool (b : bool)
| VOther (text : string).

(** The object literal of lines 12-20. *)
Definition defaults : Obj.t value :=
  [("relockedFilename", VString "package.relocked.json");
   ("packageFilename", VString "package.json");
   ("packageLockedFilename", VString "package-lock.json");
   ("outputRelockedFilename", VString "package.relocked.json");
   ("outputLockedFilename", VString "package.relocked.json");
   ("projectFiles", VStrings []);
   ("verbose", VBool false)].

(** [assignConfig] (lines 11-21) on the global [config]; [loaded] is the
    object that [JSON.parse] gives for the configuration file. *)
Definition assignConfig (config loaded : Obj.t value) : Obj.t value :=
  assign (assign config defaults) loaded.

(** What [main] and [handleFirstTime] read of [package.json]. *)
Record manifest : Type :=
  Manifest {
    mdependencies : option (Obj.t string);
    mdevDependencies : option (Obj.t string)
  }.

(** The requires given to the current lock file at lines 576 and 608:
    [Object.assign({}, curPackage.dependencies, curPackage.devDependencies)]. *)
Definition mergedRequires (curPackage : manifest) : Obj.t string :=
  assignOpt (assignOpt [] (mdependencies curPackage))
            (mdevDependencies curPackage).

(** The lock file that [relock] reads as the current one (line 608), which
    is also the one [handleFirstTime] saves (lines 576-578). *)
Definition currentLock (curPackage : manifest) (curLock : lockEntry)
  : lockEntry :=
  LockEntry (lname curLock) (lversion curLock) (mergedRequires curPackage)
            (ldependencies curLock).

(** The requires of the relocked file saved at lines 613-614:
    [final.requires = curPackage.dependencies]. *)
Definition relockedRequires (curPackage : manifest) : option (Obj.t string) :=
  mdependencies curPackage.

(** The relocked file as the next run reads it: the lock file [final] with
    the requires of line 613.  A manifest without dependencies leaves the
    file without requires; the lock files of this development always have
    a requires object, so the empty one stands for it. *)
Definition relockedFile (curPackage : manifest) (final : lockEntry)
  : lockEntry :=
  LockEntry (lname final) (lversion final)
            (match relockedRequires curPackage with
             | Some rq => rq
             | None => []
             end)
            (ldependencies final).

End Config.

(** A manifest with one dependency and one development dependency, and two
    runs over it: the tool [t] moves from 1.0.0 to 1.0.1 within its range. *)
Module ConfigExamples.
Import Examples Config.

Definition package : manifest :=
  Manifest (Some [("a", "^1.0.0")]) (Some [("t", "^1.0.0")]).

Definition earlierFinal : lockEntry :=
  LockEntry "app" "1.0.0" []
    [("a", entry "1.0.0" [] []); ("t", entry "1.0.0" [] [])].

Definition laterLock : lockEntry :=
  LockEntry "app" "1.0.0" []
    [("a", entry "1.0.0" [] []); ("t", entry "1.0.1" [] [])].

Definition earlierTree : node :=
  Eval vm_compute in tree (relockedFile package earlierFinal).

Definition afterEarlier : globals :=
  Eval vm_compute in
    globalsAfter (build (relockedFile package earlierFinal) noGlobals).

Definition laterTree : node :=
  Eval vm_compute in
    treeOr noTree (build (currentLock package laterLock) afterEarlier).

Definition afterLater : globals :=
  Eval vm_compute in
    globalsAfter (build (currentLock package laterLock) afterEarlier).

Definition laterMixed : node :=
  Eval vm_compute in
    mixedOr (Relock.relockTree [] noRegex earlierTree laterTree).

(** The same two runs when the earlier one was the first: the file that
    [handleFirstTime] saves requires the development dependencies too. *)
Definition firstTree : node :=
  Eval vm_compute in tree (currentLock package earlierFinal).

Definition afterFirst : globals :=
  Eval vm_compute in
    globalsAfter (build (currentLock package earlierFinal) noGlobals).

Definition laterAfterFirst : node :=
  Eval vm_compute in
    treeOr noTree (build (currentLock package laterLock) afterFirst).

Definition mixedAfterFirst : node :=
  Eval vm_compute in
    mixedOr (Relock.relockTree [] noRegex firstTree laterAfterFirst).

End ConfigExamples.

(** The index of the tree with three versions of [m], and the first
    dependency of [a] in that tree. *)
Module IndexExamples.
Import Examples.

Definition threeIndex : Obj.t Hoist.module :=
  Eval vm_compute in
    match Hoist.buildIndexes threeVersionsTree [] [] with
    | Ok index => index
    | _ => []
    end.

Definition firstBelowA : list string * node :=
  Eval vm_compute in
    match Occurs.occursAt threeVersionsTree [] [0; 0] with
    | Some x => x
    | None => ([], noTree)
    end.

End IndexExamples.

(** * Properties *)

(** ** Strings *)

Module StrFacts.

Lemma split_nonempty sep s : Str.split sep s <> [].
Proof.
  destruct s as [|c r]; simpl; [discriminate|].
  destruct (Ascii.eqb c sep); [discriminate|].
  destruct (Str.split sep r); discriminate.
Qed.

Lemma join_cons_char sep c x xs :
  Str.join sep (String c x :: xs) = String c (Str.join sep (x :: xs)).
Proof. destruct xs; reflexivity. Qed.

(** Joining the pieces of a string gives the string back. *)
Lemma join_split sep s : Str.join sep (Str.split sep s) = s.
Proof.
  induction s as [|c r IH]; simpl; [reflexivity|].
  destruct (Ascii.eqb c sep) eqn:E.
  - apply Ascii.eqb_eq in E. subst c.
    pose proof (split_nonempty sep r) as Hne.
    destruct (Str.split sep r) as [|x xs]; [contradiction|].
    change (Str.join sep (EmptyString :: x :: xs))
      with (String sep (Str.join sep (x :: xs))).
    now rewrite IH.
  - pose proof (split_nonempty sep r) as Hne.
    destruct (Str.split sep r) as [|x xs]; [contradiction|].
    now rewrite join_cons_char, IH.
Qed.

Lemma split_length sep s :
  List.length (Str.split sep s) <= S (String.length s).
Proof.
  induction s as [|c r IH]; simpl; [lia|].
  destruct (Ascii.eqb c sep); simpl; [lia|].
  destruct (Str.split sep r); simpl in *; lia.
Qed.

Lemma append_empty a b : (a ++ b)%string = EmptyString -> a = EmptyString /\ b = EmptyString.
Proof. destruct a; simpl; [auto | discriminate]. Qed.

(** A joined path is empty only if it is the single empty name. *)
Lemma join_snoc_empty sep l x :
  Str.join sep (l ++ [x]) = EmptyString -> l = [] /\ x = EmptyString.
Proof.
  destruct l as [|y r]; simpl; [auto|].
  destruct (r ++ [x]) eqn:E.
  - now destruct r.
  - intros H. apply append_empty in H as [_ H]. discriminate.
Qed.

Lemma mem_In (x : string) (l : list string) : Str.mem x l = true <-> In x l.
Proof.
  induction l as [|y r IH]; simpl.
  - split; [discriminate | tauto].
  - rewrite orb_true_iff, IH, String.eqb_eq. tauto.
Qed.

End StrFacts.

(** ** Outcomes *)

Module ResultFacts.

(** Split a conjunction into its parts, and nothing else. *)
Ltac conjuncts := repeat match goal with |- _ /\ _ => split end.

Lemma bind_Ok {A B} (m : result A) (k : A -> result B) (b : B) :
  bind m k = Ok b -> exists a, m = Ok a /\ k a = Ok b.
Proof. destruct m; simpl; intros H; try discriminate. eauto. Qed.

Definition throws {A} (r : result A) : Prop := exists e, r = Throw e.

Lemma bind_throws {A B} (m : result A) (k : A -> result B) :
  throws (bind m k) -> throws m \/ exists a, m = Ok a /\ throws (k a).
Proof.
  destruct m; simpl; intros H.
  - right. eauto.
  - left. now exists e.
  - destruct H; discriminate.
Qed.

End ResultFacts.

(** ** Induction on dependency trees *)

Module NodeFacts.

Section NodeInduction.

Variable P : node -> Prop.

Hypothesis step :
  forall n v s t r g ds,
    Forall (fun o => match o with Some c => P c | None => True end) ds ->
    P (Node n v s t r g ds).

Fixpoint node_induction (a : node) : P a :=
  match a with
  | Node n v s t r g ds =>
      @step n v s t r g ds
        ((fix each (l : list (option node))
            : Forall (fun o => match o with Some c => P c | None => True end) l :=
            match l with
            | [] => @Forall_nil _ _
            | o :: r' =>
                @Forall_cons _ _ o r'
                  (match o as o'
                     return match o' with Some c => P c | None => True end
                   with
                   | Some c => node_induction c
                   | None => I
                   end) (each r')
            end) ds)
  end.

End NodeInduction.

End NodeFacts.

(** ** Objects *)

Module ObjFacts.

Lemma keysFrom_spec {V} (o : Obj.t V) :
  forall seen,
    NoDup (Obj.keysFrom seen o) /\
    (forall k, In k (Obj.keysFrom seen o) -> ~ In k seen).
Proof.
  induction o as [|[k v] r IH]; intros seen; simpl.
  - split; [constructor | tauto].
  - destruct (Str.mem k seen) eqn:E.
    + apply IH.
    + assert (Hk : ~ In k seen)
        by (intro H; apply StrFacts.mem_In in H; congruence).
      destruct (IH (k :: seen)) as [Hnd Hnot]. split.
      * constructor; [|exact Hnd].
        intro H. apply Hnot in H. apply H. now left.
      * intros k' [<-|H]; [exact Hk|].
        intro Hs. apply (Hnot k' H). now right.
Qed.

Lemma keys_NoDup {V} (o : Obj.t V) : NoDup (Obj.keys o).
Proof. apply (keysFrom_spec o []). Qed.

End ObjFacts.

(** ** The differ *)

Module RelockFacts.
Import Relock ResultFacts.


Lemma name_withDependencies n ds : name (withDependencies n ds) = name n.
Proof. reflexivity. Qed.

Lemma name_pushAt loc x t : name (pushAt loc x t) = name t.
Proof. destruct loc; reflexivity. Qed.

Lemma findFrom_ge ds : forall i k j d,
  findFrom i ds k = Ok (Some (j, d)) -> i <= j.
Proof.
  induction ds as [|[d0|] r IH]; simpl; intros i k j d H; try discriminate.
  destruct (String.eqb (name d0) k).
  - inversion H; subst; lia.
  - apply IH in H. lia.
Qed.

Lemma findFrom_name ds : forall i k j d,
  findFrom i ds k = Ok (Some (j, d)) -> name d = k.
Proof.
  induction ds as [|[d0|] r IH]; simpl; intros i k j d H; try discriminate.
  destruct (String.eqb (name d0) k) eqn:E.
  - inversion H; subst. now apply String.eqb_eq.
  - eauto.
Qed.

Lemma findFrom_nth ds : forall i k j d,
  findFrom i ds k = Ok (Some (j, d)) -> nth_error ds (j - i) = Some (Some d).
Proof.
  induction ds as [|[d0|] r IH]; simpl; intros i k j d H; try discriminate.
  destruct (String.eqb (name d0) k) eqn:E.
  - inversion H; subst. now rewrite Nat.sub_diag.
  - pose proof (findFrom_ge _ _ _ H) as Hge.
    apply IH in H. replace (j - i) with (S (j - S i)) by lia. exact H.
Qed.

(** Replacing the found element by one of the same name does not change
    what the search finds. *)
Lemma findFrom_updNth (f : node -> node) ds :
  (forall y, name (f y) = name y) ->
  forall i k j d,
    findFrom i ds k = Ok (Some (j, d)) ->
    findFrom i (updNth (j - i) (option_map f) ds) k = Ok (Some (j, f d)).
Proof.
  intros Hf. induction ds as [|[d0|] r IH]; simpl; intros i k j d H;
    try discriminate.
  destruct (String.eqb (name d0) k) eqn:E.
  - inversion H; subst. rewrite Nat.sub_diag. simpl. now rewrite Hf, E.
  - pose proof (findFrom_ge _ _ _ H) as Hge.
    replace (j - i) with (S (j - S i)) by lia. simpl. rewrite E. now apply IH.
Qed.

(** No element of a dependency array carries the name [k]. *)
Definition NoName (k : string) (ds : list (option node)) : Prop :=
  forall d, In (Some d) ds -> name d <> k.

(** Searching an array that has grown by one element of the name sought,
    where no earlier element had that name. *)
Lemma findFrom_push ds : forall i k x r,
  NoName k ds -> name x = k ->
  findFrom i (ds ++ [Some x]) k = Ok r ->
  r = Some (i + List.length ds, x).
Proof.
  induction ds as [|[d0|] r0 IH]; simpl; intros i k x r Hno Hx H.
  - rewrite Hx, String.eqb_refl in H. inversion H. now rewrite Nat.add_0_r.
  - destruct (String.eqb (name d0) k) eqn:E.
    + apply String.eqb_eq in E. exfalso. apply (Hno d0); [now left | exact E].
    + apply IH in H; auto.
      * subst. f_equal. f_equal. lia.
      * intros d Hd. apply Hno. now right.
  - discriminate.
Qed.

Lemma updNth_twice {A} (f g : A -> A) l : forall i,
  updNth i f (updNth i g l) = updNth i (fun a => f (g a)) l.
Proof.
  induction l as [|a r IH]; intros [|i]; simpl; try reflexivity.
  now rewrite IH.
Qed.

Lemma updNth_at {A} (f g : A -> A) l : forall i a,
  nth_error l i = Some a -> f a = g a -> updNth i f l = updNth i g l.
Proof.
  induction l as [|b r IH]; intros [|i] a H E; simpl in *; try discriminate.
  - inversion H; subst. now rewrite E.
  - f_equal. eauto.
Qed.

Lemma updNth_last {A} (f : A -> A) l a :
  updNth (List.length l) f (l ++ [a]) = l ++ [f a].
Proof. induction l as [|b r IH]; simpl; [reflexivity | now rewrite IH]. Qed.

Lemma getNodeAt_snoc P : forall t k,
  getNodeAt t (P ++ [k]) =
  (r <- getNodeAt t P ;;
   match r with
   | None => Ok None
   | Some (l, n) =>
       r' <- findFrom 0 (dependencies n) k ;;
       Ok (option_map (fun p : nat * node => (l ++ [fst p], snd p)) r')
   end).
Proof.
  induction P as [|p P IH]; intros t k; simpl.
  - destruct (findFrom 0 (dependencies t) k) as [[[i d]|]| |]; reflexivity.
  - destruct (findFrom 0 (dependencies t) p) as [[[i d]|]| |]; simpl;
      try reflexivity.
    rewrite IH.
    destruct (getNodeAt d P) as [[[l n]|]| |]; simpl; try reflexivity.
    destruct (findFrom 0 (dependencies n) k) as [[[j e]|]| |]; reflexivity.
Qed.

(** A push into the node at [ploc] leaves the route to that node as it was. *)
Lemma getNodeAt_pushAt P : forall t ploc parent e,
  getNodeAt t P = Ok (Some (ploc, parent)) ->
  getNodeAt (pushAt ploc e t) P = Ok (Some (ploc, pushAt [] e parent)).
Proof.
  induction P as [|p P IH]; intros t ploc parent e H; simpl in H.
  - inversion H; subst. reflexivity.
  - apply bind_Ok in H as [[[i n]|] [Hf H]]; [|discriminate].
    apply bind_Ok in H as [[[l q]|] [Hg H]]; [|discriminate].
    simpl in H. inversion H; subst. clear H.
    simpl.
    pose proof (findFrom_updNth (pushAt l e) (dependencies t)
                  (name_pushAt l e) 0 p Hf) as Hu.
    rewrite Nat.sub_0_r in Hu. rewrite Hu. simpl.
    rewrite (IH _ _ _ e Hg). reflexivity.
Qed.

(** Pushing into a node that was itself just pushed at the end of the
    dependencies of the node at [ploc]. *)
Lemma pushAt_pushed P : forall t ploc parent x e,
  getNodeAt t P = Ok (Some (ploc, parent)) ->
  pushAt (ploc ++ [List.length (dependencies parent)]) e (pushAt ploc (Some x) t)
  = pushAt ploc (Some (pushAt [] e x)) t.
Proof.
  induction P as [|p P IH]; intros t ploc parent x e H; simpl in H.
  - inversion H; subst. simpl. unfold withDependencies. simpl.
    now rewrite updNth_last.
  - apply bind_Ok in H as [[[i n]|] [Hf H]]; [|discriminate].
    apply bind_Ok in H as [[[l q]|] [Hg H]]; [|discriminate].
    simpl in H. inversion H; subst. clear H.
    simpl. unfold withDependencies. simpl. f_equal.
    rewrite updNth_twice.
    apply findFrom_nth in Hf. rewrite Nat.sub_0_r in Hf.
    apply (updNth_at _ _ _ _ Hf). simpl. f_equal.
    now apply IH.
Qed.

(** Looking up by name the node just pushed. *)
Lemma getNodeAt_pushed P : forall t ploc parent x k r,
  getNodeAt t P = Ok (Some (ploc, parent)) ->
  NoName k (dependencies parent) ->
  name x = k ->
  getNodeAt (pushAt ploc (Some x) t) (P ++ [k]) = Ok r ->
  r = Some (ploc ++ [List.length (dependencies parent)], x).
Proof.
  intros t ploc parent x k r H Hno Hx Hr.
  rewrite getNodeAt_snoc, (getNodeAt_pushAt _ _ (Some x) H) in Hr.
  simpl in Hr.
  apply bind_Ok in Hr as [r' [Hf Hr]].
  apply findFrom_push in Hf; auto. subst r'. simpl in Hr.
  now inversion Hr.
Qed.

Lemma getNode_name P : forall t k n,
  getNode t (P ++ [k]) = Ok (Some n) -> name n = k.
Proof.
  intros t k n H. unfold getNode in H.
  apply bind_Ok in H as [r [H E]].
  rewrite getNodeAt_snoc in H.
  apply bind_Ok in H as [[[l q]|] [_ H]].
  - apply bind_Ok in H as [[[i d]|] [Hf H]]; simpl in H; inversion H; subst;
      simpl in E; inversion E; subst.
    eapply findFrom_name; eauto.
  - inversion H; subst. discriminate.
Qed.

Section DifferFacts.

Variable projectFiles : list string.
Variable regexFound : string -> string -> bool.
Variables prevTree curTree : node.

#[local] Abbreviation one := (one projectFiles regexFound prevTree curTree).
#[local] Abbreviation mix := (mix projectFiles regexFound prevTree curTree).
#[local] Abbreviation oneKey := (oneKey projectFiles regexFound).
#[local] Abbreviation mixKey := (mixKey projectFiles regexFound).
#[local] Abbreviation Reached := (Reached projectFiles regexFound prevTree curTree).
#[local] Abbreviation relockTree := (relockTree projectFiles regexFound prevTree curTree).

(** Where the [relockNode] of a call [one(path)] sits: [T x] is the tree
    under construction with [x] for that node, [loc] its position. *)
Definition Hole (path : list string) (T : node -> node) (loc : list nat) : Prop :=
  (path = [] /\ T = (fun x => x) /\ loc = []) \/
  (exists P k t ploc parent,
      path = P ++ [k] /\
      getNodeAt t P = Ok (Some (ploc, parent)) /\
      NoName k (dependencies parent) /\
      T = (fun x => pushAt ploc (Some x) t) /\
      loc = ploc ++ [List.length (dependencies parent)]).

Lemma hole_push path T loc e x :
  Hole path T loc -> pushAt loc e (T x) = T (pushAt [] e x).
Proof.
  intros [(_ & -> & ->) | (P & k & t & ploc & parent & _ & Hg & _ & -> & ->)].
  - reflexivity.
  - eapply pushAt_pushed; eauto.
Qed.

Lemma hole_lookup path T loc x r :
  Hole path T loc ->
  (path <> [] -> name x = last path "") ->
  getNodeAt (T x) path = Ok r ->
  r = Some (loc, x).
Proof.
  intros [(-> & -> & ->) | (P & k & t & ploc & parent & -> & Hg & Hno & -> & ->)]
         Hn Hr.
  - simpl in Hr. now inversion Hr.
  - eapply getNodeAt_pushed; eauto.
    rewrite Hn by (now destruct P). apply last_last.
Qed.

Lemma mix_meta fuel path m :
  mix fuel path = Ok m ->
  exists curNode, getNode curTree path = Ok (Some curNode) /\
                  sameMeta m curNode.
Proof.
  destruct fuel as [|f]; simpl; [discriminate|]. intros H.
  apply bind_Ok in H as [[c|] [Hc H]];
    apply bind_Ok in H as [p [Hp H]]; [|discriminate].
  apply bind_Ok in H as [ds [_ H]]. inversion H; subst.
  exists c. split; [assumption|]. repeat split.
Qed.

Lemma mix_name fuel P k m : mix fuel (P ++ [k]) = Ok m -> name m = k.
Proof.
  intros H. apply mix_meta in H as (c & Hc & Hm).
  destruct Hm as [-> _]. eapply getNode_name; eauto.
Qed.

Lemma find_name ds k d : find ds k = Ok (Some d) -> name d = k.
Proof.
  unfold find. intros H. apply bind_Ok in H as [[[i e]|] [Hf H]];
    simpl in H; inversion H; subst.
  eapply findFrom_name; eauto.
Qed.

(** What [one] guarantees at a given fuel: it hands the finished node of
    [mix] to [addNode]. *)
Definition one_refines (fuel : nat) : Prop :=
  forall path st st',
    one fuel path st = Ok st' ->
    (forall t ploc parent,
        path <> [] -> st = Some t ->
        getNodeAt t (removelast path) = Ok (Some (ploc, parent)) ->
        NoName (last path "") (dependencies parent)) ->
    exists m,
      mix fuel path = Ok m /\
      ((path = [] /\ st' = Some m) \/
       (path <> [] /\ exists t ploc parent,
           st = Some t /\
           getNodeAt t (removelast path) = Ok (Some (ploc, parent)) /\
           st' = Some (pushAt ploc (Some m) t))).

Lemma NoName_snoc k ds e :
  NoName k ds -> (forall d, e = Some d -> name d <> k) -> NoName k (ds ++ [e]).
Proof.
  intros H He d Hin. apply in_app_or in Hin as [Hin|[Hin|[]]]; auto.
Qed.

(** The loop of lines 332-355, against [mapKeys]. *)
Lemma forKeys_mix fuel path T loc curNode prevNode :
  one_refines fuel ->
  Hole path T loc ->
  (path <> [] -> name curNode = last path "") ->
  forall ks x st',
    forKeys (oneKey (one fuel) path curNode prevNode loc) ks (Some (T x)) = Ok st' ->
    name x = name curNode ->
    NoDup ks ->
    (forall k, In k ks -> NoName k (dependencies x)) ->
    exists ds,
      mapKeys (mixKey (mix fuel) path curNode prevNode) ks = Ok ds /\
      st' = Some (T (withDependencies x (dependencies x ++ ds))).
Proof.
  intros IHone HT Hlast.
  induction ks as [|k ks IH]; intros x st' H Hx Hnd Hno; simpl in H.
  - inversion H; subst. exists []. split; [reflexivity|].
    rewrite app_nil_r. now destruct x.
  - apply bind_Ok in H as [st2 [Hk H]].
    inversion Hnd as [|? ? Hnin Hnd']; subst.
    (* every branch pushes one element [e], named [k] when defined *)
    assert (Hstep : exists e,
               mixKey (mix fuel) path curNode prevNode k = Ok e /\
               st2 = Some (T (pushAt [] e x)) /\
               (forall d, e = Some d -> name d = k)).
    { unfold Relock.oneKey in Hk. unfold Relock.mixKey.
      destruct prevNode as [prevNode|]; [|discriminate].
      destruct (Proto.inherited (requires prevNode) k); [discriminate|].
      destruct (falsy (Obj.get (requires prevNode) k)).
      { apply bind_Ok in Hk as [e [Hf Hk]]. exists e. rewrite Hf.
        inversion Hk; subst. simpl. rewrite (hole_push _ _ HT).
        repeat split. intros d ->. eapply find_name; eauto. }
      destruct (notPatch _ _).
      { apply bind_Ok in Hk as [e [Hf Hk]]. exists e. rewrite Hf.
        inversion Hk; subst. simpl. rewrite (hole_push _ _ HT).
        repeat split. intros d ->. eapply find_name; eauto. }
      destruct (negb _ || _).
      - assert (Hpre : forall t ploc parent,
                   path ++ [k] <> [] -> Some (T x) = Some t ->
                   getNodeAt t (removelast (path ++ [k])) = Ok (Some (ploc, parent)) ->
                   NoName (last (path ++ [k]) "") (dependencies parent)).
        { intros t ploc parent _ Et Hg. inversion Et; subst t.
          rewrite removelast_last in Hg. rewrite last_last.
          apply (hole_lookup _ HT) in Hg; [|now rewrite Hx].
          inversion Hg; subst. apply Hno. now left. }
        destruct (IHone _ _ _ Hk Hpre) as (m & Hm & [[E _]|(_ & t & ploc & parent & Et & Hg & ->)]).
        { now destruct path. }
        inversion Et; subst t. rewrite removelast_last in Hg.
        apply (hole_lookup _ HT) in Hg; [|now rewrite Hx].
        inversion Hg; subst.
        exists (Some m). rewrite Hm. simpl. rewrite (hole_push _ _ HT).
        repeat split. intros d Ed. inversion Ed; subst.
        eapply mix_name; eauto.
      - apply bind_Ok in Hk as [e [Hf Hk]]. exists e. rewrite Hf.
        inversion Hk; subst. simpl. rewrite (hole_push _ _ HT).
        repeat split. intros d ->. eapply find_name; eauto. }
    destruct Hstep as (e & He & -> & Hname).
    destruct (IH (pushAt [] e x) st' H) as (ds & Hds & ->); auto.
    + intros k' Hin. simpl. apply NoName_snoc.
      * apply Hno. now right.
      * intros d Ed E. rewrite (Hname d Ed) in E. subst k'. contradiction.
    + exists (e :: ds). simpl. rewrite He. simpl. rewrite Hds. simpl.
      split; [reflexivity|]. unfold withDependencies. simpl.
      now rewrite <- app_assoc.
Qed.

Lemma one_mix : forall fuel, one_refines fuel.
Proof.
  induction fuel as [|fuel IH]; intros path st st' H Hpre; simpl in H.
  - discriminate.
  - apply bind_Ok in H as [cur [Hc H]].
    apply bind_Ok in H as [prevNode [Hp H]].
    destruct cur as [curNode|]; [|discriminate].
    apply bind_Ok in H as [[st1 loc] [Ha H]].
    assert (Hlast : path <> [] -> name curNode = last path "").
    { intros Hne. destruct (exists_last Hne) as (P & k & ->).
      rewrite last_last. eapply getNode_name; eauto. }
    (* the hole opened by [addNode] *)
    assert (HT : exists T, Hole path T loc /\
                 st1 = Some (T (withDependencies curNode [])) /\
                 forall m, (path = [] /\ Some (T m) = Some m) \/
                   (path <> [] /\ exists t ploc parent,
                       st = Some t /\
                       getNodeAt t (removelast path) = Ok (Some (ploc, parent)) /\
                       Some (T m) = Some (pushAt ploc (Some m) t))).
    { unfold addNode in Ha. destruct path as [|p path].
      - inversion Ha; subst. exists (fun x => x). split; [left; auto|].
        split; [reflexivity|]. intros m. left. auto.
      - destruct st as [t|]; [|discriminate].
        apply bind_Ok in Ha as [[[ploc parent]|] [Hg Ha]]; [|discriminate].
        inversion Ha; subst.
        assert (Hne : p :: path <> []) by discriminate.
        exists (fun x => pushAt ploc (Some x) t). split.
        + right. destruct (exists_last Hne) as (P & k & E).
          exists P, k, t, ploc, parent. rewrite E in *.
          rewrite removelast_last in Hg.
          repeat split; auto.
          specialize (Hpre t ploc parent).
          rewrite removelast_last, last_last in Hpre.
          apply Hpre; auto; now destruct P.
        + split; [reflexivity|]. intros m. right. split; [assumption|].
          exists t, ploc, parent. auto. }
    destruct HT as (T & HT & -> & Hres).
    destruct (@forKeys_mix fuel path T loc curNode prevNode IH HT Hlast _ _ _ H)
      as (ds & Hds & ->).
    + reflexivity.
    + apply ObjFacts.keys_NoDup.
    + intros k _ d [].
    + exists (withDependencies curNode ds). simpl.
      rewrite Hc. simpl. rewrite Hp. simpl. rewrite Hds. simpl.
      split; [reflexivity|]. apply Hres.
Qed.

(** The tree returned by [relockTree] is the one [mix] computes. *)
Lemma relockTree_mix mixed :
  relockTree = Ok mixed ->
  exists m, mixed = Some m /\ mix (S (height curTree)) [] = Ok m.
Proof.
  intros H. pose proof (one_mix (S (height curTree))) as R.
  destruct (R [] None mixed H) as (m & Hm & [[_ ->]|[Hne _]]).
  - intros t ploc parent Hne. now destruct Hne.
  - eauto.
  - now destruct Hne.
Qed.

Lemma mapKeys_nth (step : string -> result (option node)) ks : forall ds i k,
  mapKeys step ks = Ok ds ->
  nth_error ks i = Some k ->
  exists e, step k = Ok e /\ nth_error ds i = Some e.
Proof.
  induction ks as [|k0 ks IH]; intros ds i k H Hi.
  - destruct i; discriminate.
  - simpl in H. apply bind_Ok in H as [e [He H]].
    apply bind_Ok in H as [es [Hes H]]. inversion H; subst.
    destruct i as [|i]; simpl in Hi.
    + inversion Hi; subst. exists e. split; [assumption | reflexivity].
    + exact (IH es i k Hes Hi).
Qed.

(** Every key of the current node contributes the element of its own
    position, computed by [mixKey]. *)
Lemma mix_entry fuel path m curNode prevNode i key :
  mix (S fuel) path = Ok m ->
  getNode curTree path = Ok (Some curNode) ->
  getNode prevTree path = Ok prevNode ->
  nth_error (Obj.keys (requires curNode)) i = Some key ->
  sameMeta m curNode /\
  exists e, mixKey (mix fuel) path curNode prevNode key = Ok e /\
            nth_error (dependencies m) i = Some e.
Proof.
  simpl. intros H Hc Hp Hi. rewrite Hc, Hp in H. simpl in H.
  apply bind_Ok in H as [ds [Hds H]]. inversion H; subst.
  split; [repeat split|]. eapply mapKeys_nth; eauto.
Qed.

Lemma nodeAt_snoc loc : forall t m i c,
  nodeAt t loc = Some m ->
  nth_error (dependencies m) i = Some (Some c) ->
  nodeAt t (loc ++ [i]) = Some c.
Proof.
  induction loc as [|j loc IH]; intros t m i c H Hi; simpl in *.
  - inversion H; subst. now rewrite Hi.
  - destruct (nth_error (dependencies t) j) as [[d|]|]; try discriminate.
    eauto.
Qed.

Lemma falsy_Some s : s <> "" -> falsy (Some s) = false.
Proof. simpl. intros H. now apply String.eqb_neq. Qed.

(** An own property hides the inherited member of the same name. *)
Lemma inherited_own {V} (o : Obj.t V) k v :
  Obj.get o k = Some v -> Proto.inherited o k = false.
Proof. unfold Proto.inherited. now intros ->. Qed.

(** The first element of [ds] named [key] is what [find] returns, when every
    element before it is defined. *)
Lemma find_firstNamed ds key d :
  firstNamed ds key d -> find ds key = Ok (Some d).
Proof.
  intros (pre & rest & -> & Hn & Hpre). unfold find.
  assert (G : forall i, findFrom i (pre ++ Some d :: rest) key
                        = Ok (Some (i + List.length pre, d))).
  { induction pre as [|x pre IH]; intros i; simpl.
    - apply String.eqb_eq in Hn. rewrite Hn. do 3 f_equal. lia.
    - destruct (Hpre x (or_introl eq_refl)) as (c & -> & Hc).
      apply String.eqb_neq in Hc. rewrite Hc.
      rewrite IH by (intros y Hy; apply Hpre; now right).
      do 3 f_equal. lia. }
  now rewrite G.
Qed.

(** The branch of line 347: the key is handed to the recursive call. *)
Lemma mixKey_recurse fuel path curNode prevNode key curVer prevVer e :
  Obj.get (requires curNode) key = Some curVer ->
  Obj.get (requires prevNode) key = Some prevVer ->
  prevVer <> "" ->
  notPatch curVer prevVer = false ->
  negb (String.eqb prevVer curVer)
    || isProjectModule projectFiles regexFound key = true ->
  mixKey (mix fuel) path curNode (Some prevNode) key = Ok e ->
  exists m, e = Some m /\ mix fuel (path ++ [key]) = Ok m.
Proof.
  intros Hc Hp Hne Hnp Hb. unfold Relock.mixKey.
  rewrite (inherited_own _ _ Hp), Hc, Hp, (falsy_Some Hne), Hnp. simpl.
  rewrite Hb.
  intros H. apply bind_Ok in H as [m [Hm H]]. inversion H; subst. eauto.
Qed.

(** The node of every reached path is in the tree returned, at the
    position recorded, and it is the one [mix] computes for that path. *)
Lemma reached_mix mixed path loc :
  relockTree = Ok (Some mixed) ->
  Reached path loc ->
  exists m fuel, nodeAt mixed loc = Some m /\ mix (S fuel) path = Ok m.
Proof.
  intros Hr HR. induction HR as
    [|path loc curNode prevNode key i curVer prevVer HR IH Hc Hp Hi Hcv Hpv Hne Hnp Hb].
  - apply relockTree_mix in Hr as (m & E & Hm). inversion E; subst.
    exists m, (height curTree). split; [reflexivity | assumption].
  - destruct IH as (m & fuel & Hat & Hm).
    edestruct mix_entry as (_ & e & He & Hnth);
      [exact Hm | exact Hc | exact Hp | exact Hi |].
    eapply mixKey_recurse in He as (m' & -> & Hm'); eauto.
    destruct fuel as [|fuel]; [discriminate|].
    exists m', fuel. split; [|assumption].
    eapply nodeAt_snoc; eauto.
Qed.

Lemma optEqb_refl a : optEqb a a = true.
Proof. destruct a; simpl; [apply String.eqb_refl | reflexivity]. Qed.

Lemma notPatch_same v : notPatch v v = false.
Proof. unfold notPatch. now rewrite !optEqb_refl. Qed.

(** *** [relockTree] always finishes *)

Lemma findFrom_finishes ds : forall i k, findFrom i ds k <> Timeout.
Proof.
  induction ds as [|[d|] r IH]; simpl; intros i k; try discriminate.
  destruct (String.eqb (name d) k); [discriminate | apply IH].
Qed.

Lemma find_finishes ds k : find ds k <> Timeout.
Proof.
  unfold find. pose proof (findFrom_finishes ds 0 k).
  destruct (findFrom 0 ds k); simpl; congruence.
Qed.

Lemma getNodeAt_finishes P : forall t, getNodeAt t P <> Timeout.
Proof.
  induction P as [|p P IH]; intros t; simpl; [discriminate|].
  pose proof (findFrom_finishes (dependencies t) 0 p).
  destruct (findFrom 0 (dependencies t) p) as [[[i n]|]| |]; simpl;
    try congruence.
  specialize (IH n). destruct (getNodeAt n P); simpl; congruence.
Qed.

Lemma getNode_finishes t P : getNode t P <> Timeout.
Proof.
  unfold getNode. pose proof (getNodeAt_finishes P t).
  destruct (getNodeAt t P); simpl; congruence.
Qed.

Lemma height_child p c : In (Some c) (dependencies p) -> height c < height p.
Proof.
  destruct p as [n v s g r sg ds]. simpl.
  induction ds as [|[d|] ds IH]; simpl; intros H.
  - contradiction.
  - destruct H as [H|H].
    + inversion H; subst. lia.
    + apply IH in H. lia.
  - destruct H as [H|H]; [discriminate | auto].
Qed.

Lemma height_pos t : 0 < height t.
Proof. destruct t; simpl; lia. Qed.

Lemma getNode_snoc_height t P k c :
  getNode t (P ++ [k]) = Ok (Some c) ->
  exists p, getNode t P = Ok (Some p) /\ height c < height p.
Proof.
  unfold getNode. intros H. apply bind_Ok in H as [r [H E]].
  rewrite getNodeAt_snoc in H.
  apply bind_Ok in H as [[[l q]|] [Hq H]].
  - apply bind_Ok in H as [[[i d]|] [Hf H]]; simpl in H; inversion H; subst;
      simpl in E; inversion E; subst.
    exists q. rewrite Hq. split; [reflexivity|].
    apply height_child. apply findFrom_nth in Hf.
    eapply nth_error_In; eauto.
  - inversion H; subst. discriminate.
Qed.

(** The height of the current node at a path, 0 where there is none. *)
Definition heightAt (path : list string) : nat :=
  match getNode curTree path with
  | Ok (Some c) => height c
  | _ => 0
  end.

Lemma forKeys_finishes step ks :
  (forall k st, step k st <> Timeout) ->
  forall st, forKeys step ks st <> Timeout.
Proof.
  intros Hs. induction ks as [|k ks IH]; intros st; simpl; [discriminate|].
  specialize (Hs k st). destruct (step k st); simpl; auto; congruence.
Qed.

Lemma one_finishes : forall fuel path st,
  heightAt path < fuel -> one fuel path st <> Timeout.
Proof.
  induction fuel as [|fuel IH]; intros path st Hh; [lia|].
  simpl. unfold heightAt in Hh.
  pose proof (getNode_finishes curTree path) as Hc.
  destruct (getNode curTree path) as [[curNode|]| |] eqn:Ec; simpl;
    try congruence.
  - pose proof (getNode_finishes prevTree path) as Hp.
    destruct (getNode prevTree path) as [prevNode| |]; simpl; try congruence.
    assert (Ha : addNode (withDependencies curNode []) path st <> Timeout).
    { unfold addNode. destruct path; [discriminate|].
      destruct st as [t|]; [|discriminate].
      pose proof (getNodeAt_finishes (removelast (s :: path)) t) as Hg.
      destruct (getNodeAt t (removelast (s :: path))) as [[[l q]|]| |];
        simpl; congruence. }
    destruct (addNode _ path st) as [[st1 loc]| |]; simpl; try congruence.
    apply forKeys_finishes. intros k st2. unfold Relock.oneKey.
    destruct prevNode as [prevNode|]; [|discriminate].
    assert (Hf : forall ds, (dependencyNode <- find ds k ;;
                  Ok (pushDep loc dependencyNode st2)) <> Timeout).
    { intros ds. pose proof (find_finishes ds k).
      destruct (find ds k); simpl; congruence. }
    destruct (Proto.inherited _ _); [discriminate|].
    destruct (falsy _); [apply Hf|].
    destruct (notPatch _ _); [apply Hf|].
    destruct (negb _ || _); [|apply Hf].
    apply IH. unfold heightAt.
    destruct (getNode curTree (path ++ [k])) as [[c|]| |] eqn:Ek;
      try (pose proof (height_pos curNode); lia).
    apply getNode_snoc_height in Ek as (p & Ep & Hlt).
    rewrite Ec in Ep. inversion Ep; subst. lia.
  - pose proof (getNode_finishes prevTree path) as Hp.
    destruct (getNode prevTree path); simpl; congruence.
Qed.

Lemma relockTree_finishes : relockTree <> Timeout.
Proof.
  apply one_finishes. unfold heightAt. simpl. lia.
Qed.

Lemma keysFrom_In {V} (o : Obj.t V) k v : forall seen,
  Obj.get o k = Some v -> ~ In k seen -> In k (Obj.keysFrom seen o).
Proof.
  induction o as [|[k0 v0] r IH]; intros seen Hg Hs; simpl in *.
  - discriminate.
  - destruct (String.eqb k0 k) eqn:E.
    + apply String.eqb_eq in E. subst k0.
      destruct (Str.mem k seen) eqn:M.
      * apply StrFacts.mem_In in M. contradiction.
      * now left.
    + apply String.eqb_neq in E.
      destruct (Str.mem k0 seen); [now apply IH|].
      right. apply IH; [assumption|]. intros [H|H]; auto.
Qed.

Lemma get_key_index {V} (o : Obj.t V) k v :
  Obj.get o k = Some v -> exists i, nth_error (Obj.keys o) i = Some k.
Proof.
  intros H. apply In_nth_error. eapply keysFrom_In; eauto.
Qed.

(** X31.  At every node that [one] visits, a name required with the same
    non-empty range by the previous and the current node, and that
    [isProjectModule] rejects, gets in the mixed tree the previous subtree
    itself: the first dependency of that name of the previous node, with
    everything below it, whatever the current tree resolved.  The patterns
    of the project files are ones that [new RegExp] compiles. *)
Theorem keep_previous_subtree :
  forall mixed path loc curNode prevNode key range d,
    forallb Pattern.literal projectFiles = true ->
    relockTree = Ok (Some mixed) ->
    Reached path loc ->
    getNode curTree path = Ok (Some curNode) ->
    getNode prevTree path = Ok (Some prevNode) ->
    Obj.get (requires curNode) key = Some range ->
    Obj.get (requires prevNode) key = Some range ->
    range <> "" ->
    isProjectModule projectFiles regexFound key = false ->
    firstNamed (dependencies prevNode) key d ->
    exists i m,
      nth_error (Obj.keys (requires curNode)) i = Some key /\
      nodeAt mixed loc = Some m /\
      nth_error (dependencies m) i = Some (Some d).
Proof.
  intros mixed path loc curNode prevNode key range d
         _ Hr HR Hc Hp Hcv Hpv Hne Hpm Hd.
  destruct (get_key_index _ _ Hcv) as [i Hi].
  destruct (reached_mix Hr HR) as (m & fuel & Hat & Hm).
  edestruct mix_entry as (_ & e & He & Hnth);
    [exact Hm | exact Hc | exact Hp | exact Hi |].
  exists i, m. repeat split; auto.
  unfold Relock.mixKey in He.
  rewrite (inherited_own _ _ Hpv), Hcv, Hpv, (falsy_Some Hne), notPatch_same
    in He.
  simpl in He. rewrite String.eqb_refl, Hpm in He. simpl in He.
  rewrite (find_firstNamed Hd) in He. now inversion He; subst.
Qed.

(** X32.  At every node that [one] visits, a name whose range changed at more
    than patch granularity ([notPatch]), or that the previous node does not
    require and that is no member of [Object.prototype], gets in the mixed
    tree the current subtree: the first dependency of that name of the
    current node, with everything below it.  The patterns of the project
    files are ones that [new RegExp] compiles. *)
Theorem take_current_subtree :
  forall mixed path loc curNode prevNode key i curVer c,
    forallb Pattern.literal projectFiles = true ->
    relockTree = Ok (Some mixed) ->
    Reached path loc ->
    getNode curTree path = Ok (Some curNode) ->
    getNode prevTree path = Ok (Some prevNode) ->
    nth_error (Obj.keys (requires curNode)) i = Some key ->
    Obj.get (requires curNode) key = Some curVer ->
    (Obj.get (requires prevNode) key = None /\ Proto.member key = false \/
     exists prevVer, Obj.get (requires prevNode) key = Some prevVer /\
                     notPatch curVer prevVer = true) ->
    firstNamed (dependencies curNode) key c ->
    exists m,
      nodeAt mixed loc = Some m /\
      nth_error (dependencies m) i = Some (Some c).
Proof.
  intros mixed path loc curNode prevNode key i curVer c
         _ Hr HR Hc Hp Hi Hcv Hcase Hd.
  destruct (reached_mix Hr HR) as (m & fuel & Hat & Hm).
  edestruct mix_entry as (_ & e & He & Hnth);
    [exact Hm | exact Hc | exact Hp | exact Hi |].
  exists m. split; [assumption|].
  unfold Relock.mixKey in He. rewrite Hcv, (find_firstNamed Hd) in He.
  destruct Hcase as [[Hn Hm'] | (prevVer & Hpv & Hnp)].
  - unfold Proto.inherited in He. rewrite Hn, Hm' in He. simpl in He.
    now inversion He; subst.
  - rewrite (inherited_own _ _ Hpv), Hpv, Hnp in He.
    destruct (falsy (Some prevVer)); now inversion He; subst.
Qed.

(** What the branch of line 347 leaves in the mixed tree: a node with the
    current node's own fields, whose dependencies are decided key by key. *)
Lemma recursed_entry mixed path loc curNode prevNode key i curVer prevVer :
  relockTree = Ok (Some mixed) ->
  Reached path loc ->
  getNode curTree path = Ok (Some curNode) ->
  getNode prevTree path = Ok (Some prevNode) ->
  nth_error (Obj.keys (requires curNode)) i = Some key ->
  Obj.get (requires curNode) key = Some curVer ->
  Obj.get (requires prevNode) key = Some prevVer ->
  prevVer <> "" ->
  notPatch curVer prevVer = false ->
  negb (String.eqb prevVer curVer)
    || isProjectModule projectFiles regexFound key = true ->
  exists child curChild,
    nodeAt mixed (loc ++ [i]) = Some child /\
    getNode curTree (path ++ [key]) = Ok (Some curChild) /\
    sameMeta child curChild /\
    List.length (dependencies child) =
      List.length (Obj.keys (requires curChild)) /\
    Reached (path ++ [key]) (loc ++ [i]).
Proof.
  intros Hr HR Hc Hp Hi Hcv Hpv Hne Hnp Hb.
  assert (HR' : Reached (path ++ [key]) (loc ++ [i]))
    by (econstructor; eauto).
  destruct (reached_mix Hr HR') as (child & fuel & Hat & Hm).
  destruct (mix_meta _ _ Hm) as (curChild & Hcc & Hmeta).
  exists child, curChild. repeat split; try assumption; try apply Hmeta.
  simpl in Hm. rewrite Hcc in Hm. simpl in Hm.
  apply bind_Ok in Hm as [p [_ Hm]].
  apply bind_Ok in Hm as [ds [Hds Hm]]. inversion Hm; subst. simpl.
  clear - Hds. revert ds Hds.
  induction (Obj.keys (requires curChild)) as [|k ks IH]; intros ds H;
    simpl in H.
  - now inversion H.
  - apply bind_Ok in H as [e [_ H]]. apply bind_Ok in H as [es [Hes H]].
    inversion H; subst. simpl. f_equal. now apply IH.
Qed.

(** C2, as amended.  A name whose range changed at patch granularity only
    (the strings differ, [notPatch] is false) is not carried over from the
    previous tree: the mixed tree holds, at the position of that name, a
    node with the current node's own name, version, range, tag, requires and
    signature, and one dependency per key of its requires, each decided by
    the same rules one level down. *)
Theorem patch_change_is_recursed :
  forall mixed path loc curNode prevNode key i curVer prevVer,
    relockTree = Ok (Some mixed) ->
    Reached path loc ->
    getNode curTree path = Ok (Some curNode) ->
    getNode prevTree path = Ok (Some prevNode) ->
    nth_error (Obj.keys (requires curNode)) i = Some key ->
    Obj.get (requires curNode) key = Some curVer ->
    Obj.get (requires prevNode) key = Some prevVer ->
    prevVer <> "" ->
    prevVer <> curVer ->
    notPatch curVer prevVer = false ->
    exists child curChild,
      nodeAt mixed (loc ++ [i]) = Some child /\
      getNode curTree (path ++ [key]) = Ok (Some curChild) /\
      sameMeta child curChild /\
      List.length (dependencies child) =
        List.length (Obj.keys (requires curChild)) /\
      Reached (path ++ [key]) (loc ++ [i]).
Proof.
  intros mixed path loc curNode prevNode key i curVer prevVer
         Hr HR Hc Hp Hi Hcv Hpv Hne Hch Hnp.
  eapply recursed_entry; eauto.
  apply String.eqb_neq in Hch. now rewrite Hch.
Qed.

(** C4, as amended.  A name accepted by [isProjectModule] that the previous
    node requires with a non-empty range, and whose range did not change at
    more than patch granularity, is always handed to the recursive call,
    whether or not the range string changed: the mixed tree holds a fresh
    node with the current node's own fields, its dependencies decided key by
    key, and neither the previous nor the current subtree as a whole. *)
Theorem project_module_is_recursed :
  forall mixed path loc curNode prevNode key i curVer prevVer,
    relockTree = Ok (Some mixed) ->
    Reached path loc ->
    getNode curTree path = Ok (Some curNode) ->
    getNode prevTree path = Ok (Some prevNode) ->
    nth_error (Obj.keys (requires curNode)) i = Some key ->
    Obj.get (requires curNode) key = Some curVer ->
    Obj.get (requires prevNode) key = Some prevVer ->
    prevVer <> "" ->
    notPatch curVer prevVer = false ->
    isProjectModule projectFiles regexFound key = true ->
    exists child curChild,
      nodeAt mixed (loc ++ [i]) = Some child /\
      getNode curTree (path ++ [key]) = Ok (Some curChild) /\
      sameMeta child curChild /\
      List.length (dependencies child) =
        List.length (Obj.keys (requires curChild)) /\
      Reached (path ++ [key]) (loc ++ [i]).
Proof.
  intros mixed path loc curNode prevNode key i curVer prevVer
         Hr HR Hc Hp Hi Hcv Hpv Hne Hnp Hpm.
  eapply recursed_entry; eauto.
  rewrite Hpm. apply orb_true_r.
Qed.

End DifferFacts.

(** *** The rules of the differ on concrete trees *)

Import Examples.

Lemma keep_previous_subtree_witness :
  exists i m,
    nth_error (Obj.keys (requires curTree)) i = Some "a" /\
    nodeAt mixedTree [] = Some m /\
    nth_error (dependencies m) i = Some (Some prevA).
Proof.
  apply (@keep_previous_subtree [] noRegex prevTree curTree mixedTree [] []
           curTree prevTree "a" "^1.0.0" prevA);
    try reflexivity; [constructor | discriminate |].
  exists [], []. split; [reflexivity|]. split; [reflexivity|].
  intros x [].
Defined.

(** C1.  The claim fails on the code for an empty range: the range of [x]
    is the same string, the empty one, in the previous and in the current
    root, and [x] is not a project module, yet the mixed tree holds the
    current resolution of [x], version 1.0.1, and not the previous subtree,
    version 1.0.0: the test [!prevVer] of line 341 takes the empty range for
    a missing one. *)
Theorem identical_empty_range_takes_current :
  exists mixed c p,
    Obj.get (requires curEmptyRange) "x" = Some "" /\
    Obj.get (requires prevEmptyRange) "x" = Some "" /\
    isProjectModule [] noRegex "x" = false /\
    relockTree [] noRegex prevEmptyRange curEmptyRange = Ok (Some mixed) /\
    find (dependencies prevEmptyRange) "x" = Ok (Some p) /\
    find (dependencies curEmptyRange) "x" = Ok (Some c) /\
    nth_error (dependencies mixed) 0 = Some (Some c) /\
    version c = "1.0.1" /\ version p = "1.0.0" /\
    nth_error (dependencies mixed) 0 <> Some (Some p).
Proof.
  do 3 eexists. conjuncts; try reflexivity. discriminate.
Qed.

(** C3.  The claim fails on the code for a name that [Object.prototype]
    holds: both trees are built from their lock files, the patch-level
    change of the range of [a] sends the differ below [a], the current [a]
    requires [constructor] and has a subtree for it, the previous [a] does
    not require it; [prevNode.requires[key]] is then the inherited member,
    [notPatch] is called on it and [relockTree] throws a TypeError instead
    of taking the current subtree. *)
Theorem inherited_name_is_not_taken :
  exists g1 g2 curA prevA c,
    build prevInheritedLock noGlobals = Ok (prevInherited, g1) /\
    build curInheritedLock g1 = Ok (curInherited, g2) /\
    getNode curInherited ["a"] = Ok (Some curA) /\
    getNode prevInherited ["a"] = Ok (Some prevA) /\
    Obj.get (requires curA) "constructor" = Some "^1.0.0" /\
    Obj.get (requires prevA) "constructor" = None /\
    find (dependencies curA) "constructor" = Ok (Some c) /\
    version c = "1.0.0" /\
    relockTree [] noRegex prevInherited curInherited = Throw TypeError.
Proof.
  do 5 eexists. conjuncts; reflexivity.
Qed.

Lemma patch_change_is_recursed_witness :
  exists child curChild,
    nodeAt mixedPatch ([] ++ [0]) = Some child /\
    getNode curPatch ([] ++ ["x"]) = Ok (Some curChild) /\
    sameMeta child curChild /\
    List.length (dependencies child) =
      List.length (Obj.keys (requires curChild)) /\
    Reached [] noRegex prevPatch curPatch ([] ++ ["x"]) ([] ++ [0]).
Proof.
  apply (@patch_change_is_recursed [] noRegex prevPatch curPatch mixedPatch
           [] [] curPatch prevPatch "x" 0 "^1.2.5" "^1.2.0");
    try reflexivity; [constructor | discriminate | discriminate].
Defined.

(** C2 as stated fails: the range of [x] went from ^1.2.0 to ^1.2.5, the
    previous tree holds x 1.2.3 and the current one x 1.2.5; the mixed tree
    holds a node for [x] with the current version, not the previous
    subtree (below it, [y] is the previous one). *)
Lemma patch_change_keeps_current_version :
  exists mixed m p y,
    Obj.get (requires prevPatch) "x" = Some "^1.2.0" /\
    Obj.get (requires curPatch) "x" = Some "^1.2.5" /\
    notPatch "^1.2.5" "^1.2.0" = false /\
    relockTree [] noRegex prevPatch curPatch = Ok (Some mixed) /\
    find (dependencies prevPatch) "x" = Ok (Some p) /\
    version p = "1.2.3" /\
    nth_error (dependencies mixed) 0 = Some (Some m) /\
    name m = "x" /\ version m = "1.2.5" /\
    dependencies m = [Some y] /\ name y = "y" /\ version y = "1.0.0" /\
    m <> p.
Proof.
  do 4 eexists. conjuncts; try reflexivity. discriminate.
Qed.

Lemma take_current_subtree_witness :
  exists m,
    nodeAt mixedMinor [] = Some m /\
    nth_error (dependencies m) 0 = Some (Some curMinorX).
Proof.
  apply (@take_current_subtree [] noRegex prevPatch curMinor mixedMinor [] []
           curMinor prevPatch "x" 0 "^1.3.0" curMinorX);
    try reflexivity; [constructor | |].
  - right. exists "^1.2.0". split; reflexivity.
  - exists [], []. split; [reflexivity|]. split; [reflexivity|].
    intros x [].
Defined.

Lemma project_module_is_recursed_witness :
  exists child curChild,
    nodeAt mixedProjectSame ([] ++ [0]) = Some child /\
    getNode curProjectSame ([] ++ ["lib-core"]) = Ok (Some curChild) /\
    sameMeta child curChild /\
    List.length (dependencies child) =
      List.length (Obj.keys (requires curChild)) /\
    Reached projectFiles Str.includes prevProject curProjectSame
            ([] ++ ["lib-core"]) ([] ++ [0]).
Proof.
  apply (@project_module_is_recursed projectFiles Str.includes prevProject
           curProjectSame mixedProjectSame [] [] curProjectSame prevProject
           "lib-core" 0 "^1.0.0" "^1.0.0");
    try reflexivity; [constructor | discriminate].
Defined.

(** C4 as stated fails: [lib-core] is a project module whose range moved to
    the next major version; the mixed tree holds the current subtree as a
    whole (with the current [c]), not the node that the recursive call
    builds (which keeps the previous [c]). *)
Lemma project_module_major_change_not_recursed :
  exists mixed cur rebuilt,
    isProjectModule projectFiles Str.includes "lib-core" = true /\
    relockTree projectFiles Str.includes prevProject curProjectMajor
      = Ok (Some mixed) /\
    find (dependencies curProjectMajor) "lib-core" = Ok (Some cur) /\
    nth_error (dependencies mixed) 0 = Some (Some cur) /\
    mix projectFiles Str.includes prevProject curProjectMajor 4 ["lib-core"]
      = Ok rebuilt /\
    option_map (option_map version) (nth_error (dependencies cur) 0)
      = Some (Some "2.0.2") /\
    option_map (option_map version) (nth_error (dependencies rebuilt) 0)
      = Some (Some "2.0.1") /\
    nth_error (dependencies mixed) 0 <> Some (Some rebuilt).
Proof.
  do 3 eexists. conjuncts; try reflexivity. discriminate.
Qed.

End RelockFacts.

(** ** The tree builder *)

Unset Implicit Arguments.

Module BuilderFacts.
Import Builder ResultFacts.

Section BuildFacts.

Variable root : lockEntry.

(** *** No path of the builder throws *)

Lemma searchLockPath_no_throw fuel : forall searchPath name,
  ~ throws (searchLockPath root fuel searchPath name).
Proof.
  induction fuel as [|fuel IH]; intros searchPath name [e H];
    cbn [searchLockPath] in H.
  - discriminate.
  - revert H. destruct (Str.mem _ _).
    + destruct (String.eqb _ ""); [|intros H; discriminate].
      intros H. apply (IH searchPath name). now exists e.
    + destruct searchPath; [intros H; discriminate|].
      intros H. apply (IH (removelast (s :: searchPath)) name). now exists e.
Qed.

Lemma getLockPath_no_throw fuel path name :
  ~ throws (getLockPath root fuel path name).
Proof.
  unfold getLockPath. destruct path.
  - destruct (String.eqb name "").
    + intros [e H]; discriminate.
    + apply searchLockPath_no_throw.
  - apply searchLockPath_no_throw.
Qed.

(** [find] hands back an object whenever it returns: the test of line 197
    never succeeds. *)
Lemma find_Some fuel name path r :
  find root fuel name path = Ok r -> exists e, r = Some e.
Proof.
  unfold find. intros H.
  destruct path.
  - destruct (String.eqb name "").
    + inversion H; eauto.
    + apply bind_Ok in H as [p [_ H]]. inversion H; eauto.
  - apply bind_Ok in H as [p [_ H]]. inversion H; eauto.
Qed.

Lemma find_no_throw fuel name path : ~ throws (find root fuel name path).
Proof.
  unfold find. intros H.
  assert (G : ~ throws (lockPath <- getLockPath root fuel path name ;;
                        Ok (Some (getNode root (Str.split bar lockPath))))).
  { intros G. apply bind_throws in G as [G|(a & _ & [e G])].
    - now apply getLockPath_no_throw in G.
    - discriminate. }
  revert H. destruct path; [destruct (String.eqb name "")|]; auto.
  intros [e H]; discriminate.
Qed.

Lemma forEach_no_throw {A} (step : string -> A -> result A) ks :
  (forall k acc, ~ throws (step k acc)) ->
  forall acc, ~ throws (forEach step ks acc).
Proof.
  intros Hs. induction ks as [|k ks IH]; intros acc H; cbn [forEach] in H.
  - destruct H; discriminate.
  - apply bind_throws in H as [H|(a & _ & H)].
    + now apply Hs in H.
    + now apply IH in H.
Qed.

Lemma oneRequire_no_throw loopFuel rec path lockNode name acc :
  (forall p st, ~ throws (rec p st)) ->
  ~ throws (oneRequire root loopFuel rec path lockNode name acc).
Proof.
  intros Hrec H. unfold oneRequire in H. destruct acc as [ds st].
  apply bind_throws in H as [H|(realPath & _ & H)].
  { now apply getLockPath_no_throw in H. }
  apply bind_throws in H as [H|(found & Hf & H)].
  { now apply find_no_throw in H. }
  apply find_Some in Hf as [matched ->].
  apply bind_throws in H as [H|([nds st'] & _ & [e H])].
  - now apply Hrec in H.
  - discriminate.
Qed.

Lemma one_no_throw loopFuel fuel : forall path st,
  ~ throws (one root loopFuel fuel path st).
Proof.
  induction fuel as [|fuel IH]; intros path st H; cbn [one] in H.
  - destruct H; discriminate.
  - apply bind_throws in H as [H|(lockOnePath & _ & H)].
    { now apply getLockPath_no_throw in H. }
    revert H. destruct (Str.mem lockOnePath (stack st)).
    { intros [e H]; discriminate. }
    intros H.
    apply bind_throws in H as [H|(found & Hf & H)].
    { now apply find_no_throw in H. }
    apply find_Some in Hf as [lockNode ->].
    revert H. destruct (Obj.get _ lockOnePath).
    { intros [e H]; discriminate. }
    intros H.
    apply bind_throws in H as [H|([ds st'] & _ & [e H])].
    + apply forEach_no_throw in H; [assumption|].
      intros k acc. now apply oneRequire_no_throw.
    + discriminate.
Qed.

Lemma generateDependencyTree_no_throw loopFuel fuel g :
  ~ throws (generateDependencyTree root loopFuel fuel g).
Proof.
  unfold generateDependencyTree. intros H.
  apply bind_throws in H as [H|([res st] & _ & [e H])].
  - now apply one_no_throw in H.
  - discriminate.
Qed.

(** *** The globals are written, never read *)

Definition sameLocals (s1 s2 : state) : Prop :=
  stack s1 = stack s2 /\ processed s1 = processed s2.

(** Two runs that differ in the globals only. *)
Definition agree {A} (r1 r2 : result (A * state)) : Prop :=
  match r1, r2 with
  | Ok (a1, s1), Ok (a2, s2) => a1 = a2 /\ sameLocals s1 s2
  | Throw e1, Throw e2 => e1 = e2
  | Timeout, Timeout => True
  | _, _ => False
  end.

Lemma forEach_agree {A} (step : string -> A * state -> result (A * state)) ks :
  (forall k a s1 s2, sameLocals s1 s2 ->
                     agree (step k (a, s1)) (step k (a, s2))) ->
  forall a s1 s2, sameLocals s1 s2 ->
                  agree (forEach step ks (a, s1)) (forEach step ks (a, s2)).
Proof.
  intros Hs. induction ks as [|k ks IH]; intros a s1 s2 H; cbn [forEach].
  - simpl. auto.
  - specialize (Hs k a s1 s2 H).
    destruct (step k (a, s1)) as [[a1 t1]| |], (step k (a, s2)) as [[a2 t2]| |];
      simpl in *; try contradiction; auto.
    destruct Hs as [-> Hs]. now apply IH.
Qed.

Lemma oneRequire_agree loopFuel rec path lockNode name ds s1 s2 :
  (forall p t1 t2, sameLocals t1 t2 -> agree (rec p t1) (rec p t2)) ->
  sameLocals s1 s2 ->
  agree (oneRequire root loopFuel rec path lockNode name (ds, s1))
        (oneRequire root loopFuel rec path lockNode name (ds, s2)).
Proof.
  intros Hrec H. unfold oneRequire.
  destruct (getLockPath root loopFuel path name) as [realPath| |]; simpl; auto.
  destruct (find root loopFuel name path) as [[matched|]| |]; simpl; auto.
  set (t1 := setVersion _ _ s1). set (t2 := setVersion _ _ s2).
  assert (Ht : sameLocals t1 t2) by (destruct H; split; assumption).
  specialize (Hrec (Str.split bar realPath) t1 t2 Ht).
  destruct (rec _ t1) as [[n1 u1]| |], (rec _ t2) as [[n2 u2]| |];
    simpl in *; try contradiction; auto.
  destruct Hrec as [-> [Hs Hp]]. split; [reflexivity|]. split; assumption.
Qed.

Lemma one_agree loopFuel fuel : forall path s1 s2,
  sameLocals s1 s2 ->
  agree (one root loopFuel fuel path s1) (one root loopFuel fuel path s2).
Proof.
  induction fuel as [|fuel IH]; intros path s1 s2 H; cbn [one].
  - exact I.
  - destruct (getLockPath root loopFuel (removelast path) (last path ""))
      as [lockOnePath| |]; simpl; auto.
    destruct H as [Hs Hp]. rewrite Hs.
    destruct (Str.mem lockOnePath (stack s2)).
    { simpl. repeat split; assumption. }
    destruct (find root loopFuel (last path "") (removelast path))
      as [[lockNode|]| |]; simpl; auto.
    rewrite Hp. destruct (Obj.get (processed s2) lockOnePath) as [ds|].
    { simpl. split; [reflexivity|]. split; simpl; congruence. }
    assert (Hpush : sameLocals (pushStack lockOnePath s1)
                               (pushStack lockOnePath s2))
      by (split; simpl; congruence).
    pose proof (forEach_agree
                  (oneRequire root loopFuel (one root loopFuel fuel) path lockNode)
                  (Obj.keys (lrequires lockNode))
                  (fun k a t1 t2 Ht =>
                     oneRequire_agree loopFuel _ path lockNode k a t1 t2 IH Ht)
                  [] _ _ Hpush) as Hf.
    destruct (forEach _ _ ([], pushStack lockOnePath s1)) as [[d1 u1]| |],
             (forEach _ _ ([], pushStack lockOnePath s2)) as [[d2 u2]| |];
      simpl in *; try contradiction; auto.
    destruct Hf as [-> [Hs' Hp']]. split; [reflexivity|].
    split; simpl; congruence.
Qed.

(** The tree a build returns, without the globals it leaves. *)
Definition treeOf (r : result (node * globals)) : result node :=
  p <- r ;; Ok (fst p).

Lemma generateDependencyTree_globals loopFuel fuel g1 g2 :
  treeOf (generateDependencyTree root loopFuel fuel g1) =
  treeOf (generateDependencyTree root loopFuel fuel g2).
Proof.
  unfold generateDependencyTree.
  assert (H : sameLocals (St [] [] g1) (St [] [] g2)) by (split; reflexivity).
  apply (one_agree loopFuel fuel []) in H.
  destruct (one root loopFuel fuel [] (St [] [] g1)) as [[d1 u1]| |],
           (one root loopFuel fuel [] (St [] [] g2)) as [[d2 u2]| |];
    simpl in *; try contradiction; auto.
  - destruct H as [-> _]. reflexivity.
  - now subst.
Qed.

(** *** The globals only grow *)

Lemma get_set_same {V} (o : Obj.t V) k v : Obj.get (Obj.set o k v) k = Some v.
Proof.
  induction o as [|[k0 v0] r IH]; simpl.
  - now rewrite String.eqb_refl.
  - destruct (String.eqb k0 k) eqn:E; simpl; rewrite E; auto.
Qed.

Lemma get_set_other {V} (o : Obj.t V) k k' v :
  k <> k' -> Obj.get (Obj.set o k v) k' = Obj.get o k'.
Proof.
  intros Hne. induction o as [|[k0 v0] r IH]; simpl.
  - apply String.eqb_neq in Hne. now rewrite Hne.
  - destruct (String.eqb k0 k) eqn:E; simpl.
    + apply String.eqb_eq in E. subst k0.
      apply String.eqb_neq in Hne. now rewrite Hne.
    + destruct (String.eqb k0 k'); auto.
Qed.

Lemma get_set_keeps {V} (o : Obj.t V) k k' v :
  Obj.get o k' <> None -> Obj.get (Obj.set o k v) k' <> None.
Proof.
  intros H. destruct (String.eqb k k') eqn:E.
  - apply String.eqb_eq in E. subst. rewrite get_set_same. discriminate.
  - apply String.eqb_neq in E. now rewrite get_set_other.
Qed.

Definition hasKey {V} (o : Obj.t V) (k : string) : Prop := Obj.get o k <> None.

(** Every key of the two indices is still there. *)
Definition keeps (g g' : globals) : Prop :=
  (forall k, hasKey (dependencyTrees g) k -> hasKey (dependencyTrees g') k) /\
  (forall k, hasKey (versions g) k -> hasKey (versions g') k).

Lemma keeps_refl g : keeps g g.
Proof. split; auto. Qed.

Lemma keeps_trans g1 g2 g3 : keeps g1 g2 -> keeps g2 g3 -> keeps g1 g3.
Proof. intros [A B] [C D]. split; auto. Qed.

Lemma keeps_setVersion k e st : keeps (glob st) (glob (setVersion k e st)).
Proof. split; simpl; auto. intros k'. apply get_set_keeps. Qed.

Lemma keeps_setDependencyTree sg ds st :
  keeps (glob st) (glob (setDependencyTree sg ds st)).
Proof. split; simpl; auto. intros k'. apply get_set_keeps. Qed.

Lemma forEach_keeps {A} (step : string -> A * state -> result (A * state)) ks :
  (forall k a s a' s', step k (a, s) = Ok (a', s') -> keeps (glob s) (glob s')) ->
  forall a s a' s',
    forEach step ks (a, s) = Ok (a', s') -> keeps (glob s) (glob s').
Proof.
  intros Hs. induction ks as [|k ks IH]; intros a s a' s' H; cbn [forEach] in H.
  - inversion H; subst. apply keeps_refl.
  - apply bind_Ok in H as [[a1 s1] [H1 H]].
    eapply keeps_trans; eauto.
Qed.

Lemma oneRequire_keeps loopFuel rec path lockNode name ds s ds' s' :
  (forall p t d t', rec p t = Ok (d, t') -> keeps (glob t) (glob t')) ->
  oneRequire root loopFuel rec path lockNode name (ds, s) = Ok (ds', s') ->
  keeps (glob s) (glob s').
Proof.
  intros Hrec H. unfold oneRequire in H.
  apply bind_Ok in H as [realPath [_ H]].
  apply bind_Ok in H as [[matched|] [_ H]]; [|discriminate].
  apply bind_Ok in H as [[nds t] [Hr H]]. inversion H; subst.
  eapply keeps_trans; [apply keeps_setVersion|].
  eapply keeps_trans; [eapply Hrec; eauto|].
  apply keeps_setDependencyTree.
Qed.

Lemma one_keeps loopFuel fuel : forall path st ds st',
  one root loopFuel fuel path st = Ok (ds, st') -> keeps (glob st) (glob st').
Proof.
  induction fuel as [|fuel IH]; intros path st ds st' H; cbn [one] in H.
  - discriminate.
  - apply bind_Ok in H as [lockOnePath [_ H]]. revert H.
    destruct (Str.mem lockOnePath (stack st)).
    { intros H. inversion H; subst. apply keeps_refl. }
    intros H. apply bind_Ok in H as [[lockNode|] [_ H]]; [|discriminate].
    revert H. destruct (Obj.get _ lockOnePath).
    { intros H. inversion H; subst. apply keeps_refl. }
    intros H. apply bind_Ok in H as [[d t] [Hf H]]. inversion H; subst.
    apply forEach_keeps in Hf; [exact Hf|].
    intros k a s a' s'. now apply oneRequire_keeps.
Qed.

Lemma generateDependencyTree_keeps loopFuel fuel g tree g' :
  generateDependencyTree root loopFuel fuel g = Ok (tree, g') -> keeps g g'.
Proof.
  unfold generateDependencyTree. intros H.
  apply bind_Ok in H as [[res st] [H1 H]]. inversion H; subst.
  apply one_keeps in H1. simpl in H1.
  eapply keeps_trans; [exact H1|]. apply keeps_setDependencyTree.
Qed.

(** *** Every build finishes when no required name is empty *)

Lemma keysFrom_sub {V} (o : Obj.t V) : forall seen k,
  In k (Obj.keysFrom seen o) -> In k (List.map fst o).
Proof.
  induction o as [|[k0 v0] r IH]; intros seen k H; simpl in *.
  - contradiction.
  - destruct (Str.mem k0 seen).
    + right. eauto.
    + destruct H as [H|H]; [now left | right; eauto].
Qed.

Lemma namedRequires_keys e k :
  namedRequires e = true -> In k (Obj.keys (lrequires e)) -> k <> "".
Proof.
  destruct e as [n v rq deps]. simpl. intros H Hk.
  apply andb_true_iff in H as [H _].
  apply keysFrom_sub in Hk. apply in_map_iff in Hk as ([k' v'] & <- & Hin).
  rewrite forallb_forall in H. specialize (H _ Hin). simpl in *.
  intros E. rewrite E in H. discriminate.
Qed.

Lemma namedRequires_get e k d :
  namedRequires e = true -> Obj.get (ldependencies e) k = Some d ->
  namedRequires d = true.
Proof.
  destruct e as [n v rq deps]. simpl. intros H.
  apply andb_true_iff in H as [_ H]. revert H.
  induction deps as [|[k0 d0] r IH]; simpl; intros H Hg; [discriminate|].
  apply andb_true_iff in H as [H0 H].
  destruct (String.eqb k0 k); [now inversion Hg; subst | auto].
Qed.

Lemma namedRequires_getNode path :
  namedRequires root = true -> namedRequires (getNode root path) = true.
Proof.
  unfold getNode. generalize root.
  induction path as [|p path IH]; intros nd H; simpl; [assumption|].
  apply IH. destruct (Obj.get (ldependencies nd) p) eqn:E; [|assumption].
  eapply namedRequires_get; eauto.
Qed.

Lemma empty_is_lockPath : In "" (lockPaths root).
Proof. now left. Qed.

(** The loop of [getLockPath] stops within one turn per name of the path,
    on a lock-path or on the empty string, when the name is not empty. *)
Lemma searchLockPath_returns name : name <> "" ->
  forall searchPath fuel,
    List.length searchPath < fuel ->
    exists r, searchLockPath root fuel searchPath name = Ok r /\
              In r (lockPaths root).
Proof.
  intros Hn searchPath.
  remember (List.length searchPath) as n eqn:En. revert searchPath En.
  induction n as [|n IH]; intros searchPath En fuel Hf;
    (destruct fuel as [|fuel]; [lia|]); cbn [searchLockPath].
  - destruct (Str.mem _ (lockPaths root)) eqn:M.
    + destruct (String.eqb _ "") eqn:E.
      * apply String.eqb_eq, StrFacts.join_snoc_empty in E as [_ E].
        contradiction.
      * eexists. split; [reflexivity|]. now apply StrFacts.mem_In.
    + destruct searchPath; [|discriminate].
      exists "". split; [reflexivity | apply empty_is_lockPath].
  - destruct (Str.mem _ (lockPaths root)) eqn:M.
    + destruct (String.eqb _ "") eqn:E.
      * apply String.eqb_eq, StrFacts.join_snoc_empty in E as [_ E].
        contradiction.
      * eexists. split; [reflexivity|]. now apply StrFacts.mem_In.
    + destruct searchPath as [|s sp]; [discriminate|].
      apply IH; [|lia].
      assert (Hne : s :: sp <> []) by discriminate.
      destruct (exists_last Hne) as (l & a & E). rewrite E in *.
      rewrite removelast_last. rewrite length_app in En. simpl in En. lia.
Qed.

Lemma getLockPath_returns path name fuel :
  name <> "" -> List.length path < fuel ->
  exists r, getLockPath root fuel path name = Ok r /\ In r (lockPaths root).
Proof.
  intros Hn Hf. unfold getLockPath.
  destruct path.
  - pose proof Hn as Hb. apply String.eqb_neq in Hb. rewrite Hb.
    now apply searchLockPath_returns.
  - now apply searchLockPath_returns.
Qed.

(** The paths [one] is called on: the root path, or the names of a
    lock-path. *)
Definition callPath (path : list string) : Prop :=
  path = [] \/ exists r, In r (lockPaths root) /\ path = Str.split bar r.

Lemma getLockPath_callPath path fuel :
  callPath path -> 0 < fuel ->
  exists r, getLockPath root fuel (removelast path) (last path "") = Ok r /\
            In r (lockPaths root).
Proof.
  intros [->|(r & Hr & ->)] Hf.
  - exists "". split; [reflexivity | apply empty_is_lockPath].
  - exists r. split; [|assumption].
    pose proof (StrFacts.split_nonempty bar r) as Hne.
    pose proof (StrFacts.join_split bar r) as Hj.
    rewrite (app_removelast_last "" Hne) in Hj.
    destruct fuel as [|fuel]; [lia|].
    destruct (String.eqb r "") eqn:E.
    + apply String.eqb_eq in E. subst r. reflexivity.
    + assert (Hs : searchLockPath root (S fuel)
                     (removelast (Str.split bar r))
                     (last (Str.split bar r) "") = Ok r).
      { cbn [searchLockPath]. rewrite Hj.
        apply StrFacts.mem_In in Hr. now rewrite Hr, E. }
      unfold getLockPath.
      destruct (removelast (Str.split bar r)) eqn:R; [|exact Hs].
      destruct (String.eqb (last (Str.split bar r) "") "") eqn:L; [|exact Hs].
      apply String.eqb_eq in L. rewrite L in Hj. simpl in Hj.
      subst r. discriminate.
Qed.

Lemma find_returns fuel name path r :
  getLockPath root fuel path name = Ok r ->
  exists e, find root fuel name path = Ok (Some e) /\
            (e = root \/ e = getNode root (Str.split bar r)).
Proof.
  intros H. unfold find.
  destruct path; [destruct (String.eqb name "")|]; try rewrite H; simpl; eauto.
Qed.

(** The lock-paths not on the stack: what is left to expand. *)
Definition remaining (stk : list string) : nat :=
  List.length (filter (fun p => negb (Str.mem p stk)) (lockPaths root)).

Lemma filter_length_lt {A} (f f' : A -> bool) (l : list A) p :
  (forall x, f' x = true -> f x = true) ->
  In p l -> f p = true -> f' p = false ->
  List.length (filter f' l) < List.length (filter f l).
Proof.
  intros Himp. 
  assert (Hle : forall l0, List.length (filter f' l0) <= List.length (filter f l0)).
  { induction l0 as [|x r IH]; simpl; [lia|].
    destruct (f' x) eqn:E'.
    - rewrite (Himp _ E'). simpl. lia.
    - destruct (f x); simpl; lia. }
  induction l as [|x r IH]; simpl; intros Hin Hf Hf'; [contradiction|].
  destruct Hin as [->|Hin].
  - rewrite Hf, Hf'. simpl. specialize (Hle r). lia.
  - specialize (IH Hin Hf Hf').
    destruct (f' x) eqn:E'.
    + rewrite (Himp _ E'). simpl. lia.
    + destruct (f x); simpl; lia.
Qed.

Lemma mem_snoc x stk p :
  Str.mem x (stk ++ [p]) = Str.mem x stk || String.eqb p x.
Proof.
  induction stk as [|y r IH]; simpl.
  - now rewrite orb_false_r.
  - now rewrite IH, orb_assoc.
Qed.

Lemma remaining_push stk p :
  In p (lockPaths root) -> Str.mem p stk = false ->
  remaining (stk ++ [p]) < remaining stk.
Proof.
  intros Hin Hm. unfold remaining.
  apply filter_length_lt with (p := p); auto.
  - intros x. rewrite mem_snoc, negb_orb. intros H.
    now apply andb_true_iff in H as [H _].
  - now rewrite Hm.
  - now rewrite mem_snoc, String.eqb_refl, orb_true_r.
Qed.

Lemma list_max_ge l x : In x l -> x <= list_max l.
Proof.
  induction l as [|y r IH]; simpl; intros H; [contradiction|].
  destruct H as [->|H]; [lia|]. apply IH in H. lia.
Qed.

Lemma callPath_length path : callPath path -> List.length path < loopBound root.
Proof.
  unfold loopBound. intros [->|(r & Hr & ->)]; [simpl; lia|].
  apply Nat.lt_succ_r. apply list_max_ge.
  apply in_map_iff. exists r. split; [reflexivity | exact Hr].
Qed.

Section Returns.

Variable loopFuel : nat.
Hypothesis named : namedRequires root = true.
Hypothesis loopFuel_enough : loopBound root <= loopFuel.

Lemma oneRequire_returns rec path lockNode name ds st :
  (forall p s, callPath p -> stack s = stack st ->
               exists d s', rec p s = Ok (d, s') /\ stack s' = stack s) ->
  callPath path -> name <> "" ->
  exists ds' st',
    oneRequire root loopFuel rec path lockNode name (ds, st) = Ok (ds', st') /\
    stack st' = stack st.
Proof.
  intros Hrec Hp Hn. unfold oneRequire.
  destruct (getLockPath_returns path name loopFuel Hn) as (realPath & Hg & Hin).
  { pose proof (callPath_length _ Hp). lia. }
  rewrite Hg. cbn [bind].
  destruct (find_returns _ _ _ _ Hg) as (matched & Hf & _).
  rewrite Hf. cbn [bind].
  destruct (Hrec (Str.split bar realPath)
              (setVersion (name ++ "@" ++ lversion matched)%string
                          (withoutDependencies matched) st))
    as (d & s' & Hr & Hs).
  - right. eauto.
  - reflexivity.
  - rewrite Hr. cbn [bind]. eexists _, _. split; [reflexivity|]. exact Hs.
Qed.

Lemma forEach_returns rec path lockNode stk :
  (forall p s, callPath p -> stack s = stk ->
               exists d s', rec p s = Ok (d, s') /\ stack s' = stack s) ->
  callPath path ->
  forall ks ds st,
    (forall k, In k ks -> k <> "") -> stack st = stk ->
    exists ds' st',
      forEach (oneRequire root loopFuel rec path lockNode) ks (ds, st)
        = Ok (ds', st') /\ stack st' = stk.
Proof.
  intros Hrec Hp. induction ks as [|k ks IH]; intros ds st Hks Hs;
    cbn [forEach].
  - eauto.
  - destruct (oneRequire_returns rec path lockNode k ds st)
      as (ds1 & st1 & H1 & Hs1); auto.
    + intros p s Hc E. apply Hrec; congruence.
    + apply Hks. now left.
    + rewrite H1. simpl. apply IH; [|congruence].
      intros k' Hk'. apply Hks. now right.
Qed.

Lemma one_returns : forall fuel path st,
  callPath path -> remaining (stack st) < fuel ->
  exists ds st', one root loopFuel fuel path st = Ok (ds, st') /\
                 stack st' = stack st.
Proof.
  induction fuel as [|fuel IH]; intros path st Hp Hf; [lia|].
  cbn [one].
  destruct (getLockPath_callPath path loopFuel Hp) as (r & Hg & Hin).
  { unfold loopBound in loopFuel_enough. lia. }
  rewrite Hg. simpl.
  destruct (Str.mem r (stack st)) eqn:M; [eauto|].
  destruct (find_returns _ _ _ _ Hg) as (lockNode & Hfind & Hnode).
  rewrite Hfind. simpl.
  assert (Hpop : removelast (stack st ++ [r]) = stack st)
    by apply removelast_last.
  destruct (Obj.get (processed st) r).
  { eexists _, _. split; [reflexivity|]. exact Hpop. }
  assert (Hnamed : namedRequires lockNode = true).
  { destruct Hnode as [->| ->]; [assumption|].
    now apply namedRequires_getNode. }
  destruct (forEach_returns (one root loopFuel fuel) path lockNode
              (stack st ++ [r])) with
      (ks := Obj.keys (lrequires lockNode)) (ds := @nil (option node))
      (st := pushStack r st) as (ds & st' & Hfe & Hs); auto.
  - intros p s Hc E. apply IH; [assumption|]. rewrite E.
    pose proof (remaining_push (stack st) r Hin M). lia.
  - intros k Hk. eapply namedRequires_keys; eauto.
  - rewrite Hfe. simpl. eexists _, _. split; [reflexivity|].
    simpl. now rewrite Hs.
Qed.

Lemma remaining_le stk : remaining stk <= List.length (lockPaths root).
Proof. unfold remaining. apply filter_length_le. Qed.

Lemma generateDependencyTree_returns fuel g :
  depthBound root <= fuel ->
  exists tree g', generateDependencyTree root loopFuel fuel g = Ok (tree, g').
Proof.
  intros Hf. unfold generateDependencyTree.
  destruct (one_returns fuel [] (St [] [] g)) as (ds & st' & H & _).
  - now left.
  - pose proof (remaining_le []). simpl. unfold depthBound in Hf.
    unfold lockPaths in *. lia.
  - rewrite H. simpl. eauto.
Qed.

End Returns.

End BuildFacts.

(** *** The builder on concrete lock files *)

Import Examples.

(** The edge that closes a cycle is an empty dependency list, and the state
    is left as it was. *)
Lemma cycle_edge_is_empty root loopFuel fuel path st lockOnePath :
  getLockPath root loopFuel (removelast path) (last path "") = Ok lockOnePath ->
  Str.mem lockOnePath (stack st) = true ->
  one root loopFuel (S fuel) path st = Ok ([], st).
Proof. intros Hg Hm. cbn [one]. rewrite Hg. cbn [bind]. now rewrite Hm. Qed.

(** C5, the code at the failing input.  The root requires [x] and the lock
    file has no entry for it: no error is raised; [find] falls back on the
    root itself, so [x] is given the version and the requirements of the
    root, the store gets the root's record under x@1.0.0, and the edge is
    cut as a cycle. *)
Theorem missing_module_not_reported :
  exists t g x,
    build missingLock noGlobals = Ok (t, g) /\
    dependencies t = [Some x] /\
    name x = "x" /\ version x = "1.0.0" /\
    requires x = [("x", "^1.0.0")] /\ dependencies x = [] /\
    Obj.get (versions g) "x@1.0.0" = Some (withoutDependencies missingLock).
Proof. do 3 eexists. conjuncts; vm_compute; reflexivity. Qed.

Lemma emptyName_search loopFuel :
  searchLockPath emptyNameLock loopFuel [] "" = Timeout.
Proof.
  induction loopFuel as [|n IH]; [reflexivity|].
  cbn [searchLockPath]. exact IH.
Qed.

Lemma emptyName_getLockPath loopFuel :
  getLockPath emptyNameLock loopFuel ["a"] "" = Timeout.
Proof.
  destruct loopFuel as [|n]; [reflexivity|].
  unfold getLockPath. cbn [searchLockPath]. apply emptyName_search.
Qed.

(** C6, the code at the failing input.  The package [a] requires the empty
    name: the search of [getLockPath] reaches the root path, finds the empty
    lock-path, takes the empty string it stored for no match and goes round
    again; no amount of fuel lets the build return. *)
Theorem empty_name_never_returns :
  forall loopFuel fuel g,
    generateDependencyTree emptyNameLock loopFuel fuel g = Timeout.
Proof.
  intros loopFuel fuel g. unfold generateDependencyTree.
  destruct fuel as [|[|fuel]]; [reflexivity| |];
    (destruct loopFuel as [|n]; [reflexivity|]).
  - reflexivity.
  - cbn [one]. 
    change (getLockPath emptyNameLock (S n) (removelast []) (last [] ""))
      with (@Ok string "").
    cbn [bind]. 
    change (Str.mem "" (stack (St [] [] g))) with false. cbv iota.
    change (find emptyNameLock (S n) (last [] "") (removelast []))
      with (Ok (Some emptyNameLock)).
    cbn [bind].
    change (Obj.get (processed (pushStack "" (St [] [] g))) "") with (@None (list (option node))).
    cbv iota.
    change (Obj.keys (lrequires emptyNameLock)) with ["a"].
    cbn [forEach]. unfold oneRequire at 1.
    change (getLockPath emptyNameLock (S n) [] "a") with (@Ok string "a").
    cbn [bind].
    change (find emptyNameLock (S n) "a" [])
      with (Ok (Some (entry "1.0.0" [("", "^1.0.0")] []))).
    cbn [bind].
    change (Str.split bar "a") with ["a"].
    cbn [one].
    change (getLockPath emptyNameLock (S n) (removelast ["a"]) (last ["a"] ""))
      with (@Ok string "a").
    cbn [bind]. 
    match goal with
    | |- context [Str.mem "a" ?s] => change (Str.mem "a" s) with false
    end.
    cbv iota.
    change (find emptyNameLock (S n) (last ["a"] "") (removelast ["a"]))
      with (Ok (Some (entry "1.0.0" [("", "^1.0.0")] []))).
    cbn [bind].
    match goal with
    | |- context [Obj.get ?p "a"] =>
        change (Obj.get p "a") with (@None (list (option node)))
    end.
    cbv iota.
    change (Obj.keys (lrequires (entry "1.0.0" [("", "^1.0.0")] []))) with [""].
    cbn [forEach]. unfold oneRequire at 1.
    rewrite emptyName_getLockPath. reflexivity.
Qed.

(** The cyclic lock file is built: below [b], the node for [a] that closes
    the cycle has an empty dependency list. *)
Lemma cyclic_lock_is_built :
  exists t g a b a',
    build cyclicLock noGlobals = Ok (t, g) /\
    dependencies t = [Some a] /\ name a = "a" /\
    dependencies a = [Some b] /\ name b = "b" /\
    dependencies b = [Some a'] /\ name a' = "a" /\
    dependencies a' = [].
Proof. do 5 eexists. conjuncts; vm_compute; reflexivity. Qed.

(** C9, as amended.  [processed] and [stack] start empty at every call of
    [generateDependencyTree], while [dependencyTrees] and [versions] are the
    module-level objects the previous call left: whatever they held is still
    there when the build returns, and since no build reads them the tree
    returned is the same from any other contents. *)
Theorem caches_scope :
  forall root loopFuel fuel g g2 tree g',
    generateDependencyTree root loopFuel fuel g = Ok (tree, g') ->
    keeps g g' /\
    treeOf (generateDependencyTree root loopFuel fuel g2) = Ok tree.
Proof.
  intros root loopFuel fuel g g2 tree g' H. split.
  - eapply generateDependencyTree_keeps; eauto.
  - rewrite (generateDependencyTree_globals root loopFuel fuel g2 g), H.
    reflexivity.
Qed.

Lemma caches_scope_witness :
  keeps afterPrev (globalsAfter (build curLock afterPrev)) /\
  treeOf (build curLock noGlobals) = Ok curTree.
Proof.
  apply (caches_scope curLock fuel fuel afterPrev noGlobals curTree
           (globalsAfter (build curLock afterPrev))).
  vm_compute. reflexivity.
Defined.

(** C9 as stated fails for [dependencyTrees]: in [relock] the build of the
    current lock file starts from the index the build of the previous one
    left.  The signature of the previous root is in it before and after the
    current build, which on its own would never have put it there. *)
Lemma dependencyTrees_shared_between_builds :
  hasKey (dependencyTrees afterPrev) (signature prevTree) /\
  hasKey (dependencyTrees (globalsAfter (build curLock afterPrev)))
         (signature prevTree) /\
  ~ hasKey (dependencyTrees (globalsAfter (build curLock noGlobals)))
           (signature prevTree).
Proof.
  conjuncts.
  - vm_compute. discriminate.
  - vm_compute. discriminate.
  - vm_compute. intros H. now apply H.
Qed.

End BuilderFacts.

(** ** The signature *)

Module SignatureFacts.
Import Examples NodeFacts.










(** Known answers: the signature of the empty array is the MD5 digest of
    its text, and the signature of the dependencies of [rangeOneTree], a
    single leaf x 1.2.3 required as ^1.2.0, is the digest of the text that
    [JSON.stringify] gives for that array; it is the signature that the
    root carries. *)
Lemma signature_known_answers :
  Json.stringify [] = "[]" /\
  getTreeSignature [] = "d751713988987e9331980363e24189ce" /\
  getTreeSignature (dependencies rangeOneTree)
    = "9395fc332b4caf16c25c7dff58aa2e9b" /\
  signature rangeOneTree = "9395fc332b4caf16c25c7dff58aa2e9b".
Proof. vm_compute. repeat split. Qed.


(** The requires of a node enter the signature of the array that holds it:
    the [x] cut as a circular reference and the leaf [x] have the same
    name, version, range and signature and no dependency, and their arrays
    have different signatures. *)
Lemma requires_enter_the_signature :
  exists a b,
    belowFirst selfRequiringTree = [Some a] /\
    dependencies leafTree = [Some b] /\
    name a = name b /\ version a = version b /\ semVer a = semVer b /\
    signature a = signature b /\
    dependencies a = [] /\ dependencies b = [] /\
    requires a <> requires b /\
    getTreeSignature (belowFirst selfRequiringTree)
      <> getTreeSignature (dependencies leafTree).
Proof.
  do 2 eexists. repeat (split; [reflexivity|]).
  split; vm_compute; discriminate.
Qed.

End SignatureFacts.

(** ** The hoister *)

Module HoistFacts.
Import Hoist Examples ResultFacts.

(** A slot that holds the variant being placed: nothing is done. *)
Lemma addAt_same nm ver var nd searchPath found :
  Obj.get (pdependencies nd) nm = Some found ->
  pvariant found = Some var ->
  addAt nm ver var nd searchPath = (nd, false).
Proof.
  destruct nd as [n v vr deps]. simpl. intros Hg Hv.
  rewrite Hg, Hv. simpl. now rewrite String.eqb_refl.
Qed.

(** A free slot: the variant is inserted there. *)
Lemma addAt_free nm ver var nd searchPath :
  Obj.get (pdependencies nd) nm = None ->
  addAt nm ver var nd searchPath = (insert nd nm ver var, true).
Proof. destruct nd as [n v vr deps]. simpl. intros Hg. now rewrite Hg. Qed.

(** A slot that holds another variant, and no property for the next part of
    the path: the branch of lines 438-441 inserts at the current node, into
    the slot that is taken. *)
Lemma addAt_dead_end nm ver var nd searchPath found :
  Obj.get (pdependencies nd) nm = Some found ->
  optEqbVariant (pvariant found) var = false ->
  Obj.get (pdependencies nd) (shiftKey searchPath) = None ->
  addAt nm ver var nd searchPath = (insert nd nm ver var, true).
Proof.
  destruct nd as [n v vr deps]. simpl. intros Hg Hv Hp.
  rewrite Hg, Hv.
  assert (Hd : forall l,
             Obj.get l (shiftKey searchPath) = None ->
             (fix descend (l : list (string * pnode))
                : option (list (string * pnode) * bool) :=
                match l with
                | [] => None
                | (k, c) :: r =>
                    if String.eqb k (shiftKey searchPath) then
                      let '(c', b) := addAt nm ver var c (List.tl searchPath) in
                      Some ((k, c') :: r, b)
                    else
                      match descend r with
                      | Some (r', b) => Some ((k, c) :: r', b)
                      | None => None
                      end
                end) l = None).
  { induction l as [|[k c] r IH]; simpl; [reflexivity|].
    destruct (String.eqb k (shiftKey searchPath)); [discriminate|].
    intros H. now rewrite (IH H). }
  now rewrite (Hd deps Hp).
Qed.

Lemma insert_replaces nd nm ver var :
  Obj.get (pdependencies (insert nd nm ver var)) nm
  = Some (PNode nm ver (Some var) []).
Proof.
  unfold insert. simpl.
  induction (pdependencies nd) as [|[k c] r IH]; simpl.
  - now rewrite String.eqb_refl.
  - destruct (String.eqb k nm) eqn:E; simpl; rewrite E; auto.
Qed.

(** C7, the code at the failing input.  The root requires [a] and [m] 1.0.0,
    [a] requires [b] and [m] 2.0.0, [b] requires [m] 3.0.0.  When [m] 3.0.0
    is placed for the path a, b, m, the slot [m] of the root and the slot [m]
    of [a] are taken and [a] has no slot [b] ([b] went to the root): the
    variant is written over [m] 2.0.0 under [a], which is then nowhere in the
    placement tree. *)
Theorem add_overwrites_other_variant :
  exists final,
    flattenTree threeVersionsTree = Ok final /\
    option_map pvariant (pnodeAt placedBefore ["a"; "m"])
      = Some (Some (variantM "2.0.0")) /\
    add "a|b|m" (variantM "3.0.0") placedBefore = final /\
    option_map pvariant (pnodeAt final ["a"; "m"])
      = Some (Some (variantM "3.0.0")) /\
    In (Some (variantM "2.0.0")) (placedVariants placedBefore) /\
    ~ In (Some (variantM "2.0.0")) (placedVariants final).
Proof.
  eexists. conjuncts; try (vm_compute; reflexivity).
  - vm_compute. tauto.
  - vm_compute. intros H.
    repeat (destruct H as [H|H]; [discriminate|]). exact H.
Qed.

End HoistFacts.

(** ** The records of the store *)

Module RecordsFacts.
Import Builder Hoist Assemble Records ResultFacts NodeFacts BuilderFacts.

Lemma recorded_unfold store nm v s t r g ds :
  recorded store (Node nm v s t r g ds)
  = isSome (Obj.get store (nm ++ "@" ++ v)%string) && noBar nm && noBar v
    && allRecorded store ds.
Proof.
  cbn [recorded]. f_equal.
  induction ds as [|[c|] r' IH]; cbn [allRecorded]; [reflexivity| |];
    now rewrite IH.
Qed.

Lemma isSome_hasKey {V} (o : Obj.t V) k : isSome (Obj.get o k) = true <-> hasKey o k.
Proof.
  unfold hasKey. destruct (Obj.get o k); simpl; split; congruence.
Qed.

(** A store that keeps its keys keeps what is recorded. *)
Lemma recorded_mono store store' :
  (forall k, hasKey store k -> hasKey store' k) ->
  forall n, recorded store n = true -> recorded store' n = true.
Proof.
  intros Hk n.
  induction n as [nm v s t r g ds IH] using node_induction.
  rewrite !recorded_unfold. intros H.
  apply andb_true_iff in H as [H Hds]. apply andb_true_iff in H as [H Hv].
  apply andb_true_iff in H as [Hs Hn].
  apply isSome_hasKey, Hk, isSome_hasKey in Hs. rewrite Hs, Hn, Hv. simpl.
  clear - IH Hds. induction IH as [|[c|] r' Hc Hr IHr]; simpl in *; auto.
  apply andb_true_iff in Hds as [H1 H2]. now rewrite (Hc H1), (IHr H2).
Qed.

Lemma allRecorded_mono store store' :
  (forall k, hasKey store k -> hasKey store' k) ->
  forall ds, allRecorded store ds = true -> allRecorded store' ds = true.
Proof.
  intros Hk. induction ds as [|[c|] r IH]; simpl; auto.
  intros H. apply andb_true_iff in H as [H1 H2].
  now rewrite (recorded_mono store store' Hk c H1), (IH H2).
Qed.

Lemma allRecorded_snoc store ds n :
  allRecorded store ds = true -> recorded store n = true ->
  allRecorded store (ds ++ [Some n]) = true.
Proof.
  induction ds as [|[c|] r IH]; simpl; intros H Hn.
  - now rewrite Hn.
  - apply andb_true_iff in H as [H1 H2]. now rewrite H1, IH.
  - auto.
Qed.

Lemma barFree_unfold nm v rq deps :
  barFree (LockEntry nm v rq deps) = true ->
  noBar v = true /\
  (forall k, In k (Obj.keys rq) -> noBar k = true) /\
  (forall k d, Obj.get deps k = Some d -> barFree d = true).
Proof.
  cbn [barFree]. intros H.
  apply andb_true_iff in H as [H Hd]. apply andb_true_iff in H as [Hv Hk].
  split; [assumption|]. split.
  - intros k Hin. apply keysFrom_sub in Hin.
    apply in_map_iff in Hin as ([k' x] & <- & Hin).
    rewrite forallb_forall in Hk. now apply (Hk _ Hin).
  - clear - Hd. induction deps as [|[k0 d0] r IH]; simpl; intros k d Hg;
      [discriminate|].
    apply andb_true_iff in Hd as [H0 Hd].
    destruct (String.eqb k0 k); [now inversion Hg; subst | eauto].
Qed.

Lemma barFree_version e : barFree e = true -> noBar (lversion e) = true.
Proof. destruct e. intros H. now apply barFree_unfold in H. Qed.

Lemma barFree_keys e k :
  barFree e = true -> In k (Obj.keys (lrequires e)) -> noBar k = true.
Proof. destruct e. intros H. apply barFree_unfold in H. now apply H. Qed.

Lemma barFree_get e k d :
  barFree e = true -> Obj.get (ldependencies e) k = Some d -> barFree d = true.
Proof. destruct e. intros H. apply barFree_unfold in H. apply H. Qed.

Lemma barFree_getNode root path :
  barFree root = true -> barFree (getNode root path) = true.
Proof.
  unfold getNode. generalize root.
  induction path as [|p path IH]; intros nd H; simpl; [assumption|].
  apply IH. destruct (Obj.get (ldependencies nd) p) eqn:E; [|assumption].
  eapply barFree_get; eauto.
Qed.

Lemma find_barFree root fuel name path e :
  barFree root = true ->
  find root fuel name path = Ok (Some e) -> barFree e = true.
Proof.
  intros Hb H. unfold find in H.
  assert (G : forall r, (lockPath <- r ;;
                         Ok (Some (getNode root (Str.split bar lockPath))))
                        = Ok (Some e) -> barFree e = true).
  { intros r G. apply bind_Ok in G as [p [_ G]]. inversion G.
    now apply barFree_getNode. }
  destruct path; [destruct (String.eqb name "")|]; eauto.
  now inversion H; subst.
Qed.

(** *** What the builder records *)

Section BuilderRecords.

Variable root : lockEntry.
Variable loopFuel : nat.
Hypothesis root_barFree : barFree root = true.

(** Every memoized dependency list is recorded in the store. *)
Definition memoOk (st : state) : Prop :=
  forall p ds, Obj.get (processed st) p = Some ds ->
               allRecorded (versions (glob st)) ds = true.

Lemma memoOk_keeps st st' :
  processed st' = processed st -> keeps (glob st) (glob st') ->
  memoOk st -> memoOk st'.
Proof.
  intros Hp [_ Hk] H p ds Hg. rewrite Hp in Hg.
  eapply allRecorded_mono; [exact Hk | eauto].
Qed.

Definition accOk (acc : list (option node) * state) : Prop :=
  allRecorded (versions (glob (snd acc))) (fst acc) = true /\ memoOk (snd acc).

Lemma oneRequire_recorded fuel path lockNode name acc acc' :
  (forall p s d s', Builder.one root loopFuel fuel p s = Ok (d, s') -> memoOk s ->
                    allRecorded (versions (glob s')) d = true /\ memoOk s') ->
  barFree lockNode = true ->
  In name (Obj.keys (lrequires lockNode)) ->
  oneRequire root loopFuel (Builder.one root loopFuel fuel) path lockNode name acc
    = Ok acc' ->
  accOk acc -> accOk acc'.
Proof.
  intros IH Hb Hin H [Hds Hm]. destruct acc as [ds st]. simpl in Hds, Hm.
  unfold oneRequire in H.
  apply bind_Ok in H as [realPath [_ H]].
  apply bind_Ok in H as [[matched|] [Hf H]]; [|discriminate].
  apply bind_Ok in H as [[nds t] [Hr H]]. inversion H; subst. clear H.
  pose proof (find_barFree _ _ _ _ _ root_barFree Hf) as Hmb.
  set (tag := (name ++ "@" ++ lversion matched)%string) in *.
  set (st1 := setVersion tag (withoutDependencies matched) st) in *.
  assert (Hm1 : memoOk st1).
  { apply (memoOk_keeps st st1); auto. apply keeps_setVersion. }
  destruct (IH _ _ _ _ Hr Hm1) as [Hnds Hmt].
  pose proof (one_keeps root loopFuel fuel _ _ _ _ Hr) as [_ Hk].
  split; simpl.
  - apply allRecorded_snoc.
    + eapply allRecorded_mono; [|exact Hds].
      intros k Hk0. apply Hk. simpl. now apply get_set_keeps.
    + rewrite recorded_unfold.
      rewrite Hnds, (barFree_version _ Hmb), (barFree_keys _ _ Hb Hin).
      assert (Hs : hasKey (versions (glob t)) tag).
      { apply Hk. simpl. unfold hasKey. rewrite get_set_same. discriminate. }
      apply isSome_hasKey in Hs. fold tag. now rewrite Hs.
  - apply (memoOk_keeps t); auto. apply keeps_setDependencyTree.
Qed.

Lemma forEach_recorded fuel path lockNode :
  (forall p s d s', Builder.one root loopFuel fuel p s = Ok (d, s') -> memoOk s ->
                    allRecorded (versions (glob s')) d = true /\ memoOk s') ->
  barFree lockNode = true ->
  forall ks acc acc',
    (forall k, In k ks -> In k (Obj.keys (lrequires lockNode))) ->
    forEach (oneRequire root loopFuel (Builder.one root loopFuel fuel) path lockNode)
            ks acc = Ok acc' ->
    accOk acc -> accOk acc'.
Proof.
  intros IH Hb. induction ks as [|k ks IHk]; intros acc acc' Hks H Hok;
    cbn [forEach] in H.
  - now inversion H; subst.
  - apply bind_Ok in H as [acc1 [H1 H]].
    apply (IHk acc1 acc'); auto.
    + intros k' Hk'. apply Hks. now right.
    + eapply oneRequire_recorded; eauto. apply Hks. now left.
Qed.

Lemma one_recorded : forall fuel path st ds st',
  Builder.one root loopFuel fuel path st = Ok (ds, st') ->
  memoOk st ->
  allRecorded (versions (glob st')) ds = true /\ memoOk st'.
Proof.
  induction fuel as [|fuel IH]; intros path st ds st' H Hm; cbn [Builder.one] in H.
  - discriminate.
  - apply bind_Ok in H as [lockOnePath [_ H]]. revert H.
    destruct (Str.mem lockOnePath (stack st)).
    { intros H. inversion H; subst. split; [reflexivity | assumption]. }
    intros H. apply bind_Ok in H as [[lockNode|] [Hf H]]; [|discriminate].
    revert H. destruct (Obj.get _ lockOnePath) eqn:Ep.
    { intros H. inversion H; subst. split.
      - apply (Hm lockOnePath). exact Ep.
      - intros p d. apply Hm. }
    intros H. apply bind_Ok in H as [[d t] [Hfe H]]. inversion H; subst.
    assert (Hacc : accOk (ds, t)).
    { apply (forEach_recorded fuel path lockNode IH
               (find_barFree _ _ _ _ _ root_barFree Hf)
               (Obj.keys (lrequires lockNode)) ([], pushStack lockOnePath st));
        auto.
      split; [reflexivity|]. intros p ds0. apply Hm. }
    destruct Hacc as [Hd Ht]. simpl in Hd, Ht. split; [exact Hd|].
    intros p ds0. simpl.
    destruct (String.eqb lockOnePath p) eqn:E.
    + apply String.eqb_eq in E. subst p. rewrite get_set_same.
      intros G. now inversion G; subst.
    + apply String.eqb_neq in E. rewrite get_set_other by assumption.
      apply Ht.
Qed.

Lemma generateDependencyTree_recorded fuel g tree g' :
  generateDependencyTree root loopFuel fuel g = Ok (tree, g') ->
  allRecorded (versions g') (dependencies tree) = true.
Proof.
  unfold generateDependencyTree. intros H.
  apply bind_Ok in H as [[res st] [H1 H]]. inversion H; subst. simpl.
  apply one_recorded in H1 as [H1 _]; [exact H1|].
  intros p ds. simpl. discriminate.
Qed.

End BuilderRecords.

(** *** What the differ keeps recorded *)

Definition optRecorded (store : Obj.t lockEntry) (e : option node) : bool :=
  match e with
  | Some d => recorded store d
  | None => true
  end.

Lemma recorded_dependencies store n :
  recorded store n = true -> allRecorded store (dependencies n) = true.
Proof.
  destruct n. rewrite recorded_unfold. intros H.
  now apply andb_true_iff in H as [_ H].
Qed.

Lemma recorded_withDependencies store n ds :
  recorded store n = true -> allRecorded store ds = true ->
  recorded store (withDependencies n ds) = true.
Proof.
  destruct n. unfold withDependencies. rewrite !recorded_unfold. simpl.
  intros H Hds. apply andb_true_iff in H as [H _]. now rewrite H, Hds.
Qed.

Lemma findFrom_recorded store ds : forall i k j d,
  allRecorded store ds = true ->
  Relock.findFrom i ds k = Ok (Some (j, d)) -> recorded store d = true.
Proof.
  induction ds as [|[c|] r IH]; simpl; intros i k j d Ha H; try discriminate.
  apply andb_true_iff in Ha as [Hc Hr].
  destruct (String.eqb (name c) k).
  - now inversion H; subst.
  - eauto.
Qed.

Lemma find_recorded store ds k e :
  allRecorded store ds = true ->
  Relock.find ds k = Ok e -> optRecorded store e = true.
Proof.
  unfold Relock.find. intros Ha H.
  apply bind_Ok in H as [[[i d]|] [Hf H]]; inversion H; subst; simpl; auto.
  eapply findFrom_recorded; eauto.
Qed.

Lemma getNode_cons t p rest c :
  Relock.getNode t (p :: rest) = Ok (Some c) ->
  exists i n, Relock.findFrom 0 (dependencies t) p = Ok (Some (i, n)) /\
              Relock.getNode n rest = Ok (Some c).
Proof.
  unfold Relock.getNode. simpl. intros H.
  apply bind_Ok in H as [r [H E]].
  apply bind_Ok in H as [[[i n]|] [Hf H]].
  - exists i, n. split; [assumption|].
    apply bind_Ok in H as [r' [Hg H]]. rewrite Hg. simpl.
    inversion H; subst. destruct r' as [[l q]|]; simpl in *; congruence.
  - inversion H; subst. discriminate.
Qed.

Lemma getNode_recorded store path : forall t c,
  allRecorded store (dependencies t) = true ->
  Relock.getNode t path = Ok (Some c) ->
  allRecorded store (dependencies c) = true /\
  (path <> [] -> recorded store c = true).
Proof.
  induction path as [|p rest IH]; intros t c Ha H.
  - unfold Relock.getNode in H. simpl in H. inversion H; subst.
    split; [assumption | congruence].
  - apply getNode_cons in H as (i & n & Hf & Hg).
    pose proof (findFrom_recorded _ _ _ _ _ _ Ha Hf) as Hn.
    destruct (IH n c (recorded_dependencies _ _ Hn) Hg) as [H1 H2].
    split; [assumption|]. intros _.
    destruct rest as [|q rest'].
    + unfold Relock.getNode in Hg. simpl in Hg. now inversion Hg; subst.
    + apply H2. discriminate.
Qed.

Section RelockRecords.

Variable projectFiles : list string.
Variable regexFound : string -> string -> bool.
Variables prevTree curTree : node.
Variable store : Obj.t lockEntry.
Hypothesis prev_recorded : allRecorded store (dependencies prevTree) = true.
Hypothesis cur_recorded : allRecorded store (dependencies curTree) = true.

Lemma mapKeys_recorded (step : string -> result (option node)) ks :
  (forall k e, step k = Ok e -> optRecorded store e = true) ->
  forall ds, Relock.mapKeys step ks = Ok ds -> allRecorded store ds = true.
Proof.
  intros Hs. induction ks as [|k ks IH]; intros ds H; simpl in H.
  - now inversion H.
  - apply bind_Ok in H as [e [He H]]. apply bind_Ok in H as [es [Hes H]].
    inversion H; subst. specialize (Hs _ _ He). specialize (IH _ Hes).
    destruct e as [d|]; simpl in *; [now rewrite Hs, IH | assumption].
Qed.

Lemma mix_recorded : forall fuel path m,
  Relock.mix projectFiles regexFound prevTree curTree fuel path = Ok m ->
  allRecorded store (dependencies m) = true /\
  (path <> [] -> recorded store m = true).
Proof.
  induction fuel as [|fuel IH]; intros path m H; simpl in H; [discriminate|].
  apply bind_Ok in H as [[curNode|] [Hc H]];
    apply bind_Ok in H as [prevNode [Hp H]]; [|discriminate].
  apply bind_Ok in H as [ds [Hds H]]. inversion H; subst. clear H.
  destruct (getNode_recorded store path _ _ cur_recorded Hc) as [Hcd Hcr].
  assert (Hall : allRecorded store ds = true).
  { eapply mapKeys_recorded; [|exact Hds].
    intros k e He. unfold Relock.mixKey in He. cbv zeta in He.
    destruct prevNode as [prevNode|]; [|discriminate].
    destruct (getNode_recorded store path _ _ prev_recorded Hp) as [Hpd _].
    revert He.
    destruct (Proto.inherited _ _); [discriminate|].
    destruct (Relock.falsy _); [intros He; eapply find_recorded; [|exact He]; assumption|].
    destruct (Relock.notPatch _ _); [intros He; eapply find_recorded; [|exact He]; assumption|].
    destruct (negb _ || _); [|intros He; eapply find_recorded; [|exact He]; assumption].
    intros He.
    apply bind_Ok in He as [m' [Hm' He]]. inversion He; subst. simpl.
    apply IH in Hm' as [_ Hm']. apply Hm'. now destruct path. }
  split; [exact Hall|].
  intros Hne. apply recorded_withDependencies; auto.
Qed.

Lemma relockTree_recorded mixed :
  Relock.relockTree projectFiles regexFound prevTree curTree = Ok (Some mixed) ->
  allRecorded store (dependencies mixed) = true.
Proof.
  intros H. apply RelockFacts.relockTree_mix in H as (m & E & Hm).
  inversion E; subst. now apply mix_recorded in Hm.
Qed.

End RelockRecords.

(** *** What the hoister places *)

Section PnodeInduction.

Variable P : pnode -> Prop.

Hypothesis step :
  forall n v vr deps,
    Forall (fun kv : string * pnode => P (snd kv)) deps ->
    P (PNode n v vr deps).

Fixpoint pnode_induction (t : pnode) : P t :=
  match t with
  | PNode n v vr deps =>
      @step n v vr deps
        ((fix each (l : list (string * pnode))
            : Forall (fun kv : string * pnode => P (snd kv)) l :=
            match l with
            | [] => @Forall_nil _ _
            | kv :: r => @Forall_cons _ _ kv r (pnode_induction (snd kv)) (each r)
            end) deps)
  end.

End PnodeInduction.

Lemma split_prefix a r :
  noBar a = true ->
  Str.split bar (a ++ String bar r)%string = a :: Str.split bar r.
Proof.
  unfold noBar. induction a as [|c a IH]; simpl; intros H.
  - reflexivity.
  - apply negb_true_iff, orb_false_iff in H as [Hc Ha].
    rewrite Hc.
    rewrite IH by (now rewrite Ha). reflexivity.
Qed.

(** The first two pieces of a variant are the name and the version. *)
Lemma split_variant nm v sg :
  noBar nm = true -> noBar v = true ->
  Str.split bar (nm ++ "|" ++ v ++ "|" ++ sg)%string
  = nm :: v :: Str.split bar sg.
Proof.
  intros Hn Hv.
  change (nm ++ "|" ++ v ++ "|" ++ sg)%string
    with (nm ++ String bar (v ++ String bar sg))%string.
  now rewrite (split_prefix nm _ Hn), (split_prefix v _ Hv).
Qed.

Section HoistRecords.

Variable store : Obj.t lockEntry.

(** A module whose variant starts with a name and a version free of bars
    that have a record in the store. *)
Definition moduleOk (m : module) : Prop :=
  exists nm v sg,
    variant m = (nm ++ "|" ++ v ++ "|" ++ sg)%string /\
    noBar nm = true /\ noBar v = true /\
    isSome (Obj.get store (nm ++ "@" ++ v)%string) = true.

Definition indexOk (index : Obj.t module) : Prop :=
  Forall (fun kv : string * module => moduleOk (snd kv)) index.

Lemma get_Forall {V} (Q : V -> Prop) (o : Obj.t V) k v :
  Forall (fun kv : string * V => Q (snd kv)) o ->
  Obj.get o k = Some v -> Q v.
Proof.
  induction o as [|[k0 v0] r IH]; simpl; intros H Hg; [discriminate|].
  inversion H; subst. destruct (String.eqb k0 k); [|auto].
  now inversion Hg; subst.
Qed.

Lemma set_Forall {V} (Q : V -> Prop) (o : Obj.t V) k v :
  Forall (fun kv : string * V => Q (snd kv)) o -> Q v ->
  Forall (fun kv : string * V => Q (snd kv)) (Obj.set o k v).
Proof.
  induction o as [|[k0 v0] r IH]; simpl; intros H Hv.
  - constructor; [exact Hv | constructor].
  - inversion H; subst. destruct (String.eqb k0 k); constructor; auto.
Qed.

Lemma indexOne_ok dependency path index :
  recorded store dependency = true -> indexOk index ->
  indexOk (indexOne dependency path index).
Proof.
  intros Hr Hi. unfold indexOne. apply set_Forall; [exact Hi|].
  destruct dependency as [nm v s t r g ds]. rewrite recorded_unfold in Hr.
  apply andb_true_iff in Hr as [Hr _]. apply andb_true_iff in Hr as [Hr Hv].
  apply andb_true_iff in Hr as [Hs Hn].
  destruct (Obj.get index _) as [m|] eqn:E.
  - apply (get_Forall moduleOk) in E; [|exact Hi]. exact E.
  - exists nm, v, g. simpl. auto.
Qed.

Lemma buildIndexes_ok nd : forall path index index',
  allRecorded store (dependencies nd) = true -> indexOk index ->
  buildIndexes nd path index = Ok index' -> indexOk index'.
Proof.
  induction nd as [nm v s t r g ds IH] using node_induction.
  intros path index index' Ha. cbn [buildIndexes]. simpl in Ha.
  revert index index' Ha.
  induction IH as [|o r' Ho Hr IHr]; intros index index' Ha Hi H.
  - now inversion H; subst.
  - destruct o as [c|]; [|discriminate]. simpl in Ha.
    apply andb_true_iff in Ha as [Hc Ha].
    apply bind_Ok in H as [index1 [H1 H]].
    apply (IHr index1 index' Ha); [|exact H].
    apply (Ho _ _ _ (recorded_dependencies _ _ Hc)) in H1; [exact H1|].
    now apply indexOne_ok.
Qed.

Lemma insertSorted_Forall (Q : module -> Prop) m l :
  Q m -> Forall Q l -> Forall Q (insertSorted m l).
Proof.
  intros Hm. induction l as [|x r IH]; simpl; intros H.
  - constructor; auto.
  - inversion H; subst. destruct (compare m x); repeat constructor; auto.
Qed.

Lemma sortModules_Forall (Q : module -> Prop) l :
  Forall Q l -> Forall Q (sortModules l).
Proof.
  unfold sortModules.
  assert (G : forall acc, Forall Q acc -> Forall Q l ->
                          Forall Q (fold_left (fun a m => insertSorted m a) l acc)).
  { induction l as [|m r IH]; simpl; intros acc Ha H; [exact Ha|].
    inversion H; subst. apply IH; [|assumption].
    now apply insertSorted_Forall. }
  apply G. constructor.
Qed.

Fixpoint placedAll (l : list (string * pnode)) : bool :=
  match l with
  | [] => true
  | (_, c) :: r =>
      isSome (Obj.get store (tagOf (pname c) (pversion c)))
      && placedRecorded store c && placedAll r
  end.

Lemma placedRecorded_unfold n v vr deps :
  placedRecorded store (PNode n v vr deps) = placedAll deps.
Proof.
  cbn [placedRecorded].
  induction deps as [|[k c] r IH]; simpl; [reflexivity | now rewrite IH].
Qed.

Lemma placedAll_set deps k c :
  placedAll deps = true ->
  isSome (Obj.get store (tagOf (pname c) (pversion c))) = true ->
  placedRecorded store c = true ->
  placedAll (Obj.set deps k c) = true.
Proof.
  intros H Hs Hc. induction deps as [|[k0 c0] r IH]; simpl in *.
  - now rewrite Hs, Hc.
  - apply andb_true_iff in H as [H0 Hr].
    destruct (String.eqb k0 k); simpl.
    + now rewrite Hs, Hc, Hr.
    + now rewrite H0, IH.
Qed.

Lemma insert_recorded nd nm ver var :
  placedRecorded store nd = true ->
  isSome (Obj.get store (tagOf nm ver)) = true ->
  placedRecorded store (insert nd nm ver var) = true.
Proof.
  destruct nd as [n v vr deps]. unfold insert. simpl pdependencies.
  rewrite !placedRecorded_unfold. intros H Hs.
  apply placedAll_set; auto.
Qed.

(** The descent of [addAt] into the child [part], as a function of its own. *)
Fixpoint inChild (f : pnode -> pnode * bool) (part : string)
    (l : list (string * pnode)) : option (list (string * pnode) * bool) :=
  match l with
  | [] => None
  | (k, c) :: r =>
      if String.eqb k part then
        let '(c', b) := f c in Some ((k, c') :: r, b)
      else
        match inChild f part r with
        | Some (r', b) => Some ((k, c) :: r', b)
        | None => None
        end
  end.

Lemma addAt_unfold nm ver var n v vr deps searchPath :
  addAt nm ver var (PNode n v vr deps) searchPath
  = match Obj.get deps nm with
    | Some found =>
        if optEqbVariant (pvariant found) var then (PNode n v vr deps, false)
        else
          match inChild (fun c => addAt nm ver var c (List.tl searchPath))
                        (shiftKey searchPath) deps with
          | Some (deps', b) => (PNode n v vr deps', b)
          | None => (insert (PNode n v vr deps) nm ver var, true)
          end
    | None => (insert (PNode n v vr deps) nm ver var, true)
    end.
Proof.
  cbn [addAt]. destruct (Obj.get deps nm); [|reflexivity].
  destruct (optEqbVariant _ var); [reflexivity|].
  match goal with
  | |- match ?a with _ => _ end = match ?b with _ => _ end =>
      assert (E : a = b); [|now rewrite E]
  end.
  induction deps as [|[k c] r IH]; simpl; [reflexivity|].
  destruct (String.eqb k (shiftKey searchPath)); [reflexivity|].
  now rewrite IH.
Qed.

(** Placing a variant whose name and version have a record keeps every
    entry of the placement tree recorded. *)
Lemma addAt_recorded nm ver var :
  isSome (Obj.get store (tagOf nm ver)) = true ->
  forall nd searchPath,
    placedRecorded store nd = true ->
    placedRecorded store (fst (addAt nm ver var nd searchPath)) = true.
Proof.
  intros Hs nd.
  induction nd as [n v vr deps IH] using pnode_induction.
  intros searchPath H. rewrite addAt_unfold.
  destruct (Obj.get deps nm) as [found|]; [|now apply insert_recorded].
  destruct (optEqbVariant _ var); [exact H|].
  destruct (inChild _ _ deps) as [[deps' b]|] eqn:E;
    [|now apply insert_recorded].
  cbn [fst]. rewrite placedRecorded_unfold in *.
  clear - IH H E. revert deps' E H.
  induction IH as [|[k c] r Hc Hr IHr]; intros deps' E H; simpl in E;
    [discriminate|].
  simpl in H. apply andb_true_iff in H as [H Hrest].
  apply andb_true_iff in H as [Hk Hrec].
  destruct (String.eqb k (shiftKey searchPath)).
  - destruct (addAt nm ver var c (tl searchPath)) as [c' b'] eqn:Ea.
    inversion E; subst. simpl.
    pose proof (Hc (tl searchPath) Hrec) as Hc'. simpl in Hc'.
    rewrite Ea in Hc'. simpl in Hc'. rewrite Hc', Hrest.
    assert (Hsame : tagOf (pname c') (pversion c') = tagOf (pname c) (pversion c)).
    { clear - Ea. destruct c as [n0 v0 vr0 d0]. rewrite addAt_unfold in Ea.
      destruct (Obj.get d0 nm);
        [destruct (optEqbVariant _ var);
         [|destruct (inChild _ _ d0) as [[d' b0]|]]|];
        inversion Ea; reflexivity. }
    now rewrite Hsame, Hk.
  - destruct (inChild _ _ r) as [[r' b']|] eqn:Er; [|discriminate].
    inversion E; subst. simpl. rewrite Hk, Hrec. simpl.
    now apply (IHr r').
Qed.

Lemma add_recorded path m t :
  moduleOk m -> placedRecorded store t = true ->
  placedRecorded store (add path (variant m) t) = true.
Proof.
  intros (nm & v & sg & Ev & Hn & Hv & Hs) Ht. unfold add.
  rewrite Ev, (split_variant nm v sg Hn Hv). simpl nth. simpl nth_error.
  now apply addAt_recorded.
Qed.

Lemma hoistOne_recorded m t :
  moduleOk m -> placedRecorded store t = true ->
  placedRecorded store (hoistOne m t) = true.
Proof.
  intros Hm. unfold hoistOne. generalize (paths m). intros l. revert t.
  induction l as [|p r IH]; simpl; intros t Ht; [exact Ht|].
  apply IH. now apply add_recorded.
Qed.

Lemma hoist_recorded tree modules :
  Forall moduleOk modules ->
  placedRecorded store (hoist tree modules) = true.
Proof.
  intros H. unfold hoist. apply sortModules_Forall in H.
  generalize (PNode (name tree) (Some (version tree)) None [])
             (eq_refl : placedRecorded store
                          (PNode (name tree) (Some (version tree)) None []) = true).
  induction H as [|m r Hm Hr IH]; simpl; intros t Ht; [exact Ht|].
  apply IH. now apply hoistOne_recorded.
Qed.

(** The placement tree of a recorded tree is recorded. *)
Lemma flattenTree_recorded tree finalTree :
  allRecorded store (dependencies tree) = true ->
  flattenTree tree = Ok finalTree ->
  placedRecorded store finalTree = true.
Proof.
  intros Ha H. unfold flattenTree in H.
  apply bind_Ok in H as [index [Hi H]]. inversion H; subst.
  apply hoist_recorded. unfold modulesOf.
  apply buildIndexes_ok in Hi; [|exact Ha|constructor].
  clear - Hi. induction Hi as [|[k m] r Hm Hr IH]; simpl; constructor; auto.
Qed.

End HoistRecords.

(** *** The assembler finds every record *)

Section AssembleRecords.

Variable store : Obj.t lockEntry.

Definition stepOk (p : string * (Obj.t lockEntry -> result (Obj.t lockEntry)))
  : Prop :=
  forall acc, exists acc', snd p acc = Ok acc'.

Lemma sequence_total l :
  Forall stepOk l -> forall acc, exists r, sequence l acc = Ok r.
Proof.
  induction 1 as [|[k f] r Hf Hr IH]; intros acc; simpl; [eauto|].
  destruct (Hf acc) as [acc' E]. simpl in E. rewrite E. simpl. apply IH.
Qed.

Lemma insertKey_Forall {A} (Q : string * A -> Prop) k a l :
  Q (k, a) -> Forall Q l -> Forall Q (insertKey k a l).
Proof.
  intros Hq. induction l as [|[k' a'] r IH]; simpl; intros H.
  - constructor; auto.
  - inversion H; subst. destruct (String.compare k k'); repeat constructor; auto.
Qed.

Lemma sortByKey_Forall {A} (Q : string * A -> Prop) l :
  Forall Q l -> Forall Q (sortByKey l).
Proof.
  unfold sortByKey.
  assert (G : forall acc, Forall Q acc -> Forall Q l ->
                Forall Q (fold_left (fun a p => insertKey (fst p) (snd p) a) l acc)).
  { induction l as [|[k a] r IH]; simpl; intros acc Ha H; [exact Ha|].
    inversion H; subst. apply IH; [|assumption].
    now apply insertKey_Forall. }
  apply G. constructor.
Qed.

Lemma assembleOne_total dependency below sub :
  isSome (Obj.get store (tagOf (pname dependency) (pversion dependency))) = true ->
  below = Ok sub ->
  stepOk (pname dependency, assembleOne store dependency below).
Proof.
  intros Hs Hb acc. simpl. unfold assembleOne.
  destruct (Obj.get store _); [|discriminate].
  rewrite Hb. simpl. eauto.
Qed.

(** With every entry recorded, the assembly of the placement tree returns. *)
Lemma one_total t :
  placedRecorded store t = true -> exists out, Assemble.one store t = Ok out.
Proof.
  induction t as [n v vr deps IH] using pnode_induction.
  rewrite placedRecorded_unfold. intros H. cbn [Assemble.one].
  apply sequence_total, sortByKey_Forall.
  generalize (@nil string). revert H.
  induction IH as [|[k c] r Hc Hr IHr]; intros H seen; [constructor|].
  simpl in H. apply andb_true_iff in H as [H Hrest].
  apply andb_true_iff in H as [Hk Hrec].
  destruct (Str.mem k seen); [now apply IHr|].
  constructor; [|now apply IHr].
  destruct (Hc Hrec) as [sub Hsub]. simpl in Hsub.
  intros acc. simpl. unfold assembleOne.
  destruct (Obj.get store _); [|discriminate].
  rewrite Hsub. simpl. eauto.
Qed.

Lemma buildLockFile_total t rootName rootVersion :
  placedRecorded store t = true ->
  exists out, buildLockFile store t rootName rootVersion = Ok out.
Proof.
  intros H. unfold buildLockFile.
  destruct (one_total t H) as [ds E]. rewrite E. simpl. eauto.
Qed.

End AssembleRecords.

Import Examples.

(** C10, as amended.  When no version and no required name of the two lock
    files holds a bar, every run of the pipeline that reaches the assembler
    hands it a placement tree in which each dependency entry has its record
    in the versions store under its name and version, and the assembly
    returns a lock file. *)
Theorem assembly_finds_every_record :
  forall projectFiles regexFound loopFuel fuel previous current g
         prevTree g1 curTree g2 mixed finalTree,
    barFree previous = true ->
    barFree current = true ->
    generateDependencyTree previous loopFuel fuel g = Ok (prevTree, g1) ->
    generateDependencyTree current loopFuel fuel g1 = Ok (curTree, g2) ->
    Relock.relockTree projectFiles regexFound prevTree curTree
      = Ok (Some mixed) ->
    flattenTree mixed = Ok finalTree ->
    placedRecorded (versions g2) finalTree = true /\
    exists out,
      buildLockFile (versions g2) finalTree (lname current) (lversion current)
        = Ok out.
Proof.
  intros projectFiles regexFound loopFuel fuel previous current g
         prevTree g1 curTree g2 mixed finalTree Hbp Hbc Hp Hc Hm Hf.
  assert (Hprev : allRecorded (versions g2) (dependencies prevTree) = true).
  { apply generateDependencyTree_keeps in Hc as [_ Hk].
    eapply allRecorded_mono; [exact Hk|].
    eapply generateDependencyTree_recorded; [exact Hbp | exact Hp]. }
  assert (Hcur : allRecorded (versions g2) (dependencies curTree) = true).
  { eapply generateDependencyTree_recorded; [exact Hbc | exact Hc]. }
  assert (Hmixed : allRecorded (versions g2) (dependencies mixed) = true).
  { eapply relockTree_recorded; [exact Hprev | exact Hcur | exact Hm]. }
  assert (Hfinal : placedRecorded (versions g2) finalTree = true).
  { eapply flattenTree_recorded; [exact Hmixed | exact Hf]. }
  split; [exact Hfinal|]. now apply buildLockFile_total.
Qed.

Lemma assembly_finds_every_record_witness :
  placedRecorded (versions afterBoth) finalTree = true /\
  exists out,
    buildLockFile (versions afterBoth) finalTree (lname curLock)
                  (lversion curLock) = Ok out.
Proof.
  apply (@assembly_finds_every_record [] noRegex Examples.fuel Examples.fuel
           prevLock curLock noGlobals prevTree afterPrev curTree afterBoth
           mixedTree finalTree); vm_compute; reflexivity.
Defined.

(** C10 as stated fails: the package is named with a bar.  Its variant is
    cut at the bars, so the placement tree gets an entry named [a] of
    version [b]; the store has no record under that key and the assembler
    throws on the missing record. *)
Lemma bar_name_has_no_record :
  exists prevT g1 curT g2 mixed final d,
    build barNameLock noGlobals = Ok (prevT, g1) /\
    build barNameLock g1 = Ok (curT, g2) /\
    Relock.relockTree [] noRegex prevT curT = Ok (Some mixed) /\
    flattenTree mixed = Ok final /\
    pnodeAt final ["a"] = Some d /\
    pname d = "a" /\ pversion d = Some "b" /\
    Obj.get (versions g2) (tagOf (pname d) (pversion d)) = None /\
    buildLockFile (versions g2) final "app" "1.0.0" = Throw SyntaxError /\
    Assemble.relock [] noRegex Examples.fuel Examples.fuel
                    barNameLock barNameLock noGlobals = Throw SyntaxError.
Proof.
  do 7 eexists. conjuncts; vm_compute; reflexivity.
Qed.

End RecordsFacts.

(** ** Lock-paths *)

Module PathsFacts.
Import Builder Lookup ResultFacts BuilderFacts.

Section LockEntryInduction.

Variable P : lockEntry -> Prop.

Hypothesis step :
  forall n v rq deps,
    Forall (fun kv : string * lockEntry => P (snd kv)) deps ->
    P (LockEntry n v rq deps).

Fixpoint lockEntry_induction (e : lockEntry) : P e :=
  match e with
  | LockEntry n v rq deps =>
      @step n v rq deps
        ((fix each (l : list (string * lockEntry))
            : Forall (fun kv : string * lockEntry => P (snd kv)) l :=
            match l with
            | [] => @Forall_nil _ _
            | kv :: r =>
                @Forall_cons _ _ kv r (lockEntry_induction (snd kv)) (each r)
            end) deps)
  end.

End LockEntryInduction.

(** The loop of [buildPaths] over the properties of one object. *)
Fixpoint eachPaths (path seen : list string) (l : list (string * lockEntry))
  : list string :=
  match l with
  | [] => []
  | (key, depNode) :: r =>
      if Str.mem key seen then eachPaths path seen r
      else Str.join bar (path ++ [key])
             :: pathsBelow depNode (path ++ [key])
             ++ eachPaths path (key :: seen) r
  end.

Lemma pathsBelow_unfold n v rq deps path :
  pathsBelow (LockEntry n v rq deps) path = eachPaths path [] deps.
Proof.
  cbn [pathsBelow].
  match goal with
  | |- ?f [] deps = _ =>
      assert (H : forall seen, f seen deps = eachPaths path seen deps);
        [|apply H]
  end.
  induction deps as [|[k d] r IH]; intros seen; simpl; [reflexivity|].
  now rewrite !IH.
Qed.

Lemma eachPaths_get path l : forall seen k d,
  Obj.get l k = Some d -> ~ In k seen ->
  In (Str.join bar (path ++ [k])) (eachPaths path seen l) /\
  incl (pathsBelow d (path ++ [k])) (eachPaths path seen l).
Proof.
  induction l as [|[k0 d0] r IH]; intros seen k d Hg Hs; simpl in *.
  - discriminate.
  - destruct (String.eqb k0 k) eqn:E.
    + apply String.eqb_eq in E. subst k0. inversion Hg; subst d0.
      destruct (Str.mem k seen) eqn:M.
      * apply StrFacts.mem_In in M. contradiction.
      * split; [now left|]. intros x Hx. right. apply in_or_app. now left.
    + apply String.eqb_neq in E.
      destruct (Str.mem k0 seen).
      * now apply IH.
      * destruct (IH (k0 :: seen) k d Hg) as [H1 H2].
        { intros [H|H]; auto. }
        split.
        -- right. apply in_or_app. now right.
        -- intros x Hx. right. apply in_or_app. right. now apply H2.
Qed.

Lemma pathsBelow_entry ks : forall nd path e,
  ks <> [] -> entryAt nd ks = Some e ->
  In (Str.join bar (path ++ ks)) (pathsBelow nd path).
Proof.
  induction ks as [|k ks IH]; intros nd path e Hne H; [contradiction|].
  simpl in H. destruct (Obj.get (ldependencies nd) k) as [d|] eqn:Eg;
    [|discriminate].
  destruct nd as [n v rq deps]. rewrite pathsBelow_unfold. simpl in Eg.
  destruct (eachPaths_get path deps [] k d Eg) as [H1 H2]; [tauto|].
  destruct ks as [|k' ks'].
  - exact H1.
  - apply H2. replace (path ++ k :: k' :: ks') with ((path ++ [k]) ++ k' :: ks')
      by (now rewrite <- app_assoc).
    apply (IH d (path ++ [k]) e); [discriminate | exact H].
Qed.

Lemma eachPaths_sound path l :
  Forall (fun kv : string * lockEntry =>
            forall p x, In x (pathsBelow (snd kv) p) ->
                        exists ks e, ks <> [] /\ entryAt (snd kv) ks = Some e /\
                                     x = Str.join bar (p ++ ks)) l ->
  forall seen x,
    In x (eachPaths path seen l) ->
    exists k d, Obj.get l k = Some d /\ ~ In k seen /\
      (x = Str.join bar (path ++ [k]) \/
       exists ks e, ks <> [] /\ entryAt d ks = Some e /\
                    x = Str.join bar ((path ++ [k]) ++ ks)).
Proof.
  induction 1 as [|[k0 d0] r Hd Hr IH]; intros seen x Hx; simpl in Hx.
  - contradiction.
  - destruct (Str.mem k0 seen) eqn:M.
    + destruct (IH seen x Hx) as (k & d & Hg & Hs & Hc).
      exists k, d. simpl.
      destruct (String.eqb k0 k) eqn:E.
      * apply String.eqb_eq in E. subst k0.
        apply StrFacts.mem_In in M. contradiction.
      * auto.
    + assert (Hk0 : ~ In k0 seen).
      { intros H. apply StrFacts.mem_In in H. congruence. }
      destruct Hx as [Hx|Hx].
      * exists k0, d0. simpl. rewrite String.eqb_refl. auto.
      * apply in_app_or in Hx as [Hx|Hx].
        -- exists k0, d0. simpl. rewrite String.eqb_refl.
           split; [reflexivity|]. split; [exact Hk0|]. right.
           exact (Hd _ _ Hx).
        -- destruct (IH (k0 :: seen) x Hx)
             as (k & d & Hg & Hs & Hc).
           exists k, d. simpl.
           destruct (String.eqb k0 k) eqn:E.
           ++ apply String.eqb_eq in E. subst k0. exfalso. apply Hs. now left.
           ++ repeat split; auto. intros H. apply Hs. now right.
Qed.

Lemma pathsBelow_sound nd : forall path x,
  In x (pathsBelow nd path) ->
  exists ks e, ks <> [] /\ entryAt nd ks = Some e /\
               x = Str.join bar (path ++ ks).
Proof.
  induction nd as [n v rq deps IH] using lockEntry_induction.
  intros path x Hx. rewrite pathsBelow_unfold in Hx.
  destruct (eachPaths_sound path deps IH [] x Hx)
    as (k & d & Hg & _ & [->|(ks & e & Hne & He & ->)]).
  - exists [k], d. simpl. rewrite Hg. repeat split. discriminate.
  - exists (k :: ks), e. simpl. rewrite Hg. rewrite <- app_assoc.
    repeat split; auto. discriminate.
Qed.

(** X1.  The lock-paths of a lock file are exactly the joined key paths of its
    entries, the root (no key) included. *)
Theorem buildPaths_are_the_entries :
  forall root x,
    In x (buildPaths root) <->
    exists ks e, entryAt root ks = Some e /\ x = Str.join bar ks.
Proof.
  intros root x. unfold buildPaths. split.
  - intros [<-|H].
    + exists [], root. split; reflexivity.
    + apply pathsBelow_sound in H as (ks & e & _ & He & ->). eauto.
  - intros (ks & e & He & ->). destruct ks as [|k ks].
    + now left.
    + right. apply (pathsBelow_entry (k :: ks) root [] e); [discriminate|exact He].
Qed.

Lemma getNode_cons_hit nd k d ks :
  Obj.get (ldependencies nd) k = Some d ->
  getNode nd (k :: ks) = getNode d ks.
Proof. unfold getNode. simpl. intros ->. reflexivity. Qed.

Lemma getNode_cons_miss nd k ks :
  Obj.get (ldependencies nd) k = None ->
  getNode nd (k :: ks) = getNode nd ks.
Proof. unfold getNode. simpl. intros ->. reflexivity. Qed.

(** X2.  [getNode] follows a path of keys to the entry it names, when there is
    one. *)
Theorem getNode_reaches_the_entry :
  forall root ks e, entryAt root ks = Some e -> getNode root ks = e.
Proof.
  intros root ks. revert root.
  induction ks as [|k ks IH]; intros root e H; simpl in H.
  - now inversion H.
  - destruct (Obj.get (ldependencies root) k) as [d|] eqn:E; [|discriminate].
    rewrite (getNode_cons_hit root k d ks E). now apply IH.
Qed.

Lemma getNode_reaches_the_entry_witness :
  getNode Examples.threeVersionsLock ["a"; "m"]
  = Examples.entry "2.0.0" [] [].
Proof.
  apply (getNode_reaches_the_entry Examples.threeVersionsLock ["a"; "m"]).
  reflexivity.
Defined.

(** *** Resolution of a required name *)

Section Resolve.

Variable root : lockEntry.

Lemma firstn_removelast {A} (l : list A) m :
  m < List.length l -> firstn m (removelast l) = firstn m l.
Proof.
  intros H. rewrite removelast_firstn_len, firstn_firstn.
  f_equal. lia.
Qed.

Lemma nearest_removelast path name r :
  path <> [] ->
  ~ In (Str.join bar (path ++ [name])) (lockPaths root) ->
  nearest root (removelast path) name r -> nearest root path name r.
Proof.
  intros Hne Hnot. destruct (exists_last Hne) as (l & a & ->).
  rewrite removelast_last.
  assert (Hlen : List.length (l ++ [a]) = S (List.length l))
    by (rewrite length_app; simpl; lia).
  assert (Hfirst : forall m, m <= List.length l ->
                             firstn m (l ++ [a]) = firstn m l).
  { intros m Hm. rewrite firstn_app.
    replace (m - List.length l) with 0 by lia. simpl. apply app_nil_r. }
  assert (Htop : forall m, List.length l < m -> m <= List.length (l ++ [a]) ->
                 ~ In (Str.join bar (firstn m (l ++ [a]) ++ [name]))
                      (lockPaths root)).
  { intros m H1 H2. replace m with (List.length (l ++ [a])) by lia.
    now rewrite firstn_all. }
  intros [(n & Hn & -> & Hin & Hmax)|(-> & Hnone)].
  - left. exists n. rewrite Hlen, Hfirst by assumption.
    repeat split; auto.
    intros m H1 H2. destruct (Nat.le_gt_cases m (List.length l)) as [Hm|Hm].
    + rewrite Hfirst by assumption. now apply Hmax.
    + apply Htop; [assumption | lia].
  - right. split; [reflexivity|]. intros m Hm.
    destruct (Nat.le_gt_cases m (List.length l)) as [H|H].
    + rewrite Hfirst by assumption. now apply Hnone.
    + apply Htop; [assumption | lia].
Qed.

Lemma searchLockPath_nearest name : name <> "" ->
  forall n searchPath fuel,
    List.length searchPath = n -> n < fuel ->
    exists r, searchLockPath root fuel searchPath name = Ok r /\
              nearest root searchPath name r.
Proof.
  intros Hn. induction n as [|n IH]; intros searchPath fuel En Hf;
    (destruct fuel as [|fuel]; [lia|]); cbn [searchLockPath];
    destruct (Str.mem _ (lockPaths root)) eqn:M.
  - destruct (String.eqb _ "") eqn:E.
    { apply String.eqb_eq, StrFacts.join_snoc_empty in E as [_ E].
      contradiction. }
    eexists. split; [reflexivity|]. left. exists (List.length searchPath).
    rewrite firstn_all. apply StrFacts.mem_In in M.
    repeat split; auto. intros m H1 H2. lia.
  - destruct searchPath; [|discriminate].
    exists "". split; [reflexivity|]. right. split; [reflexivity|].
    intros m Hm. simpl in Hm. replace m with 0 by lia. cbn [firstn].
    intros H. apply StrFacts.mem_In in H. congruence.
  - destruct (String.eqb _ "") eqn:E.
    { apply String.eqb_eq, StrFacts.join_snoc_empty in E as [_ E].
      contradiction. }
    eexists. split; [reflexivity|]. left. exists (List.length searchPath).
    rewrite firstn_all. apply StrFacts.mem_In in M.
    repeat split; auto. intros m H1 H2. lia.
  - destruct searchPath as [|s sp]; [discriminate|].
    assert (Hne : s :: sp <> []) by discriminate.
    destruct (IH (removelast (s :: sp)) fuel) as (r & Hr & Hnear).
    + destruct (exists_last Hne) as (l & a & E). rewrite E in *.
      rewrite removelast_last. rewrite length_app in En. simpl in En. lia.
    + lia.
    + exists r. split; [exact Hr|].
      apply nearest_removelast; auto.
      intros H. apply StrFacts.mem_In in H. congruence.
Qed.

End Resolve.

(** X4.  [getLockPath] resolves a non-empty name the way modules are looked up:
    it returns, within one turn per part of the path, the lock-path of the
    name under the longest prefix of the path that has an entry of that name,
    and the empty string when no prefix has one. *)
Theorem getLockPath_takes_the_nearest_entry :
  forall root fuel path name,
    name <> "" -> List.length path < fuel ->
    exists r, getLockPath root fuel path name = Ok r /\
              nearest root path name r.
Proof.
  intros root fuel path name Hn Hf. unfold getLockPath.
  pose proof Hn as Hb. apply String.eqb_neq in Hb.
  destruct path; [rewrite Hb|];
    apply (searchLockPath_nearest root name Hn _ _ fuel eq_refl Hf).
Qed.

Lemma getLockPath_takes_the_nearest_entry_witness :
  exists r, getLockPath Examples.threeVersionsLock 3 ["a"; "b"] "m" = Ok r /\
            nearest Examples.threeVersionsLock ["a"; "b"] "m" r.
Proof.
  apply (getLockPath_takes_the_nearest_entry Examples.threeVersionsLock 3
           ["a"; "b"] "m"); [discriminate | simpl; lia].
Defined.

(** X5.  A name that no prefix of the path resolves is given the root entry by
    [find] (when the root has no dependency under the empty name): the value
    tested at line 197 is then the root, not a missing module. *)
Theorem find_falls_back_on_the_root :
  forall root fuel name path,
    getLockPath root fuel path name = Ok "" ->
    Obj.get (ldependencies root) "" = None ->
    find root fuel name path = Ok (Some root).
Proof.
  intros root fuel name path Hg Hroot. unfold find.
  assert (E : getNode root (Str.split bar "") = root).
  { change (Str.split bar "") with [""].
    now rewrite (getNode_cons_miss root "" [] Hroot). }
  destruct path; [destruct (String.eqb name "")|]; try reflexivity;
    rewrite Hg; cbn [bind]; now rewrite E.
Qed.

Lemma find_falls_back_on_the_root_witness :
  find Examples.missingLock 2 "x" [] = Ok (Some Examples.missingLock).
Proof.
  apply (find_falls_back_on_the_root Examples.missingLock 2 "x" []);
    reflexivity.
Defined.

(** Whatever [getLockPath] returns is a lock-path of the file (the empty
    string is the root's). *)
Lemma getLockPath_in_lockPaths root fuel path name r :
  getLockPath root fuel path name = Ok r -> In r (lockPaths root).
Proof.
  assert (G : forall f sp, searchLockPath root f sp name = Ok r ->
                           In r (lockPaths root)).
  { induction f as [|f IH]; intros sp H; cbn [searchLockPath] in H;
      [discriminate|].
    revert H. destruct (Str.mem _ (lockPaths root)) eqn:M.
    - destruct (String.eqb _ ""); [apply IH|].
      intros H. inversion H; subst. now apply StrFacts.mem_In.
    - destruct sp; [|apply IH].
      intros H. inversion H; subst. now left. }
  unfold getLockPath. destruct path; [destruct (String.eqb name "")|];
    try apply G.
  intros H. inversion H; subst. now left.
Qed.

(** X6.  A dependency is expanded at the lock-path its requirer resolved: from
    the parts of a lock-path, [one] recomputes that same lock-path. *)
Theorem child_is_expanded_at_its_lock_path :
  forall root fuel path name loopFuel realPath,
    getLockPath root fuel path name = Ok realPath ->
    0 < loopFuel ->
    getLockPath root loopFuel (removelast (Str.split bar realPath))
                (last (Str.split bar realPath) "") = Ok realPath.
Proof.
  intros root fuel path name loopFuel realPath H Hf.
  apply getLockPath_in_lockPaths in H.
  destruct (getLockPath_callPath root (Str.split bar realPath) loopFuel)
    as (r & Hr & Hin); [right; eauto | assumption |].
  rewrite Hr. f_equal.
  (* the lock-path recomputed is the one whose parts were given *)
  pose proof (StrFacts.split_nonempty bar realPath) as Hne.
  pose proof (StrFacts.join_split bar realPath) as Hj.
  rewrite (app_removelast_last "" Hne) in Hj.
  destruct loopFuel as [|n]; [lia|].
  destruct (String.eqb realPath "") eqn:E.
  - apply String.eqb_eq in E. subst. simpl in Hr. now inversion Hr.
  - unfold getLockPath in Hr.
    assert (Hs : searchLockPath root (S n)
                   (removelast (Str.split bar realPath))
                   (last (Str.split bar realPath) "") = Ok realPath).
    { cbn [searchLockPath]. rewrite Hj.
      apply StrFacts.mem_In in H. now rewrite H, E. }
    destruct (removelast (Str.split bar realPath)) eqn:R.
    + destruct (String.eqb (last (Str.split bar realPath) "") "") eqn:L.
      * apply String.eqb_eq in L. rewrite L in Hj. simpl in Hj.
        subst realPath. discriminate.
      * rewrite Hs in Hr. now inversion Hr.
    + rewrite Hs in Hr. now inversion Hr.
Qed.

Lemma child_is_expanded_at_its_lock_path_witness :
  getLockPath Examples.threeVersionsLock 1
    (removelast (Str.split bar "a|m")) (last (Str.split bar "a|m") "")
  = Ok "a|m".
Proof.
  apply (child_is_expanded_at_its_lock_path Examples.threeVersionsLock 2
           ["a"] "m" 1 "a|m"); [reflexivity | lia].
Defined.

(** *** Runs of the builder *)

(** X8.  On a lock file in which no required name is the empty string and no
    name is a member of [Object.prototype] the build returns a tree: one
    turn of the search loop per part of the longest lock-path and one level
    of recursion per lock-path are enough, cycles included. *)
Theorem build_returns_when_names_are_not_empty :
  forall root loopFuel fuel g,
    namedRequires root = true ->
    Plain.lock root = true ->
    loopBound root <= loopFuel ->
    depthBound root <= fuel ->
    exists tree g', generateDependencyTree root loopFuel fuel g = Ok (tree, g').
Proof.
  intros root loopFuel fuel g Hn _ Hl Hd.
  now apply generateDependencyTree_returns.
Qed.

Lemma build_returns_when_names_are_not_empty_witness :
  exists tree g',
    generateDependencyTree Examples.cyclicLock 2 4 noGlobals = Ok (tree, g').
Proof.
  apply (build_returns_when_names_are_not_empty Examples.cyclicLock 2 4
           noGlobals);
    [reflexivity | reflexivity | vm_compute; lia | vm_compute; lia].
Defined.

Section MoreFuel.

Variable root : lockEntry.

Lemma searchLockPath_more fuel : forall searchPath name r fuel',
  searchLockPath root fuel searchPath name = Ok r -> fuel <= fuel' ->
  searchLockPath root fuel' searchPath name = Ok r.
Proof.
  induction fuel as [|fuel IH]; intros searchPath name r fuel' H Hle;
    cbn [searchLockPath] in H; [discriminate|].
  destruct fuel' as [|fuel']; [lia|]. cbn [searchLockPath].
  destruct (Str.mem _ (lockPaths root)).
  - destruct (String.eqb _ ""); [|exact H]. apply (IH _ _ _ _ H). lia.
  - destruct searchPath; [exact H|]. apply (IH _ _ _ _ H). lia.
Qed.

Lemma getLockPath_more fuel fuel' path name r :
  getLockPath root fuel path name = Ok r -> fuel <= fuel' ->
  getLockPath root fuel' path name = Ok r.
Proof.
  unfold getLockPath. intros H Hle.
  destruct path; [destruct (String.eqb name "")|]; auto;
    eapply searchLockPath_more; eauto.
Qed.

Lemma find_more fuel fuel' name path r :
  find root fuel name path = Ok r -> fuel <= fuel' ->
  find root fuel' name path = Ok r.
Proof.
  unfold find. intros H Hle.
  assert (G : (lockPath <- getLockPath root fuel path name ;;
               Ok (Some (getNode root (Str.split bar lockPath)))) = Ok r ->
              (lockPath <- getLockPath root fuel' path name ;;
               Ok (Some (getNode root (Str.split bar lockPath)))) = Ok r).
  { intros G. apply bind_Ok in G as [p [Hp G]].
    now rewrite (getLockPath_more fuel fuel' path name p Hp Hle). }
  destruct path; [destruct (String.eqb name "")|]; auto.
Qed.

Lemma forEach_more {A} (step step' : string -> A -> result A) ks :
  (forall k a a', step k a = Ok a' -> step' k a = Ok a') ->
  forall acc acc', forEach step ks acc = Ok acc' ->
                   forEach step' ks acc = Ok acc'.
Proof.
  intros Hs. induction ks as [|k ks IH]; intros acc acc' H;
    cbn [forEach] in *; [exact H|].
  apply bind_Ok in H as [a1 [H1 H]].
  rewrite (Hs _ _ _ H1). cbn [bind]. now apply IH.
Qed.

Lemma oneRequire_more loopFuel loopFuel' rec rec' path lockNode name acc acc' :
  (forall p s x, rec p s = Ok x -> rec' p s = Ok x) ->
  loopFuel <= loopFuel' ->
  oneRequire root loopFuel rec path lockNode name acc = Ok acc' ->
  oneRequire root loopFuel' rec' path lockNode name acc = Ok acc'.
Proof.
  intros Hrec Hle H. unfold oneRequire in *. destruct acc as [ds st].
  apply bind_Ok in H as [realPath [Hg H]].
  apply bind_Ok in H as [[matched|] [Hf H]]; [|discriminate].
  apply bind_Ok in H as [[nds t] [Hr H]].
  rewrite (getLockPath_more _ _ _ _ _ Hg Hle). cbn [bind].
  rewrite (find_more _ _ _ _ _ Hf Hle). cbn [bind].
  rewrite (Hrec _ _ _ Hr). cbn [bind]. exact H.
Qed.

Lemma one_more loopFuel loopFuel' : loopFuel <= loopFuel' ->
  forall fuel fuel' path st x,
    Builder.one root loopFuel fuel path st = Ok x -> fuel <= fuel' ->
    Builder.one root loopFuel' fuel' path st = Ok x.
Proof.
  intros Hl. induction fuel as [|fuel IH]; intros fuel' path st x H Hle;
    cbn [Builder.one] in H; [discriminate|].
  destruct fuel' as [|fuel']; [lia|]. cbn [Builder.one].
  apply bind_Ok in H as [lockOnePath [Hg H]].
  rewrite (getLockPath_more _ _ _ _ _ Hg Hl). cbn [bind].
  destruct (Str.mem lockOnePath (stack st)); [exact H|].
  apply bind_Ok in H as [[lockNode|] [Hf H]]; [|discriminate].
  rewrite (find_more _ _ _ _ _ Hf Hl). cbn [bind].
  destruct (Obj.get _ lockOnePath); [exact H|].
  apply bind_Ok in H as [[ds t] [Hfe H]].
  rewrite (forEach_more
             (oneRequire root loopFuel (Builder.one root loopFuel fuel)
                         path lockNode)
             (oneRequire root loopFuel' (Builder.one root loopFuel' fuel')
                         path lockNode)
             (Obj.keys (lrequires lockNode))) with (acc' := (ds, t)).
  - exact H.
  - intros k a a'. apply oneRequire_more; [|exact Hl].
    intros p s y Hy. apply (IH fuel' p s y Hy). lia.
  - exact Hfe.
Qed.

End MoreFuel.

(** The result of a build does not depend on the fuel: once a build
    returns, it returns the same tree and the same globals with any larger
    bound on the search loop and on the depth of the recursion. *)
Theorem build_result_is_independent_of_fuel :
  forall root loopFuel fuel loopFuel' fuel' g x,
    generateDependencyTree root loopFuel fuel g = Ok x ->
    loopFuel <= loopFuel' -> fuel <= fuel' ->
    generateDependencyTree root loopFuel' fuel' g = Ok x.
Proof.
  intros root loopFuel fuel loopFuel' fuel' g x H Hl Hf.
  unfold generateDependencyTree in *.
  apply bind_Ok in H as [r [Hr H]].
  now rewrite (one_more root loopFuel loopFuel' Hl fuel fuel' _ _ _ Hr Hf).
Qed.

Lemma build_result_is_independent_of_fuel_witness :
  generateDependencyTree Examples.prevLock 40 50 noGlobals
  = Ok (Examples.prevTree, Examples.afterPrev).
Proof.
  apply (build_result_is_independent_of_fuel Examples.prevLock 2 4 40 50
           noGlobals); [vm_compute; reflexivity | lia | lia].
Defined.

(** X9.  [one] leaves the stack of lock-paths under expansion as it found it:
    every push is undone before it returns. *)
Theorem one_restores_the_stack :
  forall root loopFuel fuel path st ds st',
    Builder.one root loopFuel fuel path st = Ok (ds, st') ->
    stack st' = stack st.
Proof.
  intros root loopFuel. induction fuel as [|fuel IH];
    intros path st ds st' H; cbn [Builder.one] in H; [discriminate|].
  apply bind_Ok in H as [lockOnePath [_ H]]. revert H.
  destruct (Str.mem lockOnePath (stack st)).
  { intros H. now inversion H. }
  intros H. apply bind_Ok in H as [[lockNode|] [_ H]]; [|discriminate].
  assert (Hpop : removelast (stack st ++ [lockOnePath]) = stack st)
    by apply removelast_last.
  revert H. destruct (Obj.get _ lockOnePath).
  { intros H. inversion H; subst. exact Hpop. }
  intros H. apply bind_Ok in H as [[d t] [Hfe H]]. inversion H; subst.
  simpl. rewrite <- Hpop. f_equal.
  change (stack st ++ [lockOnePath]) with (stack (pushStack lockOnePath st)).
  generalize dependent (pushStack lockOnePath st).
  generalize (@nil (option node)).
  induction (Obj.keys (lrequires lockNode)) as [|k ks IHk];
    intros acc s Hfe; cbn [forEach] in Hfe.
  - now inversion Hfe.
  - apply bind_Ok in Hfe as [[a1 s1] [H1 Hfe]].
    rewrite (IHk _ _ Hfe). unfold oneRequire in H1.
    apply bind_Ok in H1 as [realPath [_ H1]].
    apply bind_Ok in H1 as [[matched|] [_ H1]]; [|discriminate].
    apply bind_Ok in H1 as [[nds u] [Hr H1]]. inversion H1; subst.
    simpl. now rewrite (IH _ _ _ _ Hr).
Qed.

Lemma one_restores_the_stack_witness :
  stack (snd MoreExamples.cyclicRun) = stack MoreExamples.cyclicStart.
Proof.
  apply (one_restores_the_stack Examples.cyclicLock 2 3 ["a"]
           MoreExamples.cyclicStart (fst MoreExamples.cyclicRun)
           (snd MoreExamples.cyclicRun)).
  vm_compute. reflexivity.
Defined.

(** *** The shape of the tree that is built *)

Lemma keys_get {V} (o : Obj.t V) k : In k (Obj.keys o) -> Obj.get o k <> None.
Proof.
  intros H. apply keysFrom_sub in H.
  induction o as [|[k0 v0] r IH]; simpl in *; [contradiction|].
  destruct (String.eqb k0 k) eqn:E; [discriminate|].
  destruct H as [H|H]; [|auto]. subst. now rewrite String.eqb_refl in E.
Qed.

Lemma shaped_unfold nm v s t rq g ds :
  Shape.shaped (Node nm v s t rq g ds)
  = Shape.fits rq ds && Shape.allShaped ds.
Proof.
  reflexivity.
Qed.

Lemma signed_unfold nm v s t rq g ds :
  Shape.signed (Node nm v s t rq g ds)
  = String.eqb g (getTreeSignature ds)
    && sameOpt t (Some (nm ++ "@" ++ v)%string)
    && match s with Some _ => true | None => false end
    && Shape.allSigned ds.
Proof.
  reflexivity.
Qed.

Lemma ranged_unfold nm v s t rq g ds :
  Shape.ranged (Node nm v s t rq g ds)
  = Shape.rangedBy rq ds && Shape.allRanged ds.
Proof. reflexivity. Qed.

Lemma allRanged_app a b :
  Shape.allRanged (a ++ b) = Shape.allRanged a && Shape.allRanged b.
Proof.
  induction a as [|[c|] a IH]; cbn [app Shape.allRanged andb]; auto.
  now rewrite IH, andb_assoc.
Qed.

Lemma rangedBy_app rq a b :
  Shape.rangedBy rq (a ++ b) = Shape.rangedBy rq a && Shape.rangedBy rq b.
Proof. apply forallb_app. Qed.

Lemma allShaped_app a b :
  Shape.allShaped (a ++ b) = Shape.allShaped a && Shape.allShaped b.
Proof.
  induction a as [|[c|] r IH]; cbn [app Shape.allShaped]; auto.
  now rewrite IH, andb_assoc.
Qed.

Lemma allSigned_app a b :
  Shape.allSigned (a ++ b) = Shape.allSigned a && Shape.allSigned b.
Proof.
  induction a as [|[c|] r IH]; cbn [app Shape.allSigned]; auto.
  now rewrite IH, andb_assoc.
Qed.

Lemma fits_namesAre rq ds :
  Shape.namesAre ds (Obj.keys rq) = true -> Shape.fits rq ds = true.
Proof. destruct ds; auto. Qed.

Section ShapeOfBuild.

Variable root : lockEntry.
Variable loopFuel : nat.

(** From the parts of a lock-path, [getLockPath] gives that lock-path. *)
Lemma getLockPath_split r r' :
  In r (lockPaths root) ->
  getLockPath root loopFuel (removelast (Str.split bar r))
              (last (Str.split bar r) "") = Ok r' ->
  r' = r.
Proof.
  intros Hin H.
  pose proof (StrFacts.split_nonempty bar r) as Hne.
  pose proof (StrFacts.join_split bar r) as Hj.
  rewrite (app_removelast_last "" Hne) in Hj.
  destruct (String.eqb r "") eqn:E.
  { apply String.eqb_eq in E. subst r. simpl in H. now inversion H. }
  assert (Hs : searchLockPath root loopFuel
                 (removelast (Str.split bar r))
                 (last (Str.split bar r) "") = Ok r' -> r' = r).
  { destruct loopFuel as [|n]; cbn [searchLockPath]; [discriminate|].
    rewrite Hj. apply StrFacts.mem_In in Hin. rewrite Hin, E.
    intros X. now inversion X. }
  unfold getLockPath in H.
  destruct (removelast (Str.split bar r)) eqn:R; [|now apply Hs].
  destruct (String.eqb (last (Str.split bar r) "") "") eqn:L; [|now apply Hs].
  apply String.eqb_eq in L. rewrite L in Hj. simpl in Hj.
  subst r. discriminate.
Qed.

(** The entry of the lock file at a lock-path. *)
Definition lockNodeOf (p : string) : lockEntry :=
  if String.eqb p "" then root else getNode root (Str.split bar p).

(** What [one] resolves on a call path, and the entry [find] gives it. *)
Lemma one_lockNode path r lockNode :
  callPath root path ->
  getLockPath root loopFuel (removelast path) (last path "") = Ok r ->
  find root loopFuel (last path "") (removelast path) = Ok (Some lockNode) ->
  (path = [] /\ r = "" \/ In r (lockPaths root) /\ path = Str.split bar r)
  /\ (r <> "" \/ path = [] -> lockNode = lockNodeOf r).
Proof.
  intros [->|(r0 & Hin & ->)] Hg Hf.
  - simpl in Hg, Hf. inversion Hg; subst. inversion Hf; subst.
    split; [now left|]. reflexivity.
  - pose proof (getLockPath_split r0 r Hin Hg). subst r0.
    split; [now right|]. intros [Hr|Hr].
    2:{ exfalso. now apply (StrFacts.split_nonempty bar r). }
    unfold lockNodeOf. apply String.eqb_neq in Hr. rewrite Hr.
    revert Hf. unfold find.
    destruct (removelast (Str.split bar r)) eqn:R.
    + destruct (String.eqb (last (Str.split bar r) "") "") eqn:L.
      * exfalso. apply String.eqb_eq in L.
        pose proof (StrFacts.join_split bar r) as Hj.
        rewrite (app_removelast_last "" (StrFacts.split_nonempty bar r)) in Hj.
        rewrite R, L in Hj. simpl in Hj. subst r. discriminate.
      * rewrite Hg. cbn [bind]. intros X. now inversion X.
    + rewrite Hg. cbn [bind]. intros X. now inversion X.
Qed.

(** The memo holds, at a lock-path, dependencies that fit the requires of
    the entry at that lock-path. *)
Definition memoShaped (st : state) : Prop :=
  forall p ds, Obj.get (processed st) p = Some ds ->
    Shape.fits (lrequires (lockNodeOf p)) ds = true /\
    Shape.allShaped ds = true /\ Shape.allSigned ds = true /\
    Shape.rangedBy (lrequires (lockNodeOf p)) ds = true /\
    Shape.allRanged ds = true.

Definition goodCall
    (rec : list string -> state -> result (list (option node) * state))
  : Prop :=
  forall path st ds st',
    rec path st = Ok (ds, st') -> callPath root path ->
    (path <> [] -> In "" (stack st)) -> memoShaped st ->
    exists r,
      getLockPath root loopFuel (removelast path) (last path "") = Ok r /\
      (Str.mem r (stack st) = true -> ds = []) /\
      Shape.fits (lrequires (lockNodeOf r)) ds = true /\
      Shape.allShaped ds = true /\ Shape.allSigned ds = true /\
      Shape.rangedBy (lrequires (lockNodeOf r)) ds = true /\
      Shape.allRanged ds = true /\
      memoShaped st' /\ stack st' = stack st.

Lemma oneRequire_shape rec path lockNode k acc s acc' s' :
  goodCall rec ->
  oneRequire root loopFuel rec path lockNode k (acc, s) = Ok (acc', s') ->
  Obj.get (lrequires lockNode) k <> None ->
  In "" (stack s) -> memoShaped s ->
  exists nd, acc' = acc ++ [Some nd] /\ name nd = k /\
             Shape.shaped nd = true /\ Shape.signed nd = true /\
             Shape.rangedBy (lrequires lockNode) [Some nd] = true /\
             Shape.ranged nd = true /\
             memoShaped s' /\ stack s' = stack s.
Proof.
  intros Hrec H Hk Hroot Hm. unfold oneRequire in H.
  apply bind_Ok in H as [realPath [Hg H]].
  apply bind_Ok in H as [[matched|] [Hf H]]; [|discriminate].
  apply bind_Ok in H as [[nds u] [Hr H]]. inversion H; subst; clear H.
  pose proof (@getLockPath_in_lockPaths _ _ _ _ _ Hg) as Hin.
  destruct (Hrec _ _ _ _ Hr)
    as (r & Hr' & Hcyc & Hfit & Hsh & Hsg & Hrg & Harg & Hm' & Hstk).
  { right. eauto. }
  { intros _. exact Hroot. }
  { exact Hm. }
  apply (getLockPath_split realPath r Hin) in Hr'. subst r.
  assert (Hfits : Shape.fits (lrequires matched) nds = true).
  { destruct (String.eqb realPath "") eqn:E.
    - apply String.eqb_eq in E. subst realPath.
      rewrite Hcyc; [reflexivity|]. now apply StrFacts.mem_In.
    - unfold lockNodeOf in Hfit. rewrite E in Hfit.
      assert (Hmatched : matched = getNode root (Str.split bar realPath)).
      { revert Hf. unfold find.
        destruct path; [destruct (String.eqb k "") eqn:K|].
        - apply String.eqb_eq in K. subst k. simpl in Hg.
          inversion Hg; subst. discriminate.
        - rewrite Hg. cbn [bind]. intros X. now inversion X.
        - rewrite Hg. cbn [bind]. intros X. now inversion X. }
      now rewrite Hmatched. }
  assert (Hranged : Shape.rangedBy (lrequires matched) nds = true).
  { destruct (String.eqb realPath "") eqn:E.
    - apply String.eqb_eq in E. subst realPath.
      rewrite Hcyc; [reflexivity|]. now apply StrFacts.mem_In.
    - unfold lockNodeOf in Hrg. rewrite E in Hrg.
      assert (Hmatched : matched = getNode root (Str.split bar realPath)).
      { revert Hf. unfold find.
        destruct path; [destruct (String.eqb k "") eqn:K|].
        - apply String.eqb_eq in K. subst k. simpl in Hg.
          inversion Hg; subst. discriminate.
        - rewrite Hg. cbn [bind]. intros X. now inversion X.
        - rewrite Hg. cbn [bind]. intros X. now inversion X. }
      now rewrite Hmatched. }
  eexists. split; [reflexivity|]. split; [reflexivity|].
  rewrite shaped_unfold, signed_unfold, ranged_unfold, Hfits, Hsh, Hsg,
    Hranged, Harg.
  rewrite String.eqb_refl. cbn [sameOpt]. rewrite String.eqb_refl.
  cbn [Shape.rangedBy forallb semVer name].
  destruct (Obj.get (lrequires lockNode) k) as [range|]; [|contradiction].
  cbn [sameOpt]. rewrite String.eqb_refl.
  split; [reflexivity|]. split; [reflexivity|].
  split; [reflexivity|]. split; [reflexivity|].
  split; [exact Hm' | exact Hstk].
Qed.

Lemma forEach_shape rec path lockNode :
  goodCall rec ->
  forall ks acc s acc' s',
    forEach (oneRequire root loopFuel rec path lockNode) ks (acc, s)
    = Ok (acc', s') ->
    (forall k, In k ks -> Obj.get (lrequires lockNode) k <> None) ->
    In "" (stack s) -> memoShaped s ->
    exists news, acc' = acc ++ news /\ Shape.namesAre news ks = true /\
                 Shape.allShaped news = true /\
                 Shape.allSigned news = true /\
                 Shape.rangedBy (lrequires lockNode) news = true /\
                 Shape.allRanged news = true /\
                 memoShaped s' /\ stack s' = stack s.
Proof.
  intros Hrec. induction ks as [|k ks IH]; intros acc s acc' s' H Hks Hroot Hm;
    cbn [forEach] in H.
  - inversion H; subst. exists []. rewrite app_nil_r. repeat (split; [reflexivity|]).
    split; [exact Hm | reflexivity].
  - apply bind_Ok in H as [[a1 s1] [H1 H]].
    destruct (@oneRequire_shape _ _ _ _ _ _ _ _ Hrec H1)
      as (nd & -> & Hn & Hsh & Hsg & Hrg & Hnrg & Hm1 & Hs1);
      [apply Hks; now left | exact Hroot | exact Hm |].
    destruct (IH _ _ _ _ H)
      as (news & -> & Hnames & Hash & Hasg & Harg & Hanrg & Hm2 & Hs2).
    { intros k' Hk'. apply Hks. now right. }
    { now rewrite Hs1. }
    { exact Hm1. }
    exists (Some nd :: news). rewrite <- app_assoc. split; [reflexivity|].
    cbn [Shape.namesAre Shape.allShaped Shape.allSigned Shape.allRanged].
    rewrite Hn, String.eqb_refl, Hnames, Hsh, Hash, Hsg, Hasg, Hnrg, Hanrg.
    change (Some nd :: news) with ([Some nd] ++ news).
    rewrite rangedBy_app, Hrg, Harg.
    split; [reflexivity|]. split; [reflexivity|]. split; [reflexivity|].
    split; [reflexivity|]. split; [reflexivity|].
    split; [exact Hm2 | congruence].
Qed.

Lemma one_shape : forall fuel, goodCall (Builder.one root loopFuel fuel).
Proof.
  induction fuel as [|fuel IH]; intros path st ds st' H Hp Hroot Hm;
    cbn [Builder.one] in H; [discriminate|].
  apply bind_Ok in H as [r [Hg H]]. exists r. split; [exact Hg|].
  revert H. destruct (Str.mem r (stack st)) eqn:M.
  { intros H. inversion H; subst.
    split; [reflexivity|]. repeat (split; [reflexivity|]).
    split; [exact Hm | reflexivity]. }
  intros H. apply bind_Ok in H as [[lockNode|] [Hf H]]; [|discriminate].
  destruct (@one_lockNode path r lockNode Hp Hg Hf) as [Hcase Hnode].
  assert (Hr : r <> "" \/ path = []).
  { destruct Hcase as [[-> _]|[_ ->]]; [now right|]. left. intros ->.
    assert (X : In "" (stack st))
      by (apply Hroot, StrFacts.split_nonempty).
    apply StrFacts.mem_In in X. congruence. }
  specialize (Hnode Hr). subst lockNode.
  assert (Hpop : removelast (stack st ++ [r]) = stack st)
    by apply removelast_last.
  split; [discriminate|].
  revert H. cbn [processed pushStack]. destruct (Obj.get (processed st) r) eqn:P.
  { intros H. inversion H; subst.
    destruct (Hm _ _ P) as (A & B & C & D & E).
    split; [exact A|]. split; [exact B|]. split; [exact C|].
    split; [exact D|]. split; [exact E|].
    split; [exact Hm | exact Hpop]. }
  intros H. apply bind_Ok in H as [[d t] [Hfe H]]. inversion H; subst.
  destruct (@forEach_shape _ path (lockNodeOf r) IH _ _ _ _ _ Hfe)
    as (news & E & Hnames & Hsh & Hsg & Hrg & Harg & Hm' & Hstk).
  { intros k. apply keys_get. }
  { cbn [stack pushStack]. apply in_or_app.
    destruct Hcase as [[_ ->]|[_ ->]]; [right; now left|].
    left. apply Hroot, StrFacts.split_nonempty. }
  { exact Hm. }
  cbn [app] in E. subst news.
  pose proof (@fits_namesAre _ _ Hnames) as Hfit.
  split; [exact Hfit|]. split; [exact Hsh|]. split; [exact Hsg|].
  split; [exact Hrg|]. split; [exact Harg|].
  split.
  - intros p ds0. cbn [processed setProcessed popStack].
    destruct (String.eqb r p) eqn:E.
    + apply String.eqb_eq in E. subst p. rewrite get_set_same.
      intros X. inversion X; subst. auto.
    + apply String.eqb_neq in E. rewrite (@get_set_other _ _ _ _ _ E). apply Hm'.
  - cbn [stack setProcessed popStack]. rewrite Hstk. exact Hpop.
Qed.

End ShapeOfBuild.

Lemma generateDependencyTree_shaped root loopFuel fuel g tree g' :
  generateDependencyTree root loopFuel fuel g = Ok (tree, g') ->
  Shape.shaped tree = true.
Proof.
  intros H. unfold generateDependencyTree in H.
  apply bind_Ok in H as [[res st] [Hone H]]. inversion H; subst; clear H.
  destruct (@one_shape root loopFuel fuel _ _ _ _ Hone)
    as (r & Hg & _ & Hfit & Hsh & _).
  - now left.
  - intros X. now contradiction X.
  - intros p ds. discriminate.
  - simpl in Hg. inversion Hg; subst.
    change (lockNodeOf root "") with root in Hfit.
    now rewrite shaped_unfold, Hsh, Hfit.
Qed.

(** The dependencies of the root of a built tree are the nodes of the names
    the root requires: the root is never answered from the stack or from
    the table of processed lock-paths. *)
Lemma generateDependencyTree_root_names root loopFuel fuel g tree g' :
  generateDependencyTree root loopFuel fuel g = Ok (tree, g') ->
  Shape.namesAre (dependencies tree) (Obj.keys (requires tree)) = true
  /\ Shape.allShaped (dependencies tree) = true.
Proof.
  intros H. unfold generateDependencyTree in H.
  apply bind_Ok in H as [[res st] [Hone H]]. inversion H; subst; clear H.
  cbn [dependencies requires].
  destruct fuel as [|fuel]; [discriminate|]. cbn [Builder.one] in Hone.
  cbn [removelast last getLockPath String.eqb bind Str.mem stack find] in Hone.
  cbn [pushStack processed Obj.get stack glob] in Hone.
  apply bind_Ok in Hone as [[ds t] [Hfe Hone]]. inversion Hone; subst.
  destruct (forEach_shape root loopFuel
              (Builder.one root loopFuel fuel) [] root
              (one_shape root loopFuel fuel)
              (Obj.keys (lrequires root)) [] _ _ _ Hfe)
    as (news & E & Hnames & Hsh & _).
  - intros k. apply keys_get.
  - now left.
  - intros p ds0. discriminate.
  - cbn [app] in E. subst news. split; assumption.
Qed.

(** X10.  In the tree that [generateDependencyTree] returns every node has either
    one dependency node per name it requires, named by it and in the order
    of the requires, or no dependency node at all (the edge closed a cycle);
    no entry of a dependency array is undefined. *)
Theorem built_tree_is_shaped :
  forall root loopFuel fuel g tree g',
    generateDependencyTree root loopFuel fuel g = Ok (tree, g') ->
    Shape.shaped tree = true.
Proof.
  intros root loopFuel fuel g tree g' H.
  exact (generateDependencyTree_shaped root loopFuel fuel g tree g' H).
Qed.

Lemma built_tree_is_shaped_witness : Shape.shaped Examples.prevTree = true.
Proof.
  apply (built_tree_is_shaped Examples.prevLock 2 4 noGlobals
           Examples.prevTree Examples.afterPrev).
  vm_compute. reflexivity.
Defined.

(** X11.  Every node of the tree below its root carries the signature of its own
    dependencies, the tag made of its name and version, and as its range
    the value that the requires of the node above it hold under its name;
    the root carries the signature of its dependencies. *)
Theorem built_nodes_are_signed :
  forall root loopFuel fuel g tree g',
    generateDependencyTree root loopFuel fuel g = Ok (tree, g') ->
    signature tree = getTreeSignature (dependencies tree) /\
    Shape.allSigned (dependencies tree) = true /\
    Shape.ranged tree = true.
Proof.
  intros root loopFuel fuel g tree g' H. unfold generateDependencyTree in H.
  apply bind_Ok in H as [[res st] [Hone H]]. inversion H; subst; clear H.
  destruct (@one_shape root loopFuel fuel _ _ _ _ Hone)
    as (r & Hg & _ & _ & _ & Hsg & Hrg & Harg & _).
  - now left.
  - intros X. now contradiction X.
  - intros p ds. discriminate.
  - simpl in Hg. inversion Hg; subst.
    change (lockNodeOf root "") with root in Hrg.
    split; [reflexivity|]. split; [exact Hsg|].
    now rewrite ranged_unfold, Hrg, Harg.
Qed.

Lemma built_nodes_are_signed_witness :
  signature Examples.curTree = getTreeSignature (dependencies Examples.curTree)
  /\ Shape.allSigned (dependencies Examples.curTree) = true
  /\ Shape.ranged Examples.curTree = true.
Proof.
  apply (built_nodes_are_signed Examples.curLock 2 4 noGlobals
           Examples.curTree (Examples.globalsAfter
                               (Examples.build Examples.curLock noGlobals))).
  vm_compute. reflexivity.
Defined.

(** *** The names of a built tree are names of the lock file *)

Lemma plain_unfold nm v rq deps :
  Plain.lock (LockEntry nm v rq deps) = true ->
  (forall k, In k (Obj.keys rq) -> Proto.plain k = true) /\
  (forall k d, Obj.get deps k = Some d -> Plain.lock d = true).
Proof.
  cbn [Plain.lock]. intros H. apply andb_true_iff in H as [Hk Hd]. split.
  - intros k Hin. apply keysFrom_sub in Hin.
    apply in_map_iff in Hin as ([k' x] & <- & Hin).
    rewrite forallb_forall in Hk. now apply (Hk _ Hin).
  - clear - Hd. induction deps as [|[k0 d0] r IH]; simpl; intros k d Hg;
      [discriminate|].
    apply andb_true_iff in Hd as [H0 Hd]. apply andb_true_iff in H0 as [_ H0].
    destruct (String.eqb k0 k); [now inversion Hg; subst | eauto].
Qed.

Lemma plain_keys e k :
  Plain.lock e = true -> In k (Obj.keys (lrequires e)) -> Proto.plain k = true.
Proof. destruct e. intros H. apply plain_unfold in H. now apply H. Qed.

Lemma plain_get e k d :
  Plain.lock e = true -> Obj.get (ldependencies e) k = Some d ->
  Plain.lock d = true.
Proof. destruct e. intros H. apply plain_unfold in H. apply H. Qed.

Lemma plain_getNode root path :
  Plain.lock root = true -> Plain.lock (getNode root path) = true.
Proof.
  unfold getNode. generalize root.
  induction path as [|p path IH]; intros nd H; simpl; [assumption|].
  apply IH. destruct (Obj.get (ldependencies nd) p) eqn:E; [|assumption].
  eapply plain_get; eauto.
Qed.

Lemma find_plain root fuel name path e :
  Plain.lock root = true ->
  find root fuel name path = Ok (Some e) -> Plain.lock e = true.
Proof.
  intros Hb H. unfold find in H.
  assert (G : forall r, (lockPath <- r ;;
                         Ok (Some (getNode root (Str.split bar lockPath))))
                        = Ok (Some e) -> Plain.lock e = true).
  { intros r G. apply bind_Ok in G as [p [_ G]]. inversion G.
    now apply plain_getNode. }
  destruct path; [destruct (String.eqb name "")|]; eauto.
  now inversion H; subst.
Qed.

Lemma allTree_snoc ds n :
  Plain.allTree ds = true -> Proto.plain (name n) = true ->
  Plain.tree n = true -> Plain.allTree (ds ++ [Some n]) = true.
Proof.
  induction ds as [|[c|] r IH]; cbn [app Plain.allTree]; intros H Hn Ht.
  - now rewrite Hn, Ht.
  - apply andb_true_iff in H as [H1 H2]. now rewrite H1, IH.
  - auto.
Qed.

Lemma tree_unfold nm v s t rq g ds :
  Plain.tree (Node nm v s t rq g ds) = Plain.allTree ds.
Proof.
  cbn [Plain.tree]. induction ds as [|[c|] r IH]; cbn [Plain.allTree];
    [reflexivity | now rewrite IH | exact IH].
Qed.

Section PlainBuild.

Variable root : lockEntry.
Variable loopFuel : nat.
Hypothesis root_plain : Plain.lock root = true.

(** Every memoized dependency list holds plain names only. *)
Definition memoPlain (st : state) : Prop :=
  forall p ds, Obj.get (processed st) p = Some ds -> Plain.allTree ds = true.

Definition plainCall
    (rec : list string -> state -> result (list (option node) * state))
  : Prop :=
  forall p s d s', rec p s = Ok (d, s') -> memoPlain s ->
                   Plain.allTree d = true /\ memoPlain s'.

Lemma oneRequire_plain rec path lockNode name acc s acc' s' :
  plainCall rec ->
  Plain.lock lockNode = true ->
  In name (Obj.keys (lrequires lockNode)) ->
  oneRequire root loopFuel rec path lockNode name (acc, s) = Ok (acc', s') ->
  Plain.allTree acc = true -> memoPlain s ->
  Plain.allTree acc' = true /\ memoPlain s'.
Proof.
  intros IH Hb Hin H Hacc Hm. unfold oneRequire in H.
  apply bind_Ok in H as [realPath [_ H]].
  apply bind_Ok in H as [[matched|] [Hf H]]; [|discriminate].
  apply bind_Ok in H as [[nds t] [Hr H]]. inversion H; subst. clear H.
  destruct (IH _ _ _ _ Hr) as [Hnds Hmt].
  { intros p ds. cbn [processed setVersion]. apply Hm. }
  split.
  - apply allTree_snoc; [exact Hacc | |].
    + exact (plain_keys lockNode name Hb Hin).
    + now rewrite tree_unfold.
  - intros p ds. cbn [processed setDependencyTree]. apply Hmt.
Qed.

Lemma forEach_plain rec path lockNode :
  plainCall rec ->
  Plain.lock lockNode = true ->
  forall ks acc s acc' s',
    (forall k, In k ks -> In k (Obj.keys (lrequires lockNode))) ->
    forEach (oneRequire root loopFuel rec path lockNode) ks (acc, s)
      = Ok (acc', s') ->
    Plain.allTree acc = true -> memoPlain s ->
    Plain.allTree acc' = true /\ memoPlain s'.
Proof.
  intros IH Hb. induction ks as [|k ks IHk]; intros acc s acc' s' Hks H Ha Hm;
    cbn [forEach] in H.
  - inversion H; subst. now split.
  - apply bind_Ok in H as [[a1 s1] [H1 H]].
    destruct (oneRequire_plain rec path lockNode k acc s a1 s1 IH Hb
                (Hks k (or_introl eq_refl)) H1 Ha Hm) as [Ha1 Hm1].
    apply (IHk a1 s1 acc' s'); auto.
    intros k' Hk'. apply Hks. now right.
Qed.

Lemma one_plain : forall fuel, plainCall (Builder.one root loopFuel fuel).
Proof.
  induction fuel as [|fuel IH]; intros path st ds st' H Hm;
    cbn [Builder.one] in H; [discriminate|].
  apply bind_Ok in H as [lockOnePath [_ H]]. revert H.
  destruct (Str.mem lockOnePath (stack st)).
  { intros H. inversion H; subst. split; [reflexivity | assumption]. }
  intros H. apply bind_Ok in H as [[lockNode|] [Hf H]]; [|discriminate].
  revert H. cbn [processed pushStack].
  destruct (Obj.get (processed st) lockOnePath) eqn:Ep.
  { intros H. inversion H; subst. split.
    - exact (Hm lockOnePath _ Ep).
    - intros p d. cbn [processed popStack]. apply Hm. }
  intros H. apply bind_Ok in H as [[d t] [Hfe H]]. inversion H; subst.
  destruct (forEach_plain (Builder.one root loopFuel fuel) path lockNode IH
              (find_plain root loopFuel _ _ lockNode root_plain Hf)
              (Obj.keys (lrequires lockNode)) [] _ ds t
              (fun k Hk => Hk) Hfe eq_refl) as [Hd Ht].
  { intros p ds0. cbn [processed pushStack]. apply Hm. }
  split; [exact Hd|].
  intros p ds0. cbn [processed setProcessed popStack].
  destruct (String.eqb lockOnePath p) eqn:E.
  - apply String.eqb_eq in E. subst p. rewrite get_set_same.
    intros G. now inversion G; subst.
  - apply String.eqb_neq in E. rewrite get_set_other by assumption.
    apply Ht.
Qed.

End PlainBuild.

(** The tree built from a lock file whose names are free of the members of
    [Object.prototype] has such names only. *)
Lemma generateDependencyTree_plain root loopFuel fuel g tree g' :
  Plain.lock root = true ->
  generateDependencyTree root loopFuel fuel g = Ok (tree, g') ->
  Plain.tree tree = true.
Proof.
  intros Hp H. unfold generateDependencyTree in H.
  apply bind_Ok in H as [[res st] [H1 H]]. inversion H; subst.
  rewrite tree_unfold.
  destruct (one_plain root loopFuel Hp fuel _ _ _ _ H1) as [Hres _];
    [|exact Hres].
  intros p ds. cbn [processed Obj.get]. discriminate.
Qed.

End PathsFacts.

(** ** More on the differ *)

Module RelockMore.
Import Relock ResultFacts ObjFacts RelockFacts.

(** Every element is a node. *)
Definition allSome (ds : list (option node)) : Prop :=
  forall x, In x ds -> x <> None.

Lemma findFrom_skip pre : forall i k c rest,
  allSome pre -> NoName k pre -> name c = k ->
  findFrom i (pre ++ Some c :: rest) k = Ok (Some (i + List.length pre, c)).
Proof.
  induction pre as [|[d|] pre IH]; intros i k c rest Hs Hno Hc;
    cbn [app findFrom List.length].
  - rewrite Hc, String.eqb_refl. now rewrite Nat.add_0_r.
  - destruct (String.eqb (name d) k) eqn:E.
    + apply String.eqb_eq in E. exfalso. apply (Hno d); [now left | exact E].
    + rewrite IH; auto.
      * do 3 f_equal. lia.
      * intros x Hx. apply Hs. now right.
      * intros x Hx. apply Hno. now right.
  - exfalso. apply (Hs None); [now left | reflexivity].
Qed.

Lemma find_skip pre k c rest :
  allSome pre -> NoName k pre -> name c = k ->
  find (pre ++ Some c :: rest) k = Ok (Some c).
Proof.
  intros Hs Hno Hc. unfold find. now rewrite findFrom_skip.
Qed.

(** Looking up by name the node just pushed, when every earlier element of
    its parent is a node. *)
Lemma getNodeAt_pushed_found P t ploc parent x k :
  getNodeAt t P = Ok (Some (ploc, parent)) ->
  allSome (dependencies parent) ->
  NoName k (dependencies parent) ->
  name x = k ->
  getNodeAt (pushAt ploc (Some x) t) (P ++ [k])
  = Ok (Some (ploc ++ [List.length (dependencies parent)], x)).
Proof.
  intros H Hs Hno Hx.
  rewrite getNodeAt_snoc, (getNodeAt_pushAt _ _ (Some x) H).
  cbn [bind]. change (dependencies (pushAt [] (Some x) parent))
    with (dependencies parent ++ [Some x]).
  now rewrite (@findFrom_skip _ 0 k x [] Hs Hno Hx).
Qed.

Lemma namesAre_allSome ds : forall ks,
  Shape.namesAre ds ks = true -> allSome ds.
Proof.
  induction ds as [|[d|] ds IH]; intros ks H x Hx; simpl in *.
  - contradiction.
  - destruct ks as [|k ks]; [discriminate|].
    apply andb_true_iff in H as [_ H].
    destruct Hx as [<-|Hx]; [discriminate | eapply IH; eauto].
  - discriminate.
Qed.

Lemma namesAre_names ds : forall ks d,
  Shape.namesAre ds ks = true -> In (Some d) ds -> In (name d) ks.
Proof.
  induction ds as [|[c|] ds IH]; intros ks d H Hd; simpl in *.
  - contradiction.
  - destruct ks as [|k ks]; [discriminate|].
    apply andb_true_iff in H as [Hk H]. apply String.eqb_eq in Hk.
    destruct Hd as [Hd|Hd]; [inversion Hd; subst; now left|].
    right. eapply IH; eauto.
  - discriminate.
Qed.

(** In an array that holds the nodes of distinct names, in their order, the
    node at the position of a name is the first of that name. *)
Lemma namesAre_firstNamed ds : forall ks i k,
  Shape.namesAre ds ks = true -> NoDup ks -> nth_error ks i = Some k ->
  exists d, nth_error ds i = Some (Some d) /\ name d = k /\
            firstNamed ds k d.
Proof.
  induction ds as [|[d0|] r IH]; intros ks i k H Hnd Hi;
    destruct ks as [|k0 ks]; cbn [Shape.namesAre] in H; try discriminate.
  - destruct i; discriminate.
  - apply andb_true_iff in H as [H0 H]. apply String.eqb_eq in H0.
    inversion Hnd as [|? ? Hk0 Hnd']; subst.
    destruct i as [|i]; cbn [nth_error] in *.
    + inversion Hi; subst. exists d0. split; [reflexivity|].
      split; [reflexivity|]. exists [], r. split; [reflexivity|].
      split; [reflexivity|]. intros x [].
    + destruct (IH ks i k H Hnd' Hi) as (d & Hd & Hn & pre & rest & E & _ & Hpre).
      exists d. split; [exact Hd|]. split; [exact Hn|].
      exists (Some d0 :: pre), rest. split; [now rewrite E|].
      split; [exact Hn|]. intros x [<-|Hx]; [|now apply Hpre].
      exists d0. split; [reflexivity|]. intros E0. apply Hk0. rewrite E0.
      eapply nth_error_In; eauto.
Qed.

Unset Implicit Arguments.

Lemma namesAre_snoc pre : forall ks0 c k,
  Shape.namesAre pre ks0 = true -> name c = k ->
  Shape.namesAre (pre ++ [Some c]) (ks0 ++ [k]) = true.
Proof.
  induction pre as [|[d|] pre IH]; intros ks0 c k H Hc; simpl in *.
  - destruct ks0; [|discriminate]. simpl. now rewrite Hc, String.eqb_refl.
  - destruct ks0 as [|k0 ks0]; [discriminate|].
    apply andb_true_iff in H as [H0 H]. simpl. rewrite H0. simpl. auto.
  - discriminate.
Qed.

Lemma walkable_unfold projectFiles regexFound n :
  Shape.walkable projectFiles regexFound n = true ->
  Shape.namesAre (dependencies n) (Obj.keys (requires n)) = true /\
  forall c, In (Some c) (dependencies n) ->
            isProjectModule projectFiles regexFound (name c) = true ->
            Shape.walkable projectFiles regexFound c = true.
Proof.
  destruct n as [nm v s tg rq g ds]. cbn [Shape.walkable dependencies requires].
  intros H. apply andb_true_iff in H as [H1 H2]. split; [exact H1|].
  clear H1. induction ds as [|[d|] ds IH]; intros c Hc Hp.
  - contradiction.
  - apply andb_true_iff in H2 as [Hd H2].
    destruct Hc as [Hc|Hc]; [|now apply IH].
    inversion Hc; subst. now rewrite Hp in Hd.
  - discriminate.
Qed.

Lemma withDependencies_same n : withDependencies n (dependencies n) = n.
Proof. now destruct n. Qed.

Section SelfRelock.

Variable projectFiles : list string.
Variable regexFound : string -> string -> bool.
Variable t : node.

(** The tree under construction when [one(path)] is entered: [T x] is that
    tree once [x] is added for [path], [loc] the position [x] gets.  Every
    element already pushed into the parent is a node. *)
Definition Start (path : list string) (st : option node)
    (T : node -> node) (loc : list nat) : Prop :=
  (path = [] /\ T = (fun x => x) /\ loc = []) \/
  (exists P k t0 ploc parent,
      path = P ++ [k] /\ st = Some t0 /\
      getNodeAt t0 P = Ok (Some (ploc, parent)) /\
      allSome (dependencies parent) /\
      NoName k (dependencies parent) /\
      T = (fun x => pushAt ploc (Some x) t0) /\
      loc = ploc ++ [List.length (dependencies parent)]).

Lemma addNode_start path st T loc nd :
  Start path st T loc -> addNode nd path st = Ok (Some (T nd), loc).
Proof.
  intros [(-> & -> & ->) |
          (P & k & t0 & ploc & parent & -> & -> & Hg & _ & _ & -> & ->)].
  - reflexivity.
  - unfold addNode. destruct (P ++ [k]) eqn:E; [now destruct P|].
    rewrite <- E, removelast_last, Hg. reflexivity.
Qed.

Lemma start_push path st T loc e x :
  Start path st T loc -> pushAt loc e (T x) = T (pushAt [] e x).
Proof.
  intros [(_ & -> & ->) |
          (P & k & t0 & ploc & parent & _ & _ & Hg & _ & _ & -> & ->)].
  - reflexivity.
  - eapply pushAt_pushed; eauto.
Qed.

Lemma start_lookup path st T loc x :
  Start path st T loc ->
  (forall P k, path = P ++ [k] -> name x = k) ->
  getNodeAt (T x) path = Ok (Some (loc, x)).
Proof.
  intros [(-> & -> & ->) |
          (P & k & t0 & ploc & parent & -> & _ & Hg & Hs & Hno & -> & ->)] Hn.
  - reflexivity.
  - apply getNodeAt_pushed_found; auto. now apply (Hn P).
Qed.

Lemma getNode_child path n k c :
  getNode t path = Ok (Some n) ->
  find (dependencies n) k = Ok (Some c) ->
  getNode t (path ++ [k]) = Ok (Some c).
Proof.
  unfold getNode, find. intros H Hf.
  apply bind_Ok in H as [[[l q]|] [Hq H]]; simpl in H; inversion H; subst.
  apply bind_Ok in Hf as [[[i d]|] [Hd Hf]]; simpl in Hf; inversion Hf; subst.
  rewrite getNodeAt_snoc, Hq. cbn [bind]. rewrite Hd. reflexivity.
Qed.

Lemma one_self : forall fuel path n st T loc,
  getNode t path = Ok (Some n) ->
  Shape.walkable projectFiles regexFound n = true ->
  height n < fuel ->
  Start path st T loc ->
  Relock.one projectFiles regexFound t t fuel path st = Ok (Some (T n)).
Proof.
  induction fuel as [|fuel IH]; intros path n st T loc Hg Hw Hh Hst; [lia|].
  cbn [Relock.one]. rewrite Hg. cbn [bind].
  rewrite (addNode_start path st T loc (withDependencies n []) Hst). cbn [bind].
  destruct (walkable_unfold _ _ _ Hw) as [Hnames Hsub].
  pose proof (keys_NoDup (requires n)) as Hnd.
  assert (K : forall ks pre rest ks0,
             dependencies n = pre ++ rest ->
             Obj.keys (requires n) = ks0 ++ ks ->
             Shape.namesAre pre ks0 = true ->
             Shape.namesAre rest ks = true ->
             forKeys (oneKey projectFiles regexFound
                        (Relock.one projectFiles regexFound t t fuel)
                        path n (Some n) loc)
                     ks (Some (T (withDependencies n pre)))
             = Ok (Some (T (withDependencies n (pre ++ rest))))).
  { induction ks as [|k ks IHk]; intros pre rest ks0 Hd Hk Hpre Hrest.
    - destruct rest as [|[c|] rest]; try discriminate.
      now rewrite app_nil_r.
    - destruct rest as [|[c|] rest]; try discriminate.
      cbn [Shape.namesAre] in Hrest.
      apply andb_true_iff in Hrest as [Hc Hrest]. apply String.eqb_eq in Hc.
      assert (Hs : allSome pre) by (eapply namesAre_allSome; eauto).
      assert (Hno : NoName k pre).
      { intros d Hin E. rewrite Hk in Hnd. apply NoDup_remove_2 in Hnd.
        apply Hnd, in_or_app. left. rewrite <- E.
        eapply namesAre_names; eauto. }
      assert (Hfind : find (dependencies n) k = Ok (Some c))
        by (rewrite Hd; now apply find_skip).
      assert (Hpush : pushDep loc (Some c) (Some (T (withDependencies n pre)))
                      = Some (T (withDependencies n (pre ++ [Some c])))).
      { cbn [pushDep option_map]. now rewrite (start_push path st T loc (Some c) _ Hst). }
      assert (Hstep : oneKey projectFiles regexFound
                        (Relock.one projectFiles regexFound t t fuel)
                        path n (Some n) loc k
                        (Some (T (withDependencies n pre)))
                      = Ok (Some (T (withDependencies n (pre ++ [Some c]))))).
      { unfold oneKey.
        assert (Hkey : Obj.get (requires n) k <> None).
        { apply PathsFacts.keys_get. rewrite Hk. apply in_or_app.
          right. now left. }
        unfold Proto.inherited.
        destruct (Obj.get (requires n) k) as [v|]; [|contradiction].
        cbn [falsy]. destruct (String.eqb v "").
        { rewrite Hfind. cbn [bind]. now rewrite Hpush. }
        rewrite notPatch_same, optEqb_refl. cbn [negb orb].
        destruct (isProjectModule projectFiles regexFound k) eqn:PM.
        2:{ rewrite Hfind. cbn [bind]. now rewrite Hpush. }
        rewrite (IH (path ++ [k]) c (Some (T (withDependencies n pre)))
                    (fun y => pushAt loc (Some y) (T (withDependencies n pre)))
                    (loc ++ [List.length pre])).
        - now rewrite <- Hpush.
        - eapply getNode_child; eauto.
        - apply Hsub; [|now rewrite Hc].
          rewrite Hd. apply in_or_app. right. now left.
        - assert (height c < height n); [|lia].
          apply height_child. rewrite Hd. apply in_or_app. right. now left.
        - right. exists path, k, (T (withDependencies n pre)), loc,
            (withDependencies n pre).
          split; [reflexivity|]. split; [reflexivity|].
          split.
          { apply (start_lookup _ st T loc _ Hst). intros P k0 E. subst path.
            cbn [name withDependencies]. eapply getNode_name; eauto. }
          split; [exact Hs|]. split; [exact Hno|].
          split; reflexivity. }
      cbn [forKeys]. rewrite Hstep. cbn [bind].
      rewrite (IHk (pre ++ [Some c]) rest (ks0 ++ [k])).
      + now rewrite <- app_assoc.
      + now rewrite Hd, <- app_assoc.
      + now rewrite Hk, <- app_assoc.
      + now apply namesAre_snoc.
      + exact Hrest. }
  rewrite (K (Obj.keys (requires n)) [] (dependencies n) []);
    try reflexivity; auto.
  cbn [app]. now rewrite withDependencies_same.
Qed.

End SelfRelock.

(** X12.  Relocking a tree against itself gives that tree back, whatever the
    project modules are, when the patterns of the project files are ones
    that [new RegExp] compiles (here: without metacharacters) and the
    dependencies of the root and of every project module walked below it
    are the nodes of the required names. *)
Theorem relock_of_an_unchanged_tree :
  forall projectFiles regexFound t,
    forallb Pattern.literal projectFiles = true ->
    Shape.walkable projectFiles regexFound t = true ->
    relockTree projectFiles regexFound t t = Ok (Some t).
Proof.
  intros projectFiles regexFound t _ Hw. unfold relockTree.
  apply (one_self projectFiles regexFound t (S (height t)) [] t None
           (fun x => x) []); auto.
  now left.
Qed.

Lemma relock_of_an_unchanged_tree_witness :
  relockTree Examples.projectFiles Str.includes Examples.prevProject
             Examples.prevProject
  = Ok (Some Examples.prevProject).
Proof.
  apply (relock_of_an_unchanged_tree Examples.projectFiles Str.includes
           Examples.prevProject); vm_compute; reflexivity.
Defined.

(** *** What [notPatch] compares *)

Lemma contains_append c a b :
  Str.contains c (a ++ b) = Str.contains c a || Str.contains c b.
Proof.
  induction a as [|d a IH]; simpl; [reflexivity|].
  now rewrite IH, orb_assoc.
Qed.

Lemma removeFirst_absent c s :
  Str.contains c s = false -> Str.removeFirst c s = s.
Proof.
  induction s as [|d s IH]; simpl; [reflexivity|].
  intros H. apply orb_false_iff in H as [H1 H2].
  rewrite H1. now rewrite IH.
Qed.

Lemma split_absent sep x : Str.contains sep x = false -> Str.split sep x = [x].
Proof.
  induction x as [|d x IH]; simpl; [reflexivity|].
  intros H. apply orb_false_iff in H as [H1 H2].
  rewrite H1. now rewrite IH.
Qed.

Lemma split_append sep x s :
  Str.contains sep x = false ->
  Str.split sep (x ++ String sep s) = x :: Str.split sep s.
Proof.
  induction x as [|d x IH]; simpl.
  - intros _. now rewrite Ascii.eqb_refl.
  - intros H. apply orb_false_iff in H as [H1 H2].
    rewrite H1. now rewrite IH.
Qed.

(** Splitting the join of pieces that do not hold the separator gives the
    pieces back. *)
Lemma split_join sep l :
  l <> [] -> forallb (fun p => negb (Str.contains sep p)) l = true ->
  Str.split sep (Str.join sep l) = l.
Proof.
  induction l as [|x r IH]; intros Hne H; [contradiction|].
  cbn [forallb] in H. apply andb_true_iff in H as [Hx Hr].
  apply negb_true_iff in Hx.
  destruct r as [|y r].
  - now apply split_absent.
  - change (Str.join sep (x :: y :: r))
      with (x ++ String sep (Str.join sep (y :: r)))%string.
    rewrite split_append by assumption. f_equal.
    apply IH; [discriminate | assumption].
Qed.

Lemma contains_join c sep l :
  Ascii.eqb sep c = false ->
  forallb (fun p => negb (Str.contains c p)) l = true ->
  Str.contains c (Str.join sep l) = false.
Proof.
  intros Hc. induction l as [|x r IH]; intros H; [reflexivity|].
  cbn [forallb] in H. apply andb_true_iff in H as [Hx Hr].
  apply negb_true_iff in Hx. destruct r as [|y r]; [exact Hx|].
  change (Str.join sep (x :: y :: r))
    with (x ++ String sep (Str.join sep (y :: r)))%string.
  rewrite contains_append, Hx. cbn [orb Str.contains]. rewrite Hc.
  now apply IH.
Qed.

Lemma forallb_weaken {A} (f g : A -> bool) l :
  (forall x, f x = true -> g x = true) ->
  forallb f l = true -> forallb g l = true.
Proof.
  intros Hfg. induction l as [|x r IH]; simpl; [auto|].
  intros H. apply andb_true_iff in H as [Hx Hr].
  now rewrite (Hfg _ Hx), IH.
Qed.

Lemma cleanSemVer_range q parts :
  Versions.qualifier q = true ->
  forallb Versions.component parts = true ->
  cleanSemVer (Versions.range q parts) = Str.join "."%char parts.
Proof.
  intros Hq Hp.
  assert (Ht : Str.contains "~"%char (Str.join "."%char parts) = false).
  { apply contains_join; [reflexivity|].
    apply (forallb_weaken Versions.component); [|exact Hp].
    unfold Versions.component. intros x Hx.
    apply andb_true_iff in Hx as [Hx _]. now apply andb_true_iff in Hx as [_ Hx]. }
  assert (Hc : Str.contains "^"%char (Str.join "."%char parts) = false).
  { apply contains_join; [reflexivity|].
    apply (forallb_weaken Versions.component); [|exact Hp].
    unfold Versions.component. intros x Hx.
    now apply andb_true_iff in Hx as [_ Hx]. }
  unfold Versions.qualifier in Hq. unfold cleanSemVer, Versions.range.
  apply orb_true_iff in Hq as [Hq|Hq]; [apply orb_true_iff in Hq as [Hq|Hq]|];
    apply String.eqb_eq in Hq; subst q; cbn [append Str.removeFirst Ascii.eqb
                                              Bool.eqb].
  - now rewrite (removeFirst_absent _ _ Ht), (removeFirst_absent _ _ Hc).
  - now apply removeFirst_absent.
  - rewrite (removeFirst_absent _ _ Ht). cbn [Str.removeFirst].
    reflexivity.
Qed.

(** X13.  On ranges written as an optional tilde or caret and at least two dotted
    components, [notPatch] says whether the first or the second component
    differs; the qualifiers and the later components do not count. *)
Theorem notPatch_compares_major_and_minor :
  forall q1 q2 major1 minor1 rest1 major2 minor2 rest2,
    Versions.qualifier q1 = true -> Versions.qualifier q2 = true ->
    forallb Versions.component (major1 :: minor1 :: rest1) = true ->
    forallb Versions.component (major2 :: minor2 :: rest2) = true ->
    notPatch (Versions.range q1 (major1 :: minor1 :: rest1))
             (Versions.range q2 (major2 :: minor2 :: rest2))
    = negb (String.eqb major1 major2) || negb (String.eqb minor1 minor2).
Proof.
  intros q1 q2 major1 minor1 rest1 major2 minor2 rest2 Hq1 Hq2 H1 H2.
  unfold notPatch.
  rewrite (cleanSemVer_range _ _ Hq1 H1), (cleanSemVer_range _ _ Hq2 H2).
  assert (Hdot : forall x, Versions.component x = true ->
                           negb (Str.contains "."%char x) = true).
  { unfold Versions.component. intros x Hx.
    apply andb_true_iff in Hx as [Hx _]. now apply andb_true_iff in Hx as [Hx _]. }
  rewrite !split_join;
    try discriminate; try (eapply forallb_weaken; [exact Hdot | assumption]).
  reflexivity.
Qed.

Lemma notPatch_compares_major_and_minor_witness :
  notPatch (Versions.range "^" ["1"; "2"; "0"])
           (Versions.range "~" ["1"; "2"; "5"])
  = negb (String.eqb "1" "1") || negb (String.eqb "2" "2").
Proof.
  apply (notPatch_compares_major_and_minor "^" "~" "1" "2" ["0"] "1" "2" ["5"]);
    reflexivity.
Defined.

(** *** The result of [relockTree] *)

(** X14.  [relockTree] finishes on every pair of trees: its recursion goes one
    level down the current tree at each call, so it returns or throws within
    the height of that tree. *)
Theorem relockTree_always_finishes :
  forall projectFiles regexFound prevTree curTree,
    relockTree projectFiles regexFound prevTree curTree <> Timeout.
Proof.
  intros projectFiles regexFound prevTree curTree.
  apply relockTree_finishes.
Qed.

Lemma mixKey_named projectFiles regexFound rec path c p k e :
  (forall m, rec (path ++ [k]) = Ok m -> name m = k) ->
  mixKey projectFiles regexFound rec path c p k = Ok e ->
  e = None \/ exists d, e = Some d /\ name d = k.
Proof.
  intros Hrec. unfold mixKey. destruct p as [p|]; [|discriminate].
  assert (F : forall ds, find ds k = Ok e ->
                         e = None \/ exists d, e = Some d /\ name d = k).
  { intros ds H. destruct e as [d|]; [right | now left].
    exists d. split; [reflexivity|]. eapply find_name; eauto. }
  destruct (Proto.inherited _ _); [discriminate|].
  destruct (falsy _); [apply F|].
  destruct (notPatch _ _); [apply F|].
  destruct (_ || _); [|apply F].
  intros H. apply bind_Ok in H as [m [Hm H]]. inversion H; subst.
  right. exists m. split; [reflexivity | now apply Hrec].
Qed.

Lemma mapKeys_named step ks : forall ds,
  (forall k e, step k = Ok e ->
               e = None \/ exists d, e = Some d /\ name d = k) ->
  mapKeys step ks = Ok ds ->
  Shape.namedOrUndefined ds ks = true.
Proof.
  induction ks as [|k ks IH]; intros ds Hstep H; cbn [mapKeys] in H.
  - now inversion H.
  - apply bind_Ok in H as [e [He H]]. apply bind_Ok in H as [es [Hes H]].
    inversion H; subst. cbn [Shape.namedOrUndefined].
    destruct (Hstep _ _ He) as [->|(d & -> & Hd)].
    + now apply IH.
    + rewrite Hd, String.eqb_refl. now apply IH.
Qed.

(** X15.  When [relockTree] returns, it returns a tree: the current root with its
    own name, version, requires and signature, and as dependencies one
    element per name the current root requires, in that order, each a node
    of that name or [undefined]. *)
Theorem mixed_root_follows_the_current_requires :
  forall projectFiles regexFound prevTree curTree mixed,
    relockTree projectFiles regexFound prevTree curTree = Ok mixed ->
    exists m, mixed = Some m /\ sameMeta m curTree /\
              Shape.namedOrUndefined (dependencies m)
                (Obj.keys (requires curTree)) = true.
Proof.
  intros projectFiles regexFound prevTree curTree mixed H.
  apply relockTree_mix in H as (m & -> & Hm). exists m.
  split; [reflexivity|]. cbn [mix] in Hm.
  change (getNode curTree []) with (Ok (Some curTree)) in Hm.
  change (getNode prevTree []) with (Ok (Some prevTree)) in Hm.
  cbn [bind] in Hm. apply bind_Ok in Hm as [ds [Hds Hm]].
  inversion Hm; subst. split; [repeat split|].
  cbn [dependencies withDependencies].
  apply (mapKeys_named _ _ ds) in Hds; [exact Hds|].
  intros k e. apply mixKey_named. intros m0. apply mix_name.
Qed.

Lemma mixed_root_follows_the_current_requires_witness :
  exists m, Some Examples.mixedTree = Some m /\
            sameMeta m Examples.curTree /\
            Shape.namedOrUndefined (dependencies m)
              (Obj.keys (requires Examples.curTree)) = true.
Proof.
  apply (mixed_root_follows_the_current_requires [] Examples.noRegex
           Examples.prevTree Examples.curTree (Some Examples.mixedTree)).
  vm_compute. reflexivity.
Defined.

End RelockMore.

(** ** More on the hoister *)

Module HoistMore.
Import Hoist ResultFacts.

Unset Implicit Arguments.

(** *** The order of the modules *)

Lemma compare_Lt_before a b : compare a b = Lt -> HoistOrder.before a b.
Proof.
  unfold compare, HoistOrder.before.
  destruct (Nat.compare_spec (depth a) (depth b)) as [E|L|G];
    [|now left|discriminate].
  destruct (Nat.compare_spec (List.length (paths b)) (List.length (paths a)))
    as [E'|L'|G']; [|intros _; right; lia|discriminate].
  intros _. right. lia.
Qed.

Lemma compare_not_Lt_before a b : compare a b <> Lt -> HoistOrder.before b a.
Proof.
  unfold compare, HoistOrder.before.
  destruct (Nat.compare_spec (depth a) (depth b)) as [E|L|G];
    [|congruence|now left].
  destruct (Nat.compare_spec (List.length (paths b)) (List.length (paths a)))
    as [E'|L'|G']; [|congruence|intros _; right; lia].
  intros _. right. lia.
Qed.

Lemma before_trans a b c :
  HoistOrder.before a b -> HoistOrder.before b c -> HoistOrder.before a c.
Proof. unfold HoistOrder.before. lia. Qed.

Lemma insertSorted_perm m l : Permutation (m :: l) (insertSorted m l).
Proof.
  induction l as [|x r IH]; simpl; [reflexivity|].
  destruct (compare m x); try reflexivity;
    (eapply perm_trans; [apply perm_swap | now apply perm_skip]).
Qed.

Lemma insertSorted_all (Q : module -> Prop) m l :
  Q m -> Forall Q l -> Forall Q (insertSorted m l).
Proof.
  intros Hm H. induction H as [|x r Hx Hr IH]; simpl.
  - now constructor.
  - destruct (compare m x); repeat constructor; auto.
Qed.

Lemma insertSorted_sorted m l :
  StronglySorted HoistOrder.before l ->
  StronglySorted HoistOrder.before (insertSorted m l).
Proof.
  induction 1 as [|x r Hs IH Hx]; simpl.
  - repeat constructor.
  - destruct (compare m x) eqn:E.
    + constructor; [exact IH|]. apply insertSorted_all; [|exact Hx].
      apply compare_not_Lt_before. congruence.
    + apply compare_Lt_before in E.
      constructor; [now constructor|]. constructor; [exact E|].
      eapply Forall_impl; [|exact Hx].
      intros y Hy. eapply before_trans; eauto.
    + constructor; [exact IH|]. apply insertSorted_all; [|exact Hx].
      apply compare_not_Lt_before. congruence.
Qed.

(** X16.  [sortModules] keeps every module, once each, and puts them in order of
    depth, shallowest first, and among modules of one depth the one on more
    paths first. *)
Theorem sortModules_orders_by_depth_then_use :
  forall l, Permutation l (sortModules l)
            /\ StronglySorted HoistOrder.before (sortModules l).
Proof.
  intros l. unfold sortModules.
  assert (G : forall acc,
             StronglySorted HoistOrder.before acc ->
             Permutation (acc ++ l)
               (fold_left (fun acc m => insertSorted m acc) l acc)
             /\ StronglySorted HoistOrder.before
                  (fold_left (fun acc m => insertSorted m acc) l acc)).
  { induction l as [|m r IH]; intros acc Hs; cbn [fold_left].
    - rewrite app_nil_r. split; [reflexivity | exact Hs].
    - destruct (IH (insertSorted m acc) (insertSorted_sorted m acc Hs))
        as [Hp Hsorted].
      split; [|exact Hsorted].
      eapply perm_trans; [|exact Hp].
      eapply perm_trans; [symmetry; apply Permutation_middle|].
      change (m :: acc ++ r) with ((m :: acc) ++ r).
      apply Permutation_app_tail, insertSorted_perm. }
  destruct (G [] (SSorted_nil _)) as [Hp Hs]. split; assumption.
Qed.

(** *** Trees that can be flattened *)

Lemma buildIndexes_defined nd : forall path modules,
  (Shape.defined nd = true ->
   exists modules', buildIndexes nd path modules = Ok modules')
  /\ (Shape.defined nd = false ->
      buildIndexes nd path modules = Throw TypeError).
Proof.
  induction nd as [n v s t r g ds IH] using NodeFacts.node_induction.
  intros path modules. cbn [buildIndexes Shape.defined].
  revert modules. induction IH as [|o l Ho Hl IHl]; intros modules.
  - split; [eauto | discriminate].
  - destruct o as [c|].
    + destruct (Ho (path ++ [name c]) (indexOne c path modules)) as [H1 H2].
      destruct (Shape.defined c) eqn:D.
      * destruct (H1 eq_refl) as [m' E]. rewrite E. cbn [bind andb].
        apply IHl.
      * rewrite (H2 eq_refl). cbn [bind andb].
        split; [discriminate | reflexivity].
    + split; [discriminate | reflexivity].
Qed.

(** X17.  [flattenTree] returns a placement tree for the trees that hold no
    [undefined] dependency and no name that is a member of
    [Object.prototype]; on a tree that holds an [undefined] dependency it
    throws a TypeError, at the first [undefined] element that
    [buildIndexes] walks over. *)
Theorem flattenTree_returns_unless_undefined :
  forall tree,
    (Plain.tree tree = true -> Shape.defined tree = true ->
     exists flat, flattenTree tree = Ok flat)
    /\ (Shape.defined tree = false -> flattenTree tree = Throw TypeError).
Proof.
  intros tree. unfold flattenTree.
  destruct (buildIndexes_defined tree [] []) as [H1 H2]. split.
  - intros _ D. destruct (H1 D) as [m E]. rewrite E. cbn [bind]. eauto.
  - intros D. now rewrite (H2 D).
Qed.

Lemma shaped_defined n : Shape.shaped n = true -> Shape.defined n = true.
Proof.
  induction n as [nm v s t r g ds IH] using NodeFacts.node_induction.
  cbn [Shape.shaped Shape.defined]. intros H.
  apply andb_true_iff in H as [_ H]. revert H.
  induction IH as [|o l Ho Hl IHl]; [reflexivity|].
  destruct o as [c|]; [|discriminate].
  intros H. apply andb_true_iff in H as [Hc H].
  now rewrite (Ho Hc), (IHl H).
Qed.

(** X18.  Every tree that [generateDependencyTree] returns for a lock file
    without a name that is a member of [Object.prototype] can be flattened:
    it has no such name and no [undefined] dependency, and [flattenTree]
    returns a placement tree for it. *)
Theorem built_tree_can_be_flattened :
  forall root loopFuel fuel g tree g',
    Plain.lock root = true ->
    Builder.generateDependencyTree root loopFuel fuel g = Ok (tree, g') ->
    Plain.tree tree = true /\ Shape.defined tree = true /\
    exists flat, flattenTree tree = Ok flat.
Proof.
  intros root loopFuel fuel g tree g' Hp H.
  split; [exact (PathsFacts.generateDependencyTree_plain _ _ _ _ _ _ Hp H)|].
  apply PathsFacts.generateDependencyTree_shaped, shaped_defined in H.
  split; [exact H|]. unfold flattenTree.
  destruct (buildIndexes_defined tree [] []) as [H1 _].
  destruct (H1 H) as [m E]. rewrite E. cbn [bind]. eauto.
Qed.

Lemma built_tree_can_be_flattened_witness :
  Plain.tree Examples.threeVersionsTree = true /\
  Shape.defined Examples.threeVersionsTree = true /\
  exists flat, flattenTree Examples.threeVersionsTree = Ok flat.
Proof.
  apply (built_tree_can_be_flattened Examples.threeVersionsLock
           Examples.fuel Examples.fuel noGlobals Examples.threeVersionsTree
           (Examples.globalsAfter
              (Examples.build Examples.threeVersionsLock noGlobals)));
    vm_compute; reflexivity.
Defined.

(** *** What [add] does to the placement tree *)

Fixpoint variantsOf (l : list (string * pnode)) : list (option string) :=
  match l with
  | [] => []
  | (_, c) :: r => pvariant c :: placedVariants c ++ variantsOf r
  end.

Lemma placedVariants_unfold n v vr deps :
  placedVariants (PNode n v vr deps) = variantsOf deps.
Proof. reflexivity. Qed.

Lemma variantsOf_get deps k c :
  Obj.get deps k = Some c -> In (pvariant c) (variantsOf deps).
Proof.
  induction deps as [|[k0 c0] r IH]; simpl; [discriminate|].
  destruct (String.eqb k0 k).
  - intros H. inversion H; subst. now left.
  - intros H. right. apply in_or_app. right. now apply IH.
Qed.

Lemma variantsOf_set deps k c :
  In (pvariant c) (variantsOf (Obj.set deps k c)).
Proof.
  induction deps as [|[k0 c0] r IH]; simpl; [now left|].
  destruct (String.eqb k0 k); simpl; [now left|].
  right. apply in_or_app. now right.
Qed.

Lemma insert_placed nd nm ver var :
  In (Some var) (placedVariants (insert nd nm ver var)).
Proof.
  destruct nd as [n v vr deps]. unfold insert. cbn [pname pversion pvariant
                                                      pdependencies].
  rewrite placedVariants_unfold.
  apply (variantsOf_set deps nm (PNode nm ver (Some var) [])).
Qed.

Lemma addAt_placed nm ver var : forall nd searchPath,
  In (Some var) (placedVariants (fst (addAt nm ver var nd searchPath))).
Proof.
  intros nd. induction nd as [n v vr deps IH] using RecordsFacts.pnode_induction.
  intros searchPath. rewrite RecordsFacts.addAt_unfold.
  destruct (Obj.get deps nm) as [found|] eqn:G; [|apply insert_placed].
  destruct (optEqbVariant (pvariant found) var) eqn:V.
  { cbn [fst]. rewrite placedVariants_unfold.
    apply variantsOf_get in G. unfold optEqbVariant in V.
    destruct (pvariant found) as [x|]; [|discriminate].
    apply String.eqb_eq in V. now subst x. }
  destruct (RecordsFacts.inChild _ _ deps) as [[deps' b]|] eqn:E;
    [|apply insert_placed].
  cbn [fst]. rewrite placedVariants_unfold.
  clear G V. revert deps' E.
  induction IH as [|[k c] r Hc Hr IHr]; intros deps' E; simpl in E;
    [discriminate|].
  destruct (String.eqb k (shiftKey searchPath)).
  - specialize (Hc (tl searchPath)). cbn [snd] in Hc.
    destruct (addAt nm ver var c (tl searchPath)) as [c' b'].
    inversion E; subst. cbn [variantsOf fst] in *.
    right. apply in_or_app. now left.
  - destruct (RecordsFacts.inChild _ _ r) as [[r' b']|]; [|discriminate].
    inversion E; subst. cbn [variantsOf].
    right. apply in_or_app. right. now apply IHr.
Qed.

(** X19.  After [add] the variant is in the placement tree, whatever the tree
    was, when neither the name of the variant nor a part of the path is a
    member of [Object.prototype]. *)
Theorem add_leaves_the_variant_placed :
  forall path var flatTree,
    Proto.plain path = true ->
    Proto.member (List.nth 0 (Str.split bar var) "") = false ->
    In (Some var) (placedVariants (add path var flatTree)).
Proof.
  intros path var flatTree _ _. unfold add. apply addAt_placed.
Qed.

Lemma add_leaves_the_variant_placed_witness :
  In (Some (Examples.variantM "3.0.0"))
     (placedVariants (add "a|b|m" (Examples.variantM "3.0.0")
                          Examples.placedBefore)).
Proof.
  apply (add_leaves_the_variant_placed "a|b|m" (Examples.variantM "3.0.0")
           Examples.placedBefore); reflexivity.
Defined.

(** X20.  When [add] returns false it has left the placement tree as it was. *)
Theorem add_returning_false_changes_nothing :
  forall nm ver var nd searchPath nd',
    addAt nm ver var nd searchPath = (nd', false) -> nd' = nd.
Proof.
  intros nm ver var nd.
  induction nd as [n v vr deps IH] using RecordsFacts.pnode_induction.
  intros searchPath nd'. rewrite RecordsFacts.addAt_unfold.
  destruct (Obj.get deps nm) as [found|]; [|discriminate].
  destruct (optEqbVariant (pvariant found) var).
  { intros H. now inversion H. }
  destruct (RecordsFacts.inChild _ _ deps) as [[deps' b]|] eqn:E;
    [|discriminate].
  intros H. inversion H; subst. f_equal.
  clear H. revert deps' E.
  induction IH as [|[k c] r Hc Hr IHr]; intros deps' E; simpl in E;
    [discriminate|].
  destruct (String.eqb k (shiftKey searchPath)).
  - destruct (addAt nm ver var c (tl searchPath)) as [c' b'] eqn:Ea.
    inversion E; subst. cbn [snd] in Hc.
    now rewrite (Hc (tl searchPath) c' Ea).
  - destruct (RecordsFacts.inChild _ _ r) as [[r' b']|]; [|discriminate].
    inversion E; subst. f_equal. now apply IHr.
Qed.

Lemma add_returning_false_changes_nothing_witness :
  fst (addAt "m" (Some "2.0.0") (Examples.variantM "2.0.0")
         Examples.placedBefore ["a"; "m"])
  = Examples.placedBefore.
Proof.
  apply (add_returning_false_changes_nothing "m" (Some "2.0.0")
           (Examples.variantM "2.0.0") Examples.placedBefore ["a"; "m"]).
  vm_compute. reflexivity.
Defined.

(** *** What [buildIndexes] records *)

(** The index only grows: a variant keeps its module, with at least the
    same paths and at most the same depth. *)
Definition extends (modules modules' : Obj.t module) : Prop :=
  forall v m, Obj.get modules v = Some m ->
    exists m', Obj.get modules' v = Some m' /\
               incl (paths m) (paths m') /\ depth m' <= depth m.

Lemma extends_refl modules : extends modules modules.
Proof. intros v m H. exists m. split; [exact H|]. split; [apply incl_refl | lia]. Qed.

Lemma extends_trans a b c : extends a b -> extends b c -> extends a c.
Proof.
  intros Hab Hbc v m H. destruct (Hab v m H) as (m1 & H1 & I1 & D1).
  destruct (Hbc v m1 H1) as (m2 & H2 & I2 & D2). exists m2.
  split; [exact H2|]. split; [eapply incl_tran; eauto | lia].
Qed.

Lemma indexed_extends modules modules' names d :
  Occurs.indexed modules names d -> extends modules modules' ->
  Occurs.indexed modules' names d.
Proof.
  intros (m & Hm & Hin & Hd) He. destruct (He _ m Hm) as (m' & Hm' & I & D).
  exists m'. split; [exact Hm'|]. split; [now apply I | lia].
Qed.

Lemma indexOne_extends d path modules :
  extends modules (indexOne d path modules).
Proof.
  intros v m H. unfold indexOne.
  destruct (String.eqb (variantOf d) v) eqn:E.
  - apply String.eqb_eq in E. subst v. rewrite H.
    rewrite BuilderFacts.get_set_same. eexists. split; [reflexivity|].
    cbn [paths depth]. split; [apply incl_appl, incl_refl | lia].
  - apply String.eqb_neq in E.
    rewrite (BuilderFacts.get_set_other modules _ v _ E).
    exists m. split; [exact H|]. split; [apply incl_refl | lia].
Qed.

Lemma indexOne_indexed d path modules :
  Occurs.indexed (indexOne d path modules) (path ++ [name d]) d.
Proof.
  unfold Occurs.indexed, indexOne. rewrite BuilderFacts.get_set_same.
  eexists. split; [reflexivity|]. cbn [paths depth].
  split; [apply in_or_app; right; now left|].
  rewrite length_app. cbn [List.length]. lia.
Qed.

Lemma buildIndexes_occurrences nd : forall path modules modules',
  buildIndexes nd path modules = Ok modules' ->
  extends modules modules'
  /\ forall loc names d,
       Occurs.occursAt nd path loc = Some (names, d) ->
       Occurs.indexed modules' names d.
Proof.
  induction nd as [n v s t r g ds IH] using NodeFacts.node_induction.
  intros path modules modules' H. cbn [buildIndexes] in H.
  assert (K : extends modules modules'
              /\ forall i c, nth_error ds i = Some (Some c) ->
                   Occurs.indexed modules' (path ++ [name c]) c
                   /\ forall loc names d,
                        Occurs.occursAt c (path ++ [name c]) loc
                        = Some (names, d) ->
                        Occurs.indexed modules' names d).
  { revert modules H. induction IH as [|o l Ho Hl IHl]; intros modules H.
    - inversion H; subst. split; [apply extends_refl|].
      intros i c Hi. destruct i; discriminate.
    - destruct o as [c0|]; [|discriminate].
      apply bind_Ok in H as [modules2 [Hc H]].
      destruct (Ho _ _ _ Hc) as [E2 Hbelow].
      destruct (IHl _ H) as [E3 Hrest].
      pose proof (indexOne_extends c0 path modules) as E1.
      split; [eapply extends_trans; [exact E1|];
              eapply extends_trans; eauto|].
      intros i c Hi. destruct i as [|i]; [|exact (Hrest i c Hi)].
      cbn [nth_error] in Hi. inversion Hi; subst c0. split.
      + eapply indexed_extends; [apply indexOne_indexed|].
        eapply extends_trans; eauto.
      + intros loc names d Hocc. eapply indexed_extends; [|exact E3].
        eapply Hbelow; eauto. }
  destruct K as [E Hall]. split; [exact E|].
  intros loc names d Hocc. destruct loc as [|i loc]; [discriminate|].
  cbn [Occurs.occursAt dependencies] in Hocc.
  destruct (nth_error ds i) as [[c|]|] eqn:Hi; try discriminate.
  destruct (Hall i c Hi) as [Hc Hbelow].
  destruct loc as [|j loc].
  - inversion Hocc; subst. exact Hc.
  - eapply Hbelow; eauto.
Qed.

(** X21.  [buildIndexes] records every occurrence of a module in the tree: the
    index has the variant of the node at any position, with the path of
    names that leads to it among the paths of the module, and the depth of
    the module is at most the depth of that occurrence. *)
Theorem buildIndexes_indexes_every_occurrence :
  forall tree index loc names d,
    buildIndexes tree [] [] = Ok index ->
    Occurs.occursAt tree [] loc = Some (names, d) ->
    Occurs.indexed index names d.
Proof.
  intros tree index loc names d H Hocc.
  destruct (buildIndexes_occurrences tree [] [] index H) as [_ Hall].
  eapply Hall; eauto.
Qed.

Lemma buildIndexes_indexes_every_occurrence_witness :
  Occurs.indexed IndexExamples.threeIndex (fst IndexExamples.firstBelowA)
    (snd IndexExamples.firstBelowA).
Proof.
  apply (buildIndexes_indexes_every_occurrence Examples.threeVersionsTree
           IndexExamples.threeIndex [0; 0] (fst IndexExamples.firstBelowA)
           (snd IndexExamples.firstBelowA)).
  - vm_compute. reflexivity.
  - vm_compute. reflexivity.
Defined.

(** *** The keys of the placement tree *)

Fixpoint ownAll (l : list (string * pnode)) : bool :=
  match l with
  | [] => true
  | (k, c) :: r => String.eqb (pname c) k && Placed.ownNames c && ownAll r
  end.

Lemma ownNames_unfold n v vr deps :
  Placed.ownNames (PNode n v vr deps) = ownAll deps.
Proof. reflexivity. Qed.

Lemma ownAll_set deps k c :
  ownAll deps = true -> pname c = k -> Placed.ownNames c = true ->
  ownAll (Obj.set deps k c) = true.
Proof.
  intros H Hk Hc. induction deps as [|[k0 c0] r IH]; simpl in *.
  - now rewrite Hk, String.eqb_refl, Hc.
  - apply andb_true_iff in H as [H0 Hr].
    destruct (String.eqb k0 k) eqn:E; simpl.
    + apply String.eqb_eq in E. subst k0.
      now rewrite Hk, String.eqb_refl, Hc, Hr.
    + now rewrite H0, IH.
Qed.

Lemma insert_ownNames nd nm ver var :
  Placed.ownNames nd = true ->
  Placed.ownNames (insert nd nm ver var) = true.
Proof.
  destruct nd as [n v vr deps]. unfold insert.
  cbn [pname pversion pvariant pdependencies].
  rewrite !ownNames_unfold. intros H. now apply ownAll_set.
Qed.

Lemma addAt_pname nm ver var nd searchPath :
  pname (fst (addAt nm ver var nd searchPath)) = pname nd.
Proof.
  destruct nd as [n v vr deps]. rewrite RecordsFacts.addAt_unfold.
  destruct (Obj.get deps nm); [|reflexivity].
  destruct (optEqbVariant _ var); [reflexivity|].
  destruct (RecordsFacts.inChild _ _ deps) as [[deps' b]|]; reflexivity.
Qed.

Lemma addAt_ownNames nm ver var : forall nd searchPath,
  Placed.ownNames nd = true ->
  Placed.ownNames (fst (addAt nm ver var nd searchPath)) = true.
Proof.
  intros nd. induction nd as [n v vr deps IH] using RecordsFacts.pnode_induction.
  intros searchPath H. rewrite RecordsFacts.addAt_unfold.
  destruct (Obj.get deps nm) as [found|]; [|now apply insert_ownNames].
  destruct (optEqbVariant _ var); [exact H|].
  destruct (RecordsFacts.inChild _ _ deps) as [[deps' b]|] eqn:E;
    [|now apply insert_ownNames].
  cbn [fst]. rewrite ownNames_unfold in *.
  revert deps' E H.
  induction IH as [|[k c] r Hc Hr IHr]; intros deps' E H; simpl in E;
    [discriminate|].
  cbn [ownAll] in H. apply andb_true_iff in H as [H Hrest].
  apply andb_true_iff in H as [Hk Hown].
  destruct (String.eqb k (shiftKey searchPath)).
  - pose proof (Hc (tl searchPath) Hown) as Hc'.
    pose proof (addAt_pname nm ver var c (tl searchPath)) as Hn.
    cbn [snd] in Hc'.
    destruct (addAt nm ver var c (tl searchPath)) as [c' b'].
    inversion E; subst. cbn [fst] in *. cbn [ownAll].
    now rewrite Hn, Hk, Hc', Hrest.
  - destruct (RecordsFacts.inChild _ _ r) as [[r' b']|]; [|discriminate].
    inversion E; subst. cbn [ownAll]. rewrite Hk, Hown. cbn [andb].
    now apply IHr.
Qed.

Lemma hoist_ownNames tree modules :
  Placed.ownNames (hoist tree modules) = true.
Proof.
  unfold hoist.
  assert (G : forall ms t, Placed.ownNames t = true ->
              Placed.ownNames
                (fold_left (fun t m => hoistOne m t) ms t) = true).
  { induction ms as [|m ms IH]; intros t Ht; cbn [fold_left]; [exact Ht|].
    apply IH. unfold hoistOne.
    generalize (paths m). intros ps. revert t Ht.
    induction ps as [|p ps IHp]; intros t Ht; cbn [fold_left]; [exact Ht|].
    apply IHp. unfold add. now apply addAt_ownNames. }
  now apply G.
Qed.

(** X22.  In the placement tree that [flattenTree] returns every package sits
    under its own name, at every depth. *)
Theorem flattened_tree_is_keyed_by_name :
  forall tree flat,
    flattenTree tree = Ok flat -> Placed.ownNames flat = true.
Proof.
  intros tree flat H. unfold flattenTree in H.
  apply bind_Ok in H as [index [_ H]]. inversion H; subst.
  apply hoist_ownNames.
Qed.

Lemma flattened_tree_is_keyed_by_name_witness :
  Placed.ownNames Examples.finalTree = true.
Proof.
  apply (flattened_tree_is_keyed_by_name Examples.mixedTree Examples.finalTree).
  vm_compute. reflexivity.
Defined.

End HoistMore.

(** ** More on the assembler *)

Module AssembleMore.
Import Hoist Assemble ResultFacts HoistMore.

Unset Implicit Arguments.

Lemma insertKey_perm {A} (k : string) (a : A) l :
  Permutation ((k, a) :: l) (insertKey k a l).
Proof.
  induction l as [|[k' a'] r IH]; simpl; [reflexivity|].
  destruct (String.compare k k'); try reflexivity;
    (eapply perm_trans; [apply perm_swap | now apply perm_skip]).
Qed.

Lemma sortByKey_perm {A} (l : list (string * A)) :
  Permutation l (sortByKey l).
Proof.
  unfold sortByKey.
  assert (G : forall acc,
             Permutation (acc ++ l)
               (fold_left (fun acc p => insertKey (fst p) (snd p) acc) l acc)).
  { induction l as [|[k a] r IH]; intros acc; cbn [fold_left].
    - now rewrite app_nil_r.
    - eapply perm_trans; [|apply IH].
      eapply perm_trans; [symmetry; apply Permutation_middle|].
      change ((k, a) :: acc ++ r) with (((k, a) :: acc) ++ r).
      apply Permutation_app_tail, insertKey_perm. }
  exact (G []).
Qed.

Section Outcome.

Variable store : Obj.t lockEntry.

Definition step : Type :=
  (string * (Obj.t lockEntry -> result (Obj.t lockEntry)))%type.

(** The calls of the callback of lines 535-544 that [one] makes for a
    dependencies object, in the order of its properties. *)
Fixpoint stepsOf (seen : list string) (l : list (string * pnode))
  : list step :=
  match l with
  | [] => []
  | (key, dependency) :: r =>
      if Str.mem key seen then stepsOf seen r
      else (key, assembleOne store dependency (Assemble.one store dependency))
             :: stepsOf (key :: seen) r
  end.

Lemma one_unfold n v vr deps :
  Assemble.one store (PNode n v vr deps)
  = sequence (sortByKey (stepsOf [] deps)) [].
Proof. reflexivity. Qed.

Fixpoint listedAll (seen : list string) (l : list (string * pnode)) : bool :=
  match l with
  | [] => true
  | (k, c) :: r =>
      if Str.mem k seen then listedAll seen r
      else
        match Obj.get store (tagOf (pname c) (pversion c)) with
        | Some _ => true
        | None => false
        end
        && Placed.listedRecorded store c && listedAll (k :: seen) r
  end.

Lemma listedRecorded_unfold n v vr deps :
  Placed.listedRecorded store (PNode n v vr deps) = listedAll [] deps.
Proof. reflexivity. Qed.

Definition good (s : step) : Prop := forall acc, exists r, snd s acc = Ok r.

Definition bad (s : step) : Prop :=
  forall acc, snd s acc = Throw SyntaxError.

Lemma sequence_good l :
  Forall good l -> forall acc, exists r, sequence l acc = Ok r.
Proof.
  induction 1 as [|[k f] r Hf Hr IH]; intros acc; cbn [sequence]; [eauto|].
  destruct (Hf acc) as [acc' E]. cbn [snd] in E. rewrite E. cbn [bind].
  apply IH.
Qed.

Lemma sequence_bad l :
  Forall (fun s => good s \/ bad s) l -> Exists bad l ->
  forall acc, sequence l acc = Throw SyntaxError.
Proof.
  induction 1 as [|[k f] r Hf Hr IH]; intros Hex acc.
  - inversion Hex.
  - cbn [sequence]. destruct Hf as [Hg|Hb].
    + destruct (Hg acc) as [acc' E]. cbn [snd] in E. rewrite E. cbn [bind].
      apply IH. inversion Hex as [? ? Hb|]; subst; [|assumption].
      specialize (Hb acc). cbn [snd] in Hb. congruence.
    + specialize (Hb acc). cbn [snd] in Hb. now rewrite Hb.
Qed.

Lemma one_outcome t :
  (Placed.listedRecorded store t = true ->
   exists out, Assemble.one store t = Ok out)
  /\ (Placed.listedRecorded store t = false ->
      Assemble.one store t = Throw SyntaxError).
Proof.
  induction t as [n v vr deps IH] using RecordsFacts.pnode_induction.
  rewrite one_unfold, listedRecorded_unfold.
  assert (K : forall seen,
             Forall (fun s => good s \/ bad s) (stepsOf seen deps)
             /\ (listedAll seen deps = true -> Forall good (stepsOf seen deps))
             /\ (listedAll seen deps = false -> Exists bad (stepsOf seen deps))).
  { induction IH as [|[k c] r Hc Hr IHr]; intros seen;
      cbn [stepsOf listedAll].
    - split; [constructor|]. split; [constructor | discriminate].
    - destruct (Str.mem k seen); [apply IHr|].
      destruct (IHr (k :: seen)) as (Hall & Hgood & Hbad).
      cbn [snd] in Hc. destruct Hc as [Hok Hthrow].
      destruct (Obj.get store (tagOf (pname c) (pversion c)))
        as [content|] eqn:G.
      + destruct (Placed.listedRecorded store c) eqn:D.
        * destruct (Hok eq_refl) as [sub Esub].
          assert (Hstep : good (k, assembleOne store c (Assemble.one store c))).
          { intros acc. cbn [snd]. unfold assembleOne.
            rewrite G, Esub. cbn [bind]. eauto. }
          cbn [andb]. split; [constructor; auto|].
          split; intros H.
          -- constructor; auto.
          -- apply Exists_cons_tl. auto.
        * assert (Hstep : bad (k, assembleOne store c (Assemble.one store c))).
          { intros acc. cbn [snd]. unfold assembleOne.
            now rewrite G, (Hthrow eq_refl). }
          cbn [andb]. split; [constructor; auto|].
          split; [discriminate|]. intros _. now apply Exists_cons_hd.
      + assert (Hstep : bad (k, assembleOne store c (Assemble.one store c))).
        { intros acc. cbn [snd]. unfold assembleOne. now rewrite G. }
        cbn [andb]. split; [constructor; auto|].
        split; [discriminate|]. intros _. now apply Exists_cons_hd. }
  destruct (K []) as (Hall & Hgood & Hbad).
  pose proof (sortByKey_perm (stepsOf [] deps)) as Hperm.
  split; intros H.
  - apply sequence_good. eapply Permutation_Forall; [exact Hperm|]. auto.
  - apply sequence_bad.
    + eapply Permutation_Forall; [exact Hperm | exact Hall].
    + eapply Permutation_Exists; [exact Hperm|]. auto.
Qed.

End Outcome.

(** X23.  [buildLockFile] returns a lock file exactly when every dependency of the
    placement tree that [Object.keys] lists, at every depth, has its record
    in the store; when one has none it throws a SyntaxError, and it fails in
    no other way. *)
Theorem buildLockFile_fails_exactly_without_a_record :
  forall store tree rootName rootVersion,
    (Placed.listedRecorded store tree = true ->
     exists out, buildLockFile store tree rootName rootVersion = Ok out)
    /\ (Placed.listedRecorded store tree = false ->
        buildLockFile store tree rootName rootVersion = Throw SyntaxError).
Proof.
  intros store tree rootName rootVersion. unfold buildLockFile.
  destruct (one_outcome store tree) as [H1 H2]. split; intros H.
  - destruct (H1 H) as [out E]. rewrite E. cbn [bind]. eauto.
  - now rewrite (H2 H).
Qed.

(** *** What [buildLockFile] writes *)

Lemma set_new {V} (o : Obj.t V) k v :
  ~ In k (map fst o) -> Obj.set o k v = o ++ [(k, v)].
Proof.
  induction o as [|[k0 v0] r IH]; simpl; intros H; [reflexivity|].
  destruct (String.eqb k0 k) eqn:E.
  - apply String.eqb_eq in E. tauto.
  - rewrite IH; [reflexivity | tauto].
Qed.

Lemma get_in_nodup {V} (o : Obj.t V) k v :
  NoDup (map fst o) -> In (k, v) o -> Obj.get o k = Some v.
Proof.
  induction o as [|[k0 v0] r IH]; simpl; intros Hnd Hin; [contradiction|].
  inversion Hnd as [|? ? Hk0 Hr]; subst.
  destruct Hin as [Hin|Hin].
  - inversion Hin; subst. now rewrite String.eqb_refl.
  - destruct (String.eqb k0 k) eqn:E; [|auto].
    apply String.eqb_eq in E. subst k0. exfalso. apply Hk0.
    now apply (in_map fst) in Hin.
Qed.

Lemma keys_nodup {V} (o : Obj.t V) :
  NoDup (map fst o) -> Obj.keys o = map fst o.
Proof.
  unfold Obj.keys.
  assert (G : forall seen, NoDup (map fst o) ->
                (forall k, In k seen -> ~ In k (map fst o)) ->
                Obj.keysFrom seen o = map fst o).
  { induction o as [|[k0 v0] r IH]; simpl; intros seen Hnd Hs; [reflexivity|].
    inversion Hnd as [|? ? Hk0 Hr]; subst.
    destruct (Str.mem k0 seen) eqn:M.
    - apply StrFacts.mem_In in M. exfalso. apply (Hs k0 M). now left.
    - f_equal. apply IH; [assumption|].
      intros k [<-|Hk]; [assumption|]. intros Hin. apply (Hs k Hk). now right. }
  intros H. apply G; [assumption | contradiction].
Qed.

Lemma insertKey_map {A B} (g : A -> B) k a l :
  insertKey k (g a) (map (fun p => (fst p, g (snd p))) l)
  = map (fun p => (fst p, g (snd p))) (insertKey k a l).
Proof.
  induction l as [|[k' a'] r IH]; simpl; [reflexivity|].
  destruct (String.compare k k'); simpl; try reflexivity; now rewrite IH.
Qed.

Lemma sortByKey_map {A B} (g : A -> B) (l : list (string * A)) :
  sortByKey (map (fun p => (fst p, g (snd p))) l)
  = map (fun p => (fst p, g (snd p))) (sortByKey l).
Proof.
  unfold sortByKey.
  assert (G : forall acc,
             fold_left (fun acc p => insertKey (fst p) (snd p) acc)
               (map (fun p => (fst p, g (snd p))) l)
               (map (fun p => (fst p, g (snd p))) acc)
             = map (fun p => (fst p, g (snd p)))
                 (fold_left (fun acc p => insertKey (fst p) (snd p) acc) l acc)).
  { induction l as [|[k a] r IH]; intros acc; cbn [fold_left map fst snd];
      [reflexivity|].
    now rewrite insertKey_map, IH. }
  exact (G []).
Qed.

Section Entries.

Variable store : Obj.t lockEntry.

(** The properties that [Object.keys] lists, with their values. *)
Fixpoint visible (seen : list string) (l : list (string * pnode))
  : list (string * pnode) :=
  match l with
  | [] => []
  | (k, c) :: r =>
      if Str.mem k seen then visible seen r else (k, c) :: visible (k :: seen) r
  end.

(** The call of the callback of lines 535-544 for one dependency. *)
Definition assembled (c : pnode)
  : Obj.t lockEntry -> result (Obj.t lockEntry) :=
  assembleOne store c (Assemble.one store c).

Lemma stepsOf_visible l : forall seen,
  stepsOf store seen l
  = map (fun p => (fst p, assembled (snd p))) (visible seen l).
Proof.
  induction l as [|[k c] r IH]; intros seen; cbn [stepsOf visible map];
    [reflexivity|].
  destruct (Str.mem k seen); [apply IH|]. cbn [map fst snd]. now rewrite IH.
Qed.

Lemma visible_keys l : forall seen,
  map fst (visible seen l) = Obj.keysFrom seen l.
Proof.
  induction l as [|[k c] r IH]; intros seen; cbn [visible Obj.keysFrom map];
    [reflexivity|].
  destruct (Str.mem k seen); [apply IH|]. cbn [map fst]. now rewrite IH.
Qed.

Lemma visible_get l k c : forall seen,
  Obj.get l k = Some c -> ~ In k seen -> In (k, c) (visible seen l).
Proof.
  induction l as [|[k0 c0] r IH]; intros seen Hg Hs; cbn [Obj.get visible] in *;
    [discriminate|].
  destruct (String.eqb k0 k) eqn:E.
  - apply String.eqb_eq in E. subst k0. inversion Hg; subst.
    destruct (Str.mem k seen) eqn:M; [|now left].
    apply StrFacts.mem_In in M. contradiction.
  - apply String.eqb_neq in E.
    destruct (Str.mem k0 seen); [now apply IH|].
    right. apply IH; [assumption|]. intros [H|H]; auto.
Qed.

Lemma visible_sub l : forall seen p, In p (visible seen l) -> In p l.
Proof.
  induction l as [|[k0 c0] r IH]; intros seen p H; cbn [visible] in H;
    [contradiction|].
  destruct (Str.mem k0 seen); [right; eauto|].
  destruct H as [H|H]; [now left | right; eauto].
Qed.

Lemma ownAll_In l k c :
  ownAll l = true -> In (k, c) l -> pname c = k /\ Placed.ownNames c = true.
Proof.
  induction l as [|[k0 c0] r IH]; cbn [ownAll]; intros H Hin; [contradiction|].
  apply andb_true_iff in H as [H Hr]. apply andb_true_iff in H as [Hk Hc].
  destruct Hin as [Hin|Hin]; [|auto].
  inversion Hin; subst. split; [now apply String.eqb_eq | assumption].
Qed.

(** The entry written for the placed package [c]: the record of its name
    and version, with the dependencies assembled below it. *)
Definition written (c : pnode) (e : lockEntry) : Prop :=
  exists content sub,
    Obj.get store (tagOf (pname c) (pversion c)) = Some content /\
    Assemble.one store c = Ok sub /\
    e = LockEntry (lname content) (lversion content) (lrequires content) sub.

Lemma sequence_entries l : forall acc out,
  sequence (map (fun p => (fst p, assembled (snd p))) l) acc = Ok out ->
  NoDup (map fst acc ++ map fst l) ->
  (forall k c, In (k, c) l -> pname c = k) ->
  exists entries,
    out = acc ++ entries /\ map fst entries = map fst l /\
    forall k c, In (k, c) l -> exists e, written c e /\ In (k, e) entries.
Proof.
  induction l as [|[k c] r IH]; intros acc out H Hnd Hown;
    cbn [map sequence fst snd] in H.
  - inversion H; subst. exists []. rewrite app_nil_r.
    split; [reflexivity|]. split; [reflexivity|]. intros k c [].
  - apply bind_Ok in H as [acc' [Hstep H]].
    unfold assembled, assembleOne in Hstep.
    destruct (Obj.get store (tagOf (pname c) (pversion c))) as [content|] eqn:G;
      [|discriminate].
    apply bind_Ok in Hstep as [sub [Hsub Hstep]]. inversion Hstep; subst acc'.
    clear Hstep. rewrite (Hown k c (or_introl eq_refl)) in H.
    cbn [map fst] in Hnd.
    assert (Hk : ~ In k (map fst acc)).
    { intros Hin. apply NoDup_remove_2 in Hnd. apply Hnd.
      apply in_or_app. now left. }
    rewrite (set_new acc k _ Hk) in H.
    destruct (IH _ _ H) as (entries & -> & Hkeys & Hall).
    + rewrite map_app. cbn [map fst]. rewrite <- app_assoc. exact Hnd.
    + intros k' c' Hin. apply Hown. now right.
    + eexists ((k, _) :: entries). rewrite <- app_assoc.
      split; [reflexivity|]. split; [cbn [map fst]; now rewrite Hkeys|].
      intros k' c' [Hin|Hin].
      * inversion Hin; subst. eexists. split; [|now left].
        exists content, sub. split; [exact G|]. split; [exact Hsub|].
        reflexivity.
      * destruct (Hall k' c' Hin) as (e & He & Hine). exists e.
        split; [exact He | now right].
Qed.

(** The object that [one] returns for a node whose dependencies sit under
    their own names. *)
Lemma one_entries n v vr deps out :
  ownAll deps = true ->
  Assemble.one store (PNode n v vr deps) = Ok out ->
  map fst out = map fst (sortByKey (visible [] deps))
  /\ NoDup (map fst out)
  /\ forall k c, Obj.get deps k = Some c ->
                 exists e, written c e /\ Obj.get out k = Some e.
Proof.
  intros Hown H. rewrite one_unfold, stepsOf_visible, (sortByKey_map assembled) in H.
  pose proof (sortByKey_perm (visible [] deps)) as Hperm.
  assert (Hnd : NoDup (map fst (sortByKey (visible [] deps)))).
  { eapply Permutation_NoDup; [apply Permutation_map; exact Hperm|].
    rewrite visible_keys. apply ObjFacts.keys_NoDup. }
  destruct (sequence_entries _ _ _ H) as (entries & -> & Hkeys & Hall).
  - exact Hnd.
  - intros k c Hin. eapply Permutation_in in Hin; [|symmetry; exact Hperm].
    apply visible_sub in Hin. now apply (ownAll_In deps).
  - cbn [app]. split; [exact Hkeys|]. split; [now rewrite Hkeys|].
    intros k c Hg. destruct (Hall k c) as (e & He & Hin).
    + eapply Permutation_in; [exact Hperm|].
      apply visible_get; [exact Hg | intros []].
    + exists e. split; [exact He|].
      apply get_in_nodup; [now rewrite Hkeys | exact Hin].
Qed.

End Entries.

Lemma get_In {V} (o : Obj.t V) k v : Obj.get o k = Some v -> In (k, v) o.
Proof.
  induction o as [|[k0 v0] r IH]; simpl; [discriminate|].
  destruct (String.eqb k0 k) eqn:E; [|auto].
  apply String.eqb_eq in E. intros H. inversion H; subst. now left.
Qed.

(** Below a placement node and the object assembled for it, the same keys
    lead to a placed package and to the entry written for it. *)
Lemma one_at store : forall ks t out n v rq c,
  Placed.ownNames t = true ->
  Assemble.one store t = Ok out ->
  pnodeAt t ks = Some c ->
  exists e, Lookup.entryAt (LockEntry n v rq out) ks = Some e /\
            Assemble.one store c = Ok (ldependencies e) /\
            Placed.ownNames c = true /\
            (ks <> [] -> written store c e).
Proof.
  induction ks as [|k ks IH]; intros t out n v rq c Hown Hone Hat;
    cbn [pnodeAt Lookup.entryAt] in *.
  - inversion Hat; subst. eexists. split; [reflexivity|].
    split; [exact Hone|]. split; [exact Hown|]. intros H. now contradiction H.
  - destruct t as [tn tv tvr deps]. cbn [pdependencies ldependencies] in *.
    destruct (Obj.get deps k) as [c1|] eqn:G; [|discriminate].
    rewrite ownNames_unfold in Hown.
    destruct (one_entries store tn tv tvr deps out Hown Hone)
      as (_ & _ & Hget).
    destruct (Hget k c1 G) as (e1 & Hw & He1). rewrite He1.
    destruct (ownAll_In deps k c1 Hown (get_In deps k c1 G)) as [_ Hown1].
    pose proof Hw as (content & sub & Hc & Hsub & ->).
    destruct (IH c1 sub (lname content) (lversion content) (lrequires content)
                 c Hown1 Hsub Hat) as (e & He & Hone' & Hownc & Hwritten).
    exists e. split; [exact He|]. split; [exact Hone'|].
    split; [exact Hownc|]. intros _.
    destruct ks as [|k' ks']; [|apply Hwritten; discriminate].
    cbn [pnodeAt Lookup.entryAt] in *. inversion Hat; inversion He; subst.
    exact Hw.
Qed.

(** X24.  The lock file written mirrors the placement tree: under the keys that
    lead to a placed package it has an entry, and that entry carries the
    version and the requires of the record stored for the name and version
    of that package. *)
Theorem written_lock_file_mirrors_the_placement_tree :
  forall store flat rootName rootVersion out ks c,
    Placed.ownNames flat = true ->
    buildLockFile store flat rootName rootVersion = Ok out ->
    ks <> [] ->
    pnodeAt flat ks = Some c ->
    exists e content,
      Lookup.entryAt out ks = Some e /\
      Obj.get store (tagOf (pname c) (pversion c)) = Some content /\
      lversion e = lversion content /\ lrequires e = lrequires content.
Proof.
  intros store flat rootName rootVersion out ks c Hown H Hks Hat.
  unfold buildLockFile in H. apply bind_Ok in H as [ds [Hone H]].
  inversion H; subst.
  destruct (one_at store ks flat ds rootName rootVersion [] c Hown Hone Hat)
    as (e & He & _ & _ & Hw).
  destruct (Hw Hks) as (content & sub & Hc & _ & ->).
  exists (LockEntry (lname content) (lversion content) (lrequires content) sub),
    content.
  split; [exact He|]. split; [exact Hc|]. split; reflexivity.
Qed.

Lemma written_lock_file_mirrors_the_placement_tree_witness :
  exists e content,
    Lookup.entryAt MoreExamples.finalLock ["a"] = Some e /\
    Obj.get (versions Examples.afterBoth)
      (tagOf (pname MoreExamples.placedA) (pversion MoreExamples.placedA))
    = Some content /\
    lversion e = lversion content /\ lrequires e = lrequires content.
Proof.
  apply (written_lock_file_mirrors_the_placement_tree
           (versions Examples.afterBoth) Examples.finalTree
           (lname Examples.curLock) (lversion Examples.curLock)
           MoreExamples.finalLock ["a"] MoreExamples.placedA).
  - vm_compute. reflexivity.
  - vm_compute. reflexivity.
  - discriminate.
  - vm_compute. reflexivity.
Defined.

(** *** The order of the names written *)

Lemma compare_Lt_trans a b c :
  String.compare a b = Lt -> String.compare b c = Lt ->
  String.compare a c = Lt.
Proof.
  intros H1 H2.
  apply OrderedTypeEx.String_as_OT.cmp_lt in H1.
  apply OrderedTypeEx.String_as_OT.cmp_lt in H2.
  apply OrderedTypeEx.String_as_OT.cmp_lt.
  eapply OrderedTypeEx.String_as_OT.lt_trans; eauto.
Qed.

Lemma compare_Gt_Lt a b :
  String.compare a b = Gt -> String.compare b a = Lt.
Proof. intros H. rewrite String.compare_antisym, H. reflexivity. Qed.

Lemma insertKey_sorted {A} k (a : A) l :
  StronglySorted (fun x y => String.compare x y = Lt) (map fst l) ->
  ~ In k (map fst l) ->
  StronglySorted (fun x y => String.compare x y = Lt)
    (map fst (insertKey k a l)).
Proof.
  induction l as [|[k' a'] r IH]; cbn [map fst insertKey]; intros Hs Hk.
  - repeat constructor.
  - inversion Hs as [|? ? Hr Hall]; subst.
    destruct (String.compare k k') eqn:E; cbn [map fst].
    + apply String.compare_eq_iff in E. subst. exfalso. apply Hk. now left.
    + constructor; [exact Hs|]. constructor; [exact E|].
      eapply Forall_impl; [|exact Hall].
      intros y Hy. cbn beta in Hy. eapply compare_Lt_trans; eauto.
    + constructor.
      * apply IH; [exact Hr|]. intros H. apply Hk. now right.
      * eapply Permutation_Forall.
        { apply Permutation_map. apply insertKey_perm. }
        cbn [map fst]. constructor; [now apply compare_Gt_Lt | exact Hall].
Qed.

Lemma sortByKey_sorted {A} (l : list (string * A)) :
  NoDup (map fst l) ->
  StronglySorted (fun x y => String.compare x y = Lt)
    (map fst (sortByKey l)).
Proof.
  unfold sortByKey.
  assert (G : forall acc,
             StronglySorted (fun x y => String.compare x y = Lt)
               (map fst acc) ->
             NoDup (map fst acc ++ map fst l) ->
             StronglySorted (fun x y => String.compare x y = Lt)
               (map fst (fold_left
                           (fun acc p => insertKey (fst p) (snd p) acc)
                           l acc))).
  { induction l as [|[k a] r IH]; intros acc Hs Hnd;
      cbn [fold_left map fst snd] in *; [exact Hs|].
    assert (Hk : ~ In k (map fst acc)).
    { intros Hin. apply NoDup_remove_2 in Hnd. apply Hnd.
      apply in_or_app. now left. }
    apply IH; [now apply insertKey_sorted|].
    eapply Permutation_NoDup; [|exact Hnd].
    eapply perm_trans; [symmetry; apply Permutation_middle|].
    change (k :: map fst acc ++ map fst r)
      with (map fst ((k, a) :: acc) ++ map fst r).
    apply Permutation_app_tail, Permutation_map, insertKey_perm. }
  intros Hnd. apply G; [constructor | exact Hnd].
Qed.

(** X25.  In the lock file written, every dependencies object has exactly the
    names of the placement node it was assembled for, in ascending order,
    when none of these names is an array index or [__proto__] (names that
    an object does not keep in the order they were added). *)
Theorem written_names_are_sorted :
  forall store flat rootName rootVersion out ks c e,
    Placed.ownNames flat = true ->
    buildLockFile store flat rootName rootVersion = Ok out ->
    pnodeAt flat ks = Some c ->
    Lookup.entryAt out ks = Some e ->
    forallb Plain.ordinary (Obj.keys (pdependencies c)) = true ->
    Permutation (Obj.keys (pdependencies c)) (Obj.keys (ldependencies e))
    /\ StronglySorted (fun x y => String.compare x y = Lt)
         (Obj.keys (ldependencies e)).
Proof.
  intros store flat rootName rootVersion out ks c e Hown H Hat He _.
  unfold buildLockFile in H. apply bind_Ok in H as [ds [Hone H]].
  inversion H; subst.
  destruct (one_at store ks flat ds rootName rootVersion [] c Hown Hone Hat)
    as (e' & He' & Hsub & Hownc & _).
  rewrite He in He'. inversion He'; subst e'. clear He'.
  destruct c as [cn cv cvr deps]. rewrite ownNames_unfold in Hownc.
  destruct (one_entries store cn cv cvr deps _ Hownc Hsub)
    as (Hkeys & Hnd & _).
  rewrite (keys_nodup _ Hnd), Hkeys. cbn [pdependencies].
  pose proof (visible_keys deps []) as Hv. fold (Obj.keys deps) in Hv.
  split.
  - rewrite <- Hv. apply Permutation_map, sortByKey_perm.
  - apply sortByKey_sorted. rewrite Hv. apply ObjFacts.keys_NoDup.
Qed.

Lemma written_names_are_sorted_witness :
  Permutation (Obj.keys (pdependencies Examples.finalTree))
              (Obj.keys (ldependencies MoreExamples.finalLock))
  /\ StronglySorted (fun x y => String.compare x y = Lt)
       (Obj.keys (ldependencies MoreExamples.finalLock)).
Proof.
  apply (written_names_are_sorted
           (versions Examples.afterBoth) Examples.finalTree
           (lname Examples.curLock) (lversion Examples.curLock)
           MoreExamples.finalLock [] Examples.finalTree
           MoreExamples.finalLock).
  - vm_compute. reflexivity.
  - vm_compute. reflexivity.
  - reflexivity.
  - reflexivity.
  - reflexivity.
Defined.

End AssembleMore.

(** ** The configuration and the manifest *)

Module ConfigFacts.
Import Config ResultFacts.

Unset Implicit Arguments.

Lemma mem_keys {V} (o : Obj.t V) k :
  Str.mem k (Obj.keys o) = false -> Obj.get o k = None.
Proof.
  intros H. destruct (Obj.get o k) as [v|] eqn:G; [|reflexivity].
  apply (@RelockFacts.keysFrom_In _ o k v []) in G; [|intros []].
  apply StrFacts.mem_In in G. unfold Obj.keys in H. congruence.
Qed.

(** What [Object.assign] leaves under a key: the value of the source when
    it has one, the value of the target otherwise. *)
Lemma assign_get {V} (target source : Obj.t V) k :
  Obj.get (assign target source) k
  = match Obj.get source k with
    | Some v => Some v
    | None => Obj.get target k
    end.
Proof.
  unfold assign.
  assert (G : forall ks t,
             Obj.get (fold_left
                        (fun t k => match Obj.get source k with
                                    | Some v => Obj.set t k v
                                    | None => t
                                    end) ks t) k
             = if Str.mem k ks
               then match Obj.get source k with
                    | Some v => Some v
                    | None => Obj.get t k
                    end
               else Obj.get t k).
  { induction ks as [|k0 r IH]; intros t; cbn [fold_left Str.mem];
      [reflexivity|].
    rewrite IH. destruct (String.eqb k0 k) eqn:E.
    - apply String.eqb_eq in E. subst k0. cbn [orb].
      destruct (Obj.get source k) as [v|].
      + rewrite BuilderFacts.get_set_same. now destruct (Str.mem k r).
      + now destruct (Str.mem k r).
    - cbn [orb]. apply String.eqb_neq in E.
      destruct (Obj.get source k0) as [v0|]; [|reflexivity].
      now rewrite (BuilderFacts.get_set_other t k0 k v0 E). }
  rewrite G. destruct (Str.mem k (Obj.keys source)) eqn:M; [reflexivity|].
  now rewrite (mem_keys source k M).
Qed.

Lemma assignOpt_get {V} (target : Obj.t V) source k :
  Obj.get (assignOpt target source) k
  = match getOpt source k with
    | Some v => Some v
    | None => Obj.get target k
    end.
Proof. destruct source as [s|]; [apply assign_get | reflexivity]. Qed.

(** X26.  After [assignConfig] a setting of the configuration file holds the value
    the file gives it; a setting the file does not give holds its default;
    any other key keeps what [config] held. *)
Theorem assignConfig_prefers_the_file_then_the_defaults :
  forall config loaded k,
    Obj.get (assignConfig config loaded) k
    = match Obj.get loaded k with
      | Some v => Some v
      | None =>
          match Obj.get defaults k with
          | Some v => Some v
          | None => Obj.get config k
          end
      end.
Proof.
  intros config loaded k. unfold assignConfig. now rewrite !assign_get.
Qed.

(** *** The requires taken from the manifest *)

Lemma set_keys {V} (o : Obj.t V) k v :
  map fst (Obj.set o k v)
  = if Str.mem k (map fst o) then map fst o else map fst o ++ [k].
Proof.
  induction o as [|[k0 v0] r IH]; cbn [Obj.set map fst Str.mem];
    [reflexivity|].
  destruct (String.eqb k0 k); cbn [orb map fst]; [reflexivity|].
  rewrite IH. now destruct (Str.mem k (map fst r)).
Qed.

Lemma assign_keys {V} (target source : Obj.t V) :
  map fst (assign target source)
  = map fst target
    ++ filter (fun k => negb (Str.mem k (map fst target))) (Obj.keys source).
Proof.
  unfold assign.
  pose proof (ObjFacts.keys_NoDup source) as Hnd.
  assert (Hin : forall k, In k (Obj.keys source) -> Obj.get source k <> None)
    by apply PathsFacts.keys_get.
  revert target Hnd Hin. generalize (Obj.keys source) as ks.
  induction ks as [|k0 r IH]; intros t Hnd Hin; cbn [fold_left filter].
  - now rewrite app_nil_r.
  - inversion Hnd as [|? ? Hk0 Hr]; subst.
    destruct (Obj.get source k0) as [v0|] eqn:G;
      [|exfalso; apply (Hin k0); [now left | exact G]].
    rewrite IH; [|exact Hr | intros k Hk; apply Hin; now right].
    rewrite set_keys. destruct (Str.mem k0 (map fst t)) eqn:M; cbn [negb].
    + reflexivity.
    + rewrite <- app_assoc. cbn [app]. do 2 f_equal.
      apply filter_ext_in. intros k Hk.
      rewrite BuilderFacts.mem_snoc.
      destruct (String.eqb k0 k) eqn:E; [|now rewrite orb_false_r].
      apply String.eqb_eq in E. subst k0. contradiction.
Qed.

Lemma assign_NoDup {V} (target source : Obj.t V) :
  NoDup (map fst target) -> NoDup (map fst (assign target source)).
Proof.
  intros H. rewrite assign_keys. apply NoDup_app; [exact H | |].
  - apply NoDup_filter, ObjFacts.keys_NoDup.
  - intros k Hk Hf. apply filter_In in Hf as [_ Hf].
    apply StrFacts.mem_In in Hk. now rewrite Hk in Hf.
Qed.

Lemma assignOpt_keys {V} (target : Obj.t V) source :
  map fst (assignOpt target source)
  = map fst target
    ++ filter (fun k => negb (Str.mem k (map fst target))) (keysOpt source).
Proof.
  destruct source as [s|]; [apply assign_keys|].
  cbn [assignOpt keysOpt filter]. now rewrite app_nil_r.
Qed.

Lemma assignOpt_NoDup {V} (target : Obj.t V) source :
  NoDup (map fst target) -> NoDup (map fst (assignOpt target source)).
Proof. destruct source as [s|]; [apply assign_NoDup | auto]. Qed.

(** X27.  The requires that lines 576 and 608 give the current lock file, for a
    manifest whose names are no array indices and not [__proto__]: a name
    has the range of devDependencies when it is listed there and the range
    of dependencies otherwise; the names of dependencies come first, in
    their order, then the names that only devDependencies lists. *)
Theorem merged_requires_prefer_devDependencies :
  forall curPackage,
    Plain.ordinaryKeys (mdependencies curPackage) = true ->
    Plain.ordinaryKeys (mdevDependencies curPackage) = true ->
    (forall k,
        Obj.get (mergedRequires curPackage) k
        = match getOpt (mdevDependencies curPackage) k with
          | Some range => Some range
          | None => getOpt (mdependencies curPackage) k
          end)
    /\ Obj.keys (mergedRequires curPackage)
       = keysOpt (mdependencies curPackage)
         ++ filter (fun k => negb (Str.mem k (keysOpt (mdependencies curPackage))))
                   (keysOpt (mdevDependencies curPackage)).
Proof.
  intros [deps dev] _ _. unfold mergedRequires.
  cbn [mdependencies mdevDependencies]. split.
  - intros k. rewrite !assignOpt_get. cbn [Obj.get].
    destruct (getOpt dev k); [reflexivity|]. now destruct (getOpt deps k).
  - assert (Hd : map fst (assignOpt (@nil (string * string)) deps)
                 = keysOpt deps).
    { rewrite assignOpt_keys. cbn [map app Str.mem negb].
      clear. induction (keysOpt deps) as [|k r IH]; cbn [filter];
        [reflexivity | now rewrite IH]. }
    rewrite AssembleMore.keys_nodup.
    + now rewrite assignOpt_keys, Hd.
    + apply assignOpt_NoDup, assignOpt_NoDup. constructor.
Qed.

Lemma merged_requires_prefer_devDependencies_witness :
  (forall k,
      Obj.get (mergedRequires ConfigExamples.package) k
      = match getOpt (mdevDependencies ConfigExamples.package) k with
        | Some range => Some range
        | None => getOpt (mdependencies ConfigExamples.package) k
        end)
  /\ Obj.keys (mergedRequires ConfigExamples.package)
     = keysOpt (mdependencies ConfigExamples.package)
       ++ filter (fun k => negb (Str.mem k (keysOpt (mdependencies
                                                      ConfigExamples.package))))
                 (keysOpt (mdevDependencies ConfigExamples.package)).
Proof.
  apply (merged_requires_prefer_devDependencies ConfigExamples.package);
    reflexivity.
Defined.

Lemma generateDependencyTree_requires root loopFuel fuel g tree g' :
  Builder.generateDependencyTree root loopFuel fuel g = Ok (tree, g') ->
  requires tree = lrequires root.
Proof.
  intros H. unfold Builder.generateDependencyTree in H.
  apply bind_Ok in H as [[res st] [_ H]]. now inversion H.
Qed.

(** X28.  After a run of [main], whose relocked file keeps the dependencies of
    the manifest alone (line 613), a name that only devDependencies lists is
    taken from the current lock file: the previous root does not require it,
    so when both trees are built and [relockTree] returns, the mixed root has
    under that name the node that the current root has for it.  (The file
    that [handleFirstTime] saves is not of this form: its requires hold the
    devDependencies as well.) *)
Theorem dev_only_name_is_taken_from_the_current_lock :
  forall projectFiles regexFound loopFuel fuel prevPackage prevFinal
         curPackage curLock g prevTree g1 curTree g2 mixed prevDeps k range,
    forallb Pattern.literal projectFiles = true ->
    mdependencies prevPackage = Some prevDeps ->
    Obj.get prevDeps k = None ->
    Proto.member k = false ->
    Plain.ordinaryKeys (mdependencies curPackage) = true ->
    Plain.ordinaryKeys (mdevDependencies curPackage) = true ->
    getOpt (mdevDependencies curPackage) k = Some range ->
    Plain.lock (relockedFile prevPackage prevFinal) = true ->
    Plain.lock (currentLock curPackage curLock) = true ->
    Builder.generateDependencyTree (relockedFile prevPackage prevFinal)
      loopFuel fuel g = Ok (prevTree, g1) ->
    Builder.generateDependencyTree (currentLock curPackage curLock)
      loopFuel fuel g1 = Ok (curTree, g2) ->
    Relock.relockTree projectFiles regexFound prevTree curTree
      = Ok (Some mixed) ->
    exists i d,
      nth_error (Obj.keys (requires curTree)) i = Some k /\
      nth_error (dependencies curTree) i = Some (Some d) /\
      name d = k /\
      nth_error (dependencies mixed) i = Some (Some d).
Proof.
  intros projectFiles regexFound loopFuel fuel prevPackage prevFinal
         curPackage curLock g prevTree g1 curTree g2 mixed prevDeps k range
         _ Hdeps Hprev Hmem _ _ Hdev _ _ Hp Hc Hmix.
  destruct (PathsFacts.generateDependencyTree_root_names _ _ _ _ _ _ Hc)
    as [Hnames _].
  apply generateDependencyTree_requires in Hp, Hc.
  cbn [relockedFile currentLock lrequires] in Hp, Hc.
  assert (Hpk : Obj.get (requires prevTree) k = None).
  { rewrite Hp. unfold relockedRequires. now rewrite Hdeps. }
  assert (Hck : Obj.get (requires curTree) k = Some range).
  { rewrite Hc. destruct curPackage as [deps dev]. unfold mergedRequires.
    cbn [mdependencies mdevDependencies] in *.
    now rewrite assignOpt_get, Hdev. }
  destruct (@RelockFacts.get_key_index _ (requires curTree) k range Hck)
    as [i Hi].
  destruct (RelockMore.namesAre_firstNamed _ _ i k Hnames
              (ObjFacts.keys_NoDup (requires curTree)) Hi)
    as (d & Hd & Hn & Hfirst).
  apply RelockFacts.relockTree_mix in Hmix as (m & Hm & Hmixed).
  inversion Hm; subst m.
  destruct (@RelockFacts.mix_entry projectFiles regexFound prevTree curTree
              (Relock.height curTree) [] mixed curTree (Some prevTree) i k
              Hmixed eq_refl eq_refl Hi) as (_ & e & He & Hnth).
  exists i, d. split; [exact Hi|]. split; [exact Hd|]. split; [exact Hn|].
  unfold Relock.mixKey, Proto.inherited in He. rewrite Hpk, Hmem in He.
  cbn [Relock.falsy] in He.
  rewrite (@RelockFacts.find_firstNamed _ _ _ Hfirst) in He.
  inversion He; subst e. exact Hnth.
Qed.

Lemma dev_only_name_is_taken_from_the_current_lock_witness :
  exists i d,
    nth_error (Obj.keys (requires ConfigExamples.laterTree)) i = Some "t" /\
    nth_error (dependencies ConfigExamples.laterTree) i = Some (Some d) /\
    name d = "t" /\
    nth_error (dependencies ConfigExamples.laterMixed) i = Some (Some d).
Proof.
  apply (dev_only_name_is_taken_from_the_current_lock [] Examples.noRegex
           Examples.fuel Examples.fuel ConfigExamples.package
           ConfigExamples.earlierFinal ConfigExamples.package
           ConfigExamples.laterLock noGlobals ConfigExamples.earlierTree
           ConfigExamples.afterEarlier ConfigExamples.laterTree
           ConfigExamples.afterLater ConfigExamples.laterMixed
           [("a", "^1.0.0")] "t" "^1.0.0");
    vm_compute; reflexivity.
Defined.

(** After the first run the picture is another one: the file saved by
    [handleFirstTime] requires [t] as the current lock file does, so the
    next run keeps the previous resolution of [t], 1.0.0, although the
    current lock file has 1.0.1. *)
Lemma dev_only_name_is_held_back_after_the_first_run :
  exists p c,
    Obj.get (requires ConfigExamples.firstTree) "t" = Some "^1.0.0" /\
    Relock.find (dependencies ConfigExamples.firstTree) "t" = Ok (Some p) /\
    Relock.find (dependencies ConfigExamples.laterAfterFirst) "t"
      = Ok (Some c) /\
    version p = "1.0.0" /\ version c = "1.0.1" /\
    Relock.relockTree [] Examples.noRegex ConfigExamples.firstTree
      ConfigExamples.laterAfterFirst = Ok (Some ConfigExamples.mixedAfterFirst)
    /\ nth_error (dependencies ConfigExamples.mixedAfterFirst) 1
       = Some (Some p).
Proof.
  do 2 eexists. repeat (split; [reflexivity|]). reflexivity.
Qed.

End ConfigFacts.

(** ** The whole pipeline on an unchanged lock file *)

Module PipelineFacts.
Import Builder Hoist Assemble Records ResultFacts.

Unset Implicit Arguments.

Lemma isProjectModule_none regexFound k :
  k <> "" -> isProjectModule [] regexFound k = false.
Proof.
  intros H. unfold isProjectModule. apply String.eqb_neq in H.
  now rewrite H.
Qed.

Lemma walkable_without_project_files regexFound n :
  Shape.namesAre (dependencies n) (Obj.keys (requires n)) = true ->
  (forall k, In k (Obj.keys (requires n)) -> k <> "") ->
  Shape.walkable [] regexFound n = true.
Proof.
  destruct n as [nm v s t rq g ds]. cbn [dependencies requires Shape.walkable].
  intros Hn Hk. rewrite Hn. cbn [andb].
  revert Hn Hk. generalize (Obj.keys rq) as ks.
  induction ds as [|[c|] ds IH]; intros ks Hn Hk; cbn [Shape.namesAre] in Hn;
    [reflexivity | | discriminate].
  destruct ks as [|k ks]; [discriminate|].
  apply andb_true_iff in Hn as [Hc Hn]. apply String.eqb_eq in Hc.
  rewrite isProjectModule_none by (rewrite Hc; apply Hk; now left).
  cbn [andb]. apply (IH ks Hn). intros k' Hk'. apply Hk. now right.
Qed.

(** X29.  Relocking a lock file against itself goes through: when no project file
    is configured, no required name is empty, no version or required name
    holds a bar and no name is a member of [Object.prototype], [relock]
    returns a lock file, with the name and the version of the lock file
    given. *)
Theorem relock_of_an_unchanged_lock_file_returns :
  forall regexFound loopFuel fuel lock g,
    namedRequires lock = true ->
    barFree lock = true ->
    Plain.lock lock = true ->
    loopBound lock <= loopFuel ->
    depthBound lock <= fuel ->
    exists out g',
      relock [] regexFound loopFuel fuel lock lock g = Ok (out, g')
      /\ lname out = lname lock /\ lversion out = lversion lock.
Proof.
  intros regexFound loopFuel fuel lock g Hn Hb _ Hl Hd. unfold relock.
  destruct (BuilderFacts.generateDependencyTree_returns lock loopFuel Hn Hl
              fuel g Hd) as (t1 & g1 & E1).
  destruct (BuilderFacts.generateDependencyTree_returns lock loopFuel Hn Hl
              fuel g1 Hd) as (t2 & g2 & E2).
  pose proof (BuilderFacts.generateDependencyTree_globals lock loopFuel fuel
                g g1) as Hsame.
  rewrite E1, E2 in Hsame. cbn in Hsame. inversion Hsame; subst t2.
  rewrite E1. cbn [bind]. rewrite E2. cbn [bind].
  (* the differ *)
  destruct (PathsFacts.generateDependencyTree_root_names lock loopFuel fuel g t1 g1 E1)
    as [Hnames Hshaped].
  assert (Hreq : requires t1 = lrequires lock)
    by (apply (ConfigFacts.generateDependencyTree_requires _ _ _ _ _ _ E1)).
  assert (Hw : Shape.walkable [] regexFound t1 = true).
  { apply walkable_without_project_files; [exact Hnames|].
    intros k Hk. rewrite Hreq in Hk.
    exact (BuilderFacts.namedRequires_keys lock k Hn Hk). }
  assert (Hmix : Relock.relockTree [] regexFound t1 t1 = Ok (Some t1)).
  { unfold Relock.relockTree.
    apply (RelockMore.one_self [] regexFound t1 (S (Relock.height t1)) [] t1
             None (fun x => x) []); auto. now left. }
  rewrite Hmix. cbn [bind].
  (* the hoister *)
  assert (Hdef : Shape.defined t1 = true).
  { apply HoistMore.shaped_defined.
    exact (PathsFacts.generateDependencyTree_shaped lock loopFuel fuel g t1
             g1 E1). }
  destruct (HoistMore.buildIndexes_defined t1 [] []) as [Hidx _].
  destruct (Hidx Hdef) as [index Eidx].
  assert (Hflat : flattenTree t1 = Ok (hoist t1 (modulesOf index)))
    by (unfold flattenTree; now rewrite Eidx).
  rewrite Hflat. cbn [bind].
  (* the assembler *)
  pose proof (RecordsFacts.generateDependencyTree_recorded lock loopFuel Hb
                fuel g1 t1 g2 E2) as Hrec.
  pose proof (RecordsFacts.flattenTree_recorded (versions g2) t1 _ Hrec Hflat)
    as Hplaced.
  destruct (RecordsFacts.buildLockFile_total (versions g2) _ (lname lock)
              (lversion lock) Hplaced) as [out Eout].
  rewrite Eout. cbn [bind]. exists out, g2. split; [reflexivity|].
  unfold buildLockFile in Eout. apply bind_Ok in Eout as [ds [_ Eout]].
  inversion Eout; subst. split; reflexivity.
Qed.

Lemma relock_of_an_unchanged_lock_file_returns_witness :
  exists out g',
    relock [] Examples.noRegex 3 8 Examples.threeVersionsLock
           Examples.threeVersionsLock noGlobals = Ok (out, g')
    /\ lname out = lname Examples.threeVersionsLock
    /\ lversion out = lversion Examples.threeVersionsLock.
Proof.
  apply (relock_of_an_unchanged_lock_file_returns Examples.noRegex 3 8
           Examples.threeVersionsLock noGlobals).
  - reflexivity.
  - reflexivity.
  - reflexivity.
  - vm_compute. lia.
  - vm_compute. lia.
Defined.

End PipelineFacts.

(** ** The form of a signature *)

Module SignatureMore.
Import SignatureFormat.

Lemma hexDigit_hex n : (n < 16)%N -> isHexDigit (MD5.hexDigit n) = true.
Proof.
  intros H. destruct n as [|p]; [reflexivity|].
  destruct p as [p|p|]; try reflexivity;
    destruct p as [p|p|]; try reflexivity;
    destruct p as [p|p|]; try reflexivity;
    destruct p as [p|p|]; try reflexivity; lia.
Qed.

Lemma byte_bound x : (N.land x 255 < 256)%N.
Proof.
  change 255%N with (N.ones 8). rewrite N.land_ones.
  apply N.mod_lt. discriminate.
Qed.

Lemma hexByte_form b :
  (b < 256)%N ->
  exists c1 c2, MD5.hexByte b = String c1 (String c2 EmptyString)
                /\ isHexDigit c1 = true /\ isHexDigit c2 = true.
Proof.
  intros H. unfold MD5.hexByte. eexists _, _. split; [reflexivity|]. split.
  - apply hexDigit_hex. apply N.Div0.div_lt_upper_bound. exact H.
  - apply hexDigit_hex. apply N.mod_lt. discriminate.
Qed.

Lemma hexWord_form w :
  String.length (MD5.hexWord w) = 8 /\ allHex (MD5.hexWord w) = true.
Proof.
  unfold MD5.hexWord. cbn [MD5.leBytes map String.concat].
  destruct (hexByte_form _ (byte_bound w)) as (a1 & a2 & -> & A1 & A2).
  destruct (hexByte_form _ (byte_bound (N.shiftr w 8)))
    as (b1 & b2 & -> & B1 & B2).
  destruct (hexByte_form _ (byte_bound (N.shiftr (N.shiftr w 8) 8)))
    as (c1 & c2 & -> & C1 & C2).
  destruct (hexByte_form _ (byte_bound (N.shiftr (N.shiftr (N.shiftr w 8) 8) 8)))
    as (d1 & d2 & -> & D1 & D2).
  cbn [append String.length allHex].
  now rewrite A1, A2, B1, B2, C1, C2, D1, D2.
Qed.

Lemma allHex_append a b :
  allHex (a ++ b) = allHex a && allHex b.
Proof.
  induction a as [|c a IH]; cbn [append allHex]; [reflexivity|].
  now rewrite IH, andb_assoc.
Qed.

Lemma length_append a b :
  String.length (a ++ b) = String.length a + String.length b.
Proof. induction a as [|c a IH]; cbn [append String.length]; [reflexivity | now rewrite IH]. Qed.

(** X30.  A signature is always 32 lower-case hexadecimal digits, so it holds no
    bar: in a variant [name|version|signature] the bars that separate the
    three parts are never those of the signature. *)
Theorem signature_is_32_hex_digits :
  forall tree,
    String.length (getTreeSignature tree) = 32
    /\ allHex (getTreeSignature tree) = true
    /\ Str.contains bar (getTreeSignature tree) = false.
Proof.
  intros tree. unfold getTreeSignature, MD5.digest.
  set (st := MD5.blocks _ _ _).
  destruct (hexWord_form (MD5.sa st)) as [La Ha].
  destruct (hexWord_form (MD5.sb st)) as [Lb Hb].
  destruct (hexWord_form (MD5.sc st)) as [Lc Hc].
  destruct (hexWord_form (MD5.sd st)) as [Ld Hd].
  assert (Hall : allHex (MD5.hexWord (MD5.sa st) ++ MD5.hexWord (MD5.sb st)
                           ++ MD5.hexWord (MD5.sc st) ++ MD5.hexWord (MD5.sd st))
                 = true)
    by (now rewrite !allHex_append, Ha, Hb, Hc, Hd).
  split; [rewrite !length_append; lia|]. split; [exact Hall|].
  revert Hall. generalize (MD5.hexWord (MD5.sa st) ++ MD5.hexWord (MD5.sb st)
                             ++ MD5.hexWord (MD5.sc st) ++ MD5.hexWord (MD5.sd st))%string.
  induction s as [|c s IH]; cbn [allHex Str.contains]; [reflexivity|].
  intros H. apply andb_true_iff in H as [Hc' Hs]. rewrite (IH Hs).
  rewrite orb_false_r. unfold isHexDigit in Hc'.
  destruct (Ascii.eqb c bar) eqn:E; [|reflexivity].
  apply Ascii.eqb_eq in E. subst c. discriminate.
Qed.

End SignatureMore.
